(** * Stan Math kernels: HMM marginal likelihood, squared distance,
      ordered constraint, finiteness checks and OpenCL copies

    A shallow embedding of the C++ sources.  A [double] is idealised as a
    real number (exact arithmetic) wherever the code only does arithmetic
    on it; the finiteness and convergence checks, whose whole point is the
    non-finite values of binary64, are modelled on primitive floats
    instead, and so is a second copy of the forward pass, for what
    underflow does to it. *)

From Stdlib Require Import Reals Lra Lia List String Floats ZArith Uint63.
From stdpp Require Import base list.
Import ListNotations.
Local Open Scope R_scope.

(** ** Dense vectors and matrices (the Eigen types the sources use) *)

Module Eigen.

(** [Eigen::VectorXd]: the coefficients in index order. *)
Abbreviation VectorXd := (list R).

(** [Eigen::MatrixXd]: its two dimensions and its columns (Eigen stores a
    matrix column by column). *)
Record MatrixXd := Matrix {
  rows : nat;
  cols : nat;
  columns : list (list R)
}.

(** The storage agrees with the declared dimensions. *)
Definition wf (m : MatrixXd) : Prop :=
  length (columns m) = cols m /\
  Forall (fun c : list R => length c = rows m) (columns m).

(** [v(i)].  Eigen asserts [i < v.size()]; out of range the model reads 0. *)
Definition coeff (v : list R) (i : nat) : R := nth i v 0.

(** [m.col(n)], read.  Eigen asserts [n < m.cols()]; out of range the
    model reads the empty vector. *)
Definition col (m : MatrixXd) (n : nat) : list R := nth n (columns m) [].

(** [m.col(n) = v].  Eigen asserts [n < m.cols()]; out of range the model
    leaves the matrix as it is. *)
Definition set_col (m : MatrixXd) (n : nat) (v : list R) : MatrixXd :=
  Matrix (rows m) (cols m) (<[n := v]> (columns m)).

(** Row [i] (counted from 0) of a matrix. *)
Definition row0 (m : MatrixXd) (i : nat) : list R :=
  map (fun c : list R => coeff c i) (columns m).

(** [m.transpose()]. *)
Definition transpose (m : MatrixXd) : MatrixXd :=
  Matrix (cols m) (rows m) (map (row0 m) (seq 0 (rows m))).

(** [u.cwiseProduct(v)]. *)
Definition cwiseProduct (u v : list R) : list R := zip_with Rmult u v.

(** [v.sum()]. *)
Definition sum (v : list R) : R := fold_right Rplus 0 v.

(** [v.maxCoeff()].  Eigen asserts a non-empty vector; on the empty one the
    model answers 0. *)
Definition maxCoeff (v : list R) : R :=
  match v with
  | [] => 0
  | x :: xs => fold_left Rmax xs x
  end.

(** [v /= c] and [v / c]. *)
Definition div_scalar (v : list R) (c : R) : list R :=
  map (fun x => x / c) v.

(** [c * v]. *)
Definition scale (c : R) (v : list R) : list R := map (Rmult c) v.

(** Inner product, the reduction behind every matrix-vector product. *)
Definition dot (u v : list R) : R := sum (cwiseProduct u v).

(** [m.transpose() * v]: coefficient [j] is column [j] of [m] against [v]. *)
Definition transpose_times (m : MatrixXd) (v : list R) : list R :=
  map (fun c : list R => dot c v) (columns m).

(** [m * v]: coefficient [i] is row [i] of [m] against [v]. *)
Definition times (m : MatrixXd) (v : list R) : list R :=
  map (fun i => dot (row0 m i) v) (seq 0 (rows m)).

(** [m.array().exp()]. *)
Definition array_exp (m : MatrixXd) : MatrixXd :=
  Matrix (rows m) (cols m) (map (map exp) (columns m)).

(** [Eigen::VectorXd::Ones(n)] and [Eigen::VectorXd::Zero(n)]. *)
Definition Ones (n : nat) : list R := repeat 1 n.
Definition ZeroV (n : nat) : list R := repeat 0 n.

(** [Eigen::MatrixXd::Zero(r, c)]; also stands for a freshly sized
    matrix, whose coefficients the sources overwrite before reading. *)
Definition Zero (r c : nat) : MatrixXd := Matrix r c (repeat (ZeroV r) c).

(** Sum of [f 0], ..., [f (n - 1)]: the index form of [sum]. *)
Definition big (n : nat) (f : nat -> R) : R := sum (map f (seq 0 n)).

End Eigen.

(** ** Errors and precondition checks

    The checking helpers are called by the sources but not part of them;
    each is modelled from the specification's description of the
    precondition-check interface. *)

Module err.
Import Eigen.

(** What a check throws: the exception class with the function and
    argument names the caller passed for the message. *)
Inductive exception :=
| domain_error (function name : string)
| invalid_argument (function name : string).

(** A computation that either throws or returns. *)
Definition throws (A : Type) : Type := (exception + A)%type.

Definition bind {A B : Type} (x : throws A) (f : A -> throws B) : throws B :=
  match x with
  | inl e => inl e
  | inr a => f a
  end.

(** Decidable order on the reals, as a boolean. *)
Definition Rleb (x y : R) : bool := if Rle_dec x y then true else false.

(** A matrix with any element type and its coefficients in linear
    (column-major) index order: [Eigen::Matrix<T, R, C>]. *)
Record Mat (T : Type) := mat {
  mat_rows : nat;
  mat_cols : nat;
  mat_data : list T
}.
Arguments mat {T} _ _ _.
Arguments mat_rows {T} _.
Arguments mat_cols {T} _.
Arguments mat_data {T} _.

(** [m.size()]. *)
Definition mat_size {T : Type} (m : Mat T) : nat := length (mat_data m).

(** Modelled from the spec: [check_vector] is absent from the sources;
    shape compatibility of a vector argument means one row or one
    column, and a violation is a size error naming the argument. *)
Definition check_vector {T : Type} (function name : string) (m : Mat T)
    : throws unit :=
  if (mat_rows m =? 1)%nat || (mat_cols m =? 1)%nat then inr tt
  else inl (invalid_argument function name).

(** Modelled from the spec: [check_matching_sizes] is absent from the
    sources; the two containers must have the same size, else a
    size-mismatch error naming the first argument. *)
Definition check_matching_sizes {T U : Type} (function name1 : string)
    (m1 : Mat T) (name2 : string) (m2 : Mat U) : throws unit :=
  if (mat_size m1 =? mat_size m2)%nat then inr tt
  else inl (invalid_argument function name1).

(** Modelled from the spec: [check_square] is absent from the sources; the
    operand must have as many rows as columns, else (as the documentation
    of [hmm_marginal_lpdf] says) a domain error. *)
Definition check_square (function name : string) (m : MatrixXd)
    : throws unit :=
  if (rows m =? cols m)%nat then inr tt
  else inl (domain_error function name).

(** Modelled from the spec: [check_consistent_size] is absent from the
    sources; the vector must have the expected length, else an
    invalid-argument error. *)
Definition check_consistent_size (function name : string) (v : list R)
    (expected : nat) : throws unit :=
  if (length v =? expected)%nat then inr tt
  else inl (invalid_argument function name).

Section Simplex.
(** The tolerance on the sum of a simplex; its value is not in the
    sources. *)
Variable CONSTRAINT_TOLERANCE : R.

(** Modelled from the spec: a valid probability simplex is non-negative
    and sums to 1 within tolerance (finiteness is automatic for real
    coefficients). *)
Definition is_simplex (v : list R) : bool :=
  Rleb (Rabs (1 - sum v)) CONSTRAINT_TOLERANCE && forallb (Rleb 0) v.

(** Modelled from the spec: [check_simplex] is absent from the sources;
    anything but a valid simplex is a domain error. *)
Definition check_simplex (function name : string) (v : list R)
    : throws unit :=
  if is_simplex v then inr tt else inl (domain_error function name).
End Simplex.

End err.

(** ** The tape of reverse mode

    [vari], [var] and the stack of nodes are used by the sources but
    declared outside them. *)

Module rev.
Import Eigen.

(** The node classes of the sources, each with the members it stores.  A
    [vari*] is the position of the node on the stack. *)
Inductive vari_class :=
| plain_vari
| scal_squared_distance_vv_vari (avi_ bvi_ : nat)
| scal_squared_distance_vd_vari (avi_ : nat) (bd_ : R)
| scal_squared_distance_dv_vari (ad_ : R) (bvi_ : nat)
| squared_distance_vv_vari (v1_ v2_ : list nat) (length_ : nat)
| squared_distance_vd_vari (v1_ : list nat) (v2_ : list R) (length_ : nat)
| precomputed_gradients_vari (varis_ : list nat) (gradients_ : list R).

(** Modelled from the spec: a node holds a value, a mutable adjoint
    accumulator initialised to 0, and its propagate operation. *)
Record vari := Vari {
  val_ : R;
  adj_ : R;
  class_ : vari_class
}.

(** [vi->val_] and [vi->adj_] on the stack [s]. *)
Definition val_at (s : list vari) (vi : nat) : R :=
  match s !! vi with Some v => val_ v | None => 0 end.
Definition adj_at (s : list vari) (vi : nat) : R :=
  match s !! vi with Some v => adj_ v | None => 0 end.

(** [vi->adj_ += d], [vi->adj_ -= d] and [vi->adj_ = d]. *)
Definition add_adj (s : list vari) (vi : nat) (d : R) : list vari :=
  alter (fun v => Vari (val_ v) (adj_ v + d) (class_ v)) vi s.
Definition sub_adj (s : list vari) (vi : nat) (d : R) : list vari :=
  alter (fun v => Vari (val_ v) (adj_ v - d) (class_ v)) vi s.
Definition set_adj (s : list vari) (vi : nat) (d : R) : list vari :=
  alter (fun v => Vari (val_ v) d (class_ v)) vi s.

(** The contribution [d] that an update of node [vi] makes to node [p]. *)
Definition bump (p vi : nat) (d : R) : R := if (p =? vi)%nat then d else 0.

(** Modelled from the spec: [new] of a node appends it to the tape, whose
    order is creation order; the result is the new stack and the node's
    address. *)
Definition push (s : list vari) (val : R) (c : vari_class)
    : list vari * nat :=
  (s ++ [Vari val 0 c], length s).

(** A [var]: the dual scalar, a reference [vi_] to its node. *)
Record var := Var { vi_ : nat }.

(** [var(x)] for a double [x]: an independent variable. *)
Definition new_var (s : list vari) (x : R) : list vari * var :=
  let '(s, vi) := push s x plain_vari in (s, Var vi).

(** One turn of the loop of [squared_distance_vv_vari::chain]. *)
Definition vv_chain_iteration (self : nat) (v1_ v2_ : list nat)
    (s : list vari) (i : nat) : list vari :=
  let di := 2 * adj_at s self
            * (val_at s (nth i v1_ O) - val_at s (nth i v2_ O)) in
  let s := add_adj s (nth i v1_ O) di in
  sub_adj s (nth i v2_ O) di.

(** One turn of the loop of [squared_distance_vd_vari::chain]. *)
Definition vd_chain_iteration (self : nat) (v1_ : list nat) (v2_ : list R)
    (s : list vari) (i : nat) : list vari :=
  add_adj s (nth i v1_ O)
    (2 * adj_at s self * (val_at s (nth i v1_ O) - nth i v2_ 0)).

(** Modelled from the spec: one turn of the propagate loop of a node
    with precomputed partials, which adds [adj_ * gradients_[i]] to
    operand [i]. *)
Definition precomputed_chain_iteration (self : nat) (varis_ : list nat)
    (gradients_ : list R) (s : list vari) (i : nat) : list vari :=
  add_adj s (nth i varis_ O) (adj_at s self * nth i gradients_ 0).

(** [self->chain()]: virtual dispatch on the class of the node. *)
Definition chain (s : list vari) (self : nat) : list vari :=
  match s !! self with
  | None => s
  | Some node =>
      match class_ node with
      | plain_vari => s
      | scal_squared_distance_vv_vari avi_ bvi_ =>
          let diff := val_at s avi_ - val_at s bvi_ in
          let s := add_adj s avi_ (adj_at s self * 2 * diff) in
          sub_adj s bvi_ (adj_at s self * 2 * diff)
      | scal_squared_distance_vd_vari avi_ bd_ =>
          add_adj s avi_ (adj_at s self * 2 * (val_at s avi_ - bd_))
      | scal_squared_distance_dv_vari ad_ bvi_ =>
          sub_adj s bvi_ (adj_at s self * 2 * (ad_ - val_at s bvi_))
      | squared_distance_vv_vari v1_ v2_ length_ =>
          fold_left (vv_chain_iteration self v1_ v2_) (seq 0 length_) s
      | squared_distance_vd_vari v1_ v2_ length_ =>
          fold_left (vd_chain_iteration self v1_ v2_) (seq 0 length_) s
      | precomputed_gradients_vari varis_ gradients_ =>
          fold_left (precomputed_chain_iteration self varis_ gradients_)
                    (seq 0 (length varis_)) s
      end
  end.

(** Modelled from the spec: the reverse executor seeds the adjoint of the
    output node with 1 and visits the tape from the last-created node to
    the first, invoking each node's propagate once. *)
Definition grad (s : list vari) (vi : nat) : list vari :=
  let s := set_adj s vi 1 in
  fold_left chain (rev (seq 0 (length s))) s.

End rev.

(** ** rev/fun/squared_distance.hpp *)

Module squared_distance.
Import err rev.

(** Modelled from the spec: the squared distance of two doubles (declared
    in prim/fun/squared_distance.hpp, not among the sources) has the
    forward value (a-b)². *)
Definition prim (a b : R) : R := (a - b) * (a - b).

(** [squared_distance(const var& a, const var& b)]. *)
Definition scal_vv (s : list vari) (a b : var) : list vari * var :=
  let '(s, vi) :=
    push s (prim (val_at s (vi_ a)) (val_at s (vi_ b)))
         (scal_squared_distance_vv_vari (vi_ a) (vi_ b)) in
  (s, Var vi).

(** [squared_distance(const var& a, double b)]. *)
Definition scal_vd (s : list vari) (a : var) (b : R) : list vari * var :=
  let '(s, vi) :=
    push s (prim (val_at s (vi_ a)) b)
         (scal_squared_distance_vd_vari (vi_ a) b) in
  (s, Var vi).

(** [squared_distance(double a, const var& b)]. *)
Definition scal_dv (s : list vari) (a : R) (b : var) : list vari * var :=
  let '(s, vi) :=
    push s (prim a (val_at s (vi_ b)))
         (scal_squared_distance_dv_vari a (vi_ b)) in
  (s, Var vi).

(** [squared_distance_vv_vari::var_squared_distance]. *)
Definition var_squared_distance_vv (s : list vari) (v1 v2 : Mat var) : R :=
  fold_left
    (fun result i =>
       let diff := val_at s (vi_ (nth i (mat_data v1) (Var O)))
                   - val_at s (vi_ (nth i (mat_data v2) (Var O))) in
       result + diff * diff)
    (seq 0 (mat_size v1)) 0.

(** [squared_distance_vd_vari::var_squared_distance]. *)
Definition var_squared_distance_vd (s : list vari) (v1 : Mat var)
    (v2 : Mat R) : R :=
  fold_left
    (fun result i =>
       let diff := val_at s (vi_ (nth i (mat_data v1) (Var O)))
                   - nth i (mat_data v2) 0 in
       result + diff * diff)
    (seq 0 (mat_size v1)) 0.

(** The constructor of [squared_distance_vv_vari]: the value, then the
    two arrays of [length_] node addresses copied into the arena. *)
Definition new_squared_distance_vv_vari (s : list vari) (v1 v2 : Mat var)
    : list vari * nat :=
  let length_ := mat_size v1 in
  let v1_ := map (fun i => vi_ (nth i (mat_data v1) (Var O)))
                 (seq 0 length_) in
  let v2_ := map (fun i => vi_ (nth i (mat_data v2) (Var O)))
                 (seq 0 length_) in
  push s (var_squared_distance_vv s v1 v2)
       (squared_distance_vv_vari v1_ v2_ length_).

(** The constructor of [squared_distance_vd_vari]: the second operand is
    copied as [length_] doubles. *)
Definition new_squared_distance_vd_vari (s : list vari) (v1 : Mat var)
    (v2 : Mat R) : list vari * nat :=
  let length_ := mat_size v1 in
  let v1_ := map (fun i => vi_ (nth i (mat_data v1) (Var O)))
                 (seq 0 length_) in
  let v2_ := map (fun i => nth i (mat_data v2) 0) (seq 0 length_) in
  push s (var_squared_distance_vd s v1 v2)
       (squared_distance_vd_vari v1_ v2_ length_).

(** [squared_distance(Matrix<var>, Matrix<var>)]. *)
Definition mat_vv (s : list vari) (v1 v2 : Mat var)
    : throws (list vari * var) :=
  bind (check_vector "squared_distance" "v1" v1) (fun _ =>
  bind (check_vector "squared_distance" "v2" v2) (fun _ =>
  bind (check_matching_sizes "squared_distance" "v1" v1 "v2" v2) (fun _ =>
  let '(s, vi) := new_squared_distance_vv_vari s v1 v2 in
  inr (s, Var vi)))).

(** [squared_distance(Matrix<var>, Matrix<double>)]. *)
Definition mat_vd (s : list vari) (v1 : Mat var) (v2 : Mat R)
    : throws (list vari * var) :=
  bind (check_vector "squared_distance" "v1" v1) (fun _ =>
  bind (check_vector "squared_distance" "v2" v2) (fun _ =>
  bind (check_matching_sizes "squared_distance" "v1" v1 "v2" v2) (fun _ =>
  let '(s, vi) := new_squared_distance_vd_vari s v1 v2 in
  inr (s, Var vi)))).

(** [squared_distance(Matrix<double>, Matrix<var>)]. *)
Definition mat_dv (s : list vari) (v1 : Mat R) (v2 : Mat var)
    : throws (list vari * var) :=
  bind (check_vector "squared_distance" "v1" v1) (fun _ =>
  bind (check_vector "squared_distance" "v2" v2) (fun _ =>
  bind (check_matching_sizes "squared_distance" "v1" v1 "v2" v2) (fun _ =>
  let '(s, vi) := new_squared_distance_vd_vari s v2 v1 in
  inr (s, Var vi)))).

End squared_distance.

(** ** prim/prob/hmm_marginal_lpdf.hpp: the forward pass *)

Module internal.
Import Eigen.

(** One turn of [for (int n = 0; n < n_transitions; ++n)]: the state is
    the pair of in/out arguments [alphas], [alpha_log_norms]. *)
Definition forward_iteration (Gamma omegas : MatrixXd)
    (st : MatrixXd * list R) (n : nat) : MatrixXd * list R :=
  let '(alphas, alpha_log_norms) := st in
  let alphas :=
    set_col alphas (n + 1)
      (cwiseProduct (col omegas (n + 1))
                    (transpose_times Gamma (col alphas n))) in
  let norm := maxCoeff (col alphas (n + 1)) in
  let alphas := set_col alphas (n + 1) (div_scalar (col alphas (n + 1)) norm) in
  let alpha_log_norms :=
    <[(n + 1)%nat := ln norm + coeff alpha_log_norms n]> alpha_log_norms in
  (alphas, alpha_log_norms).

(** [internal::hmm_marginal_lpdf].  The in/out arguments come back in the
    result: (log marginal density, alphas, alpha_log_norms, omegas).
    With no observation column [n_transitions] is -1 and the first
    statement already indexes outside [alphas]: [None]. *)
Definition hmm_marginal_lpdf (log_omegas Gamma : MatrixXd) (rho : list R)
    (alphas : MatrixXd) (alpha_log_norms : list R)
    : option (R * MatrixXd * list R * MatrixXd) :=
  let omegas := array_exp log_omegas in
  match cols log_omegas with
  | O => None
  | S n_transitions =>
      let alphas := set_col alphas 0 (cwiseProduct (col omegas 0) rho) in
      let norm := maxCoeff (col alphas 0) in
      let alphas := set_col alphas 0 (div_scalar (col alphas 0) norm) in
      let alpha_log_norms := <[0%nat := ln norm]> alpha_log_norms in
      let '(alphas, alpha_log_norms) :=
        fold_left (forward_iteration Gamma omegas) (seq 0 n_transitions)
                  (alphas, alpha_log_norms) in
      Some (ln (sum (col alphas n_transitions))
              + coeff alpha_log_norms n_transitions,
            alphas, alpha_log_norms, omegas)
  end.

End internal.

(** ** prim/prob/hmm_marginal_lpdf.hpp: the forward pass on binary64

    The same function with [double] as the primitive floats, for what
    rounding, underflow and NaN do to it.  [std::exp] and [std::log] come
    from the C library: they are parameters.  The order in which Eigen
    reduces a sum or a maximum is not fixed by the sources; the model
    reduces from left to right. *)

Module binary64.

Record MatrixXd := Matrix {
  rows : nat;
  cols : nat;
  columns : list (list float)
}.

Definition coeff (v : list float) (i : nat) : float := nth i v PrimFloat.zero.
Definition col (m : MatrixXd) (n : nat) : list float := nth n (columns m) [].
Definition set_col (m : MatrixXd) (n : nat) (v : list float) : MatrixXd :=
  Matrix (rows m) (cols m) (<[n := v]> (columns m)).
Definition cwiseProduct (u v : list float) : list float :=
  zip_with PrimFloat.mul u v.
Definition sum (v : list float) : float :=
  fold_left PrimFloat.add v PrimFloat.zero.

(** [v.maxCoeff()], with the comparison of [std::max]. *)
Definition maxCoeff (v : list float) : float :=
  match v with
  | [] => PrimFloat.zero
  | x :: xs => fold_left (fun a b => if PrimFloat.ltb a b then b else a) xs x
  end.

Definition div_scalar (v : list float) (c : float) : list float :=
  map (fun x => PrimFloat.div x c) v.
Definition dot (u v : list float) : float := sum (cwiseProduct u v).
Definition transpose_times (m : MatrixXd) (v : list float) : list float :=
  map (fun c : list float => dot c v) (columns m).

Section Libm.
Variables exp_ log_ : float -> float.

Definition array_exp (m : MatrixXd) : MatrixXd :=
  Matrix (rows m) (cols m) (map (map exp_) (columns m)).

(** One turn of [for (int n = 0; n < n_transitions; ++n)]. *)
Definition forward_iteration (Gamma omegas : MatrixXd)
    (st : MatrixXd * list float) (n : nat) : MatrixXd * list float :=
  let '(alphas, alpha_log_norms) := st in
  let alphas :=
    set_col alphas (n + 1)
      (cwiseProduct (col omegas (n + 1))
                    (transpose_times Gamma (col alphas n))) in
  let norm := maxCoeff (col alphas (n + 1)) in
  let alphas := set_col alphas (n + 1) (div_scalar (col alphas (n + 1)) norm) in
  let alpha_log_norms :=
    <[(n + 1)%nat := PrimFloat.add (log_ norm) (coeff alpha_log_norms n)]>
      alpha_log_norms in
  (alphas, alpha_log_norms).

(** [internal::hmm_marginal_lpdf] on binary64. *)
Definition hmm_marginal_lpdf (log_omegas Gamma : MatrixXd) (rho : list float)
    (alphas : MatrixXd) (alpha_log_norms : list float)
    : option (float * MatrixXd * list float * MatrixXd) :=
  let omegas := array_exp log_omegas in
  match cols log_omegas with
  | O => None
  | S n_transitions =>
      let alphas := set_col alphas 0 (cwiseProduct (col omegas 0) rho) in
      let norm := maxCoeff (col alphas 0) in
      let alphas := set_col alphas 0 (div_scalar (col alphas 0) norm) in
      let alpha_log_norms := <[0%nat := log_ norm]> alpha_log_norms in
      let '(alphas, alpha_log_norms) :=
        fold_left (forward_iteration Gamma omegas) (seq 0 n_transitions)
                  (alphas, alpha_log_norms) in
      Some (PrimFloat.add (log_ (sum (col alphas n_transitions)))
                          (coeff alpha_log_norms n_transitions),
            alphas, alpha_log_norms, omegas)
  end.

End Libm.

End binary64.

(** ** prim/prob/hmm_marginal_lpdf.hpp: checks, adjoint method, partials *)

Module hmm.
Import Eigen err rev.

(** [a + b], [m / c], [a.cwiseProduct(b)] on matrices, and the outer
    product [u * v.transpose()]. *)
Definition mat_add (a b : MatrixXd) : MatrixXd :=
  Matrix (rows a) (cols a) (zip_with (zip_with Rplus) (columns a) (columns b)).
Definition mat_div_scalar (m : MatrixXd) (c : R) : MatrixXd :=
  Matrix (rows m) (cols m) (map (fun v => div_scalar v c) (columns m)).
Definition mat_cwiseProduct (a b : MatrixXd) : MatrixXd :=
  Matrix (rows a) (cols a) (zip_with cwiseProduct (columns a) (columns b)).
Definition outer (u v : list R) : MatrixXd :=
  Matrix (length u) (length v) (map (fun vj => map (fun ui => ui * vj) u) v).

(** Modelled from the spec: [row(m, i)] and [col(m, j)] are not among the
    sources.  Their call sites (row 1 of [Gamma] for its width, column
    [i + 1] of the transpose for row [i]) show accessors that count from
    1; their own index checks are not modelled. *)
Definition row (m : MatrixXd) (i : nat) : list R := row0 m (i - 1).
Definition col1 (m : MatrixXd) (j : nat) : list R := col m (j - 1).

(** An operand whose element type is the template parameter: doubles, or
    [var]s given by the addresses of their nodes. *)
Inductive matrix_operand :=
| double_matrix (m : MatrixXd)
| var_matrix (r c : nat) (vis : list (list nat)).

Inductive vector_operand :=
| double_vector (v : list R)
| var_vector (vis : list nat).

(** [is_constant_all<T>::value]. *)
Definition is_constant_all_m (x : matrix_operand) : bool :=
  match x with double_matrix _ => true | var_matrix _ _ _ => false end.
Definition is_constant_all_v (x : vector_operand) : bool :=
  match x with double_vector _ => true | var_vector _ => false end.

(** [value_of_rec]: the doubles behind an operand. *)
Definition value_of_rec_m (s : list vari) (x : matrix_operand) : MatrixXd :=
  match x with
  | double_matrix m => m
  | var_matrix r c vis => Matrix r c (map (map (val_at s)) vis)
  end.
Definition value_of_rec_v (s : list vari) (x : vector_operand) : list R :=
  match x with
  | double_vector v => v
  | var_vector vis => map (val_at s) vis
  end.

(** The precondition checks, in the order of the source. *)
Definition checks (CONSTRAINT_TOLERANCE : R) (log_omegas Gamma : MatrixXd)
    (rho : list R) : throws unit :=
  let n_states := rows log_omegas in
  bind (check_square "hmm_marginal_lpdf" "Gamma" Gamma) (fun _ =>
  bind (check_consistent_size "hmm_marginal_lpdf" "Gamma" (row Gamma 1)
          n_states) (fun _ =>
  let Gamma_transpose := transpose Gamma in
  bind (fold_left
          (fun (acc : throws unit) (i : nat) =>
             bind acc (fun _ =>
               check_simplex CONSTRAINT_TOLERANCE "hmm_marginal_lpdf"
                 "Gamma[i, ]" (col1 Gamma_transpose (i + 1))))
          (seq 0 (cols Gamma)) (inr tt)) (fun _ =>
  bind (check_consistent_size "hmm_marginal_lpdf" "rho" rho n_states)
    (fun _ =>
  check_simplex CONSTRAINT_TOLERANCE "hmm_marginal_lpdf" "rho" rho)))).

(** One turn of [for (int n = n_transitions - 2; n >= 0; --n)]. *)
Definition backward_iteration (Gamma_dbl omegas : MatrixXd)
    (alpha_log_norms : list R) (norm_norm : R)
    (st : list (list R) * list R * list R) (n : nat)
    : list (list R) * list R * list R :=
  let '(kappa, kappa_log_norms, grad_corr) := st in
  let kappa :=
    <[n := times Gamma_dbl
             (cwiseProduct (col omegas (n + 2)) (nth (n + 1) kappa []))]>
      kappa in
  let norm := maxCoeff (nth n kappa []) in
  let kappa := <[n := div_scalar (nth n kappa []) norm]> kappa in
  let kappa_log_norms :=
    <[n := ln norm + coeff kappa_log_norms (n + 1)]> kappa_log_norms in
  let grad_corr :=
    <[n := exp (coeff alpha_log_norms n + coeff kappa_log_norms n
                - norm_norm)]> grad_corr in
  (kappa, kappa_log_norms, grad_corr).

(** The variables required for all three Jacobian-adjoint products:
    [kappa], [kappa_log_norms] and [grad_corr]. *)
Definition backward_pass (n_states n_transitions : nat)
    (Gamma_dbl omegas : MatrixXd) (alpha_log_norms : list R)
    (norm_norm : R) : list (list R) * list R * list R :=
  let kappa : list (list R) := repeat [] n_transitions in
  let kappa_log_norms := ZeroV n_transitions in
  let grad_corr : list R := repeat 0 n_transitions in
  let st :=
    if (0 <? n_transitions)%nat then
      (<[(n_transitions - 1)%nat := Ones n_states]> kappa,
       <[(n_transitions - 1)%nat := 0]> kappa_log_norms,
       <[(n_transitions - 1)%nat :=
           exp (coeff alpha_log_norms (n_transitions - 1) - norm_norm)]>
         grad_corr)
    else (kappa, kappa_log_norms, grad_corr) in
  fold_left
    (backward_iteration Gamma_dbl omegas alpha_log_norms norm_norm)
    (List.rev (seq 0 (n_transitions - 1))) st.

(** Modelled from the spec: the partials held by [operands_and_partials],
    one edge per operand; the edge of a constant operand has no storage
    ([None]), the edge of a differentiable operand starts at zero. *)
Record edges := Edges {
  edge1_partials_ : option MatrixXd;
  edge2_partials_ : option MatrixXd;
  edge3_partials_ : option (list R)
}.

Definition ops_partials (n_states n_columns : nat)
    (const_omega const_Gamma const_rho : bool) : edges :=
  Edges (if const_omega then None else Some (Zero n_states n_columns))
        (if const_Gamma then None else Some (Zero n_states n_states))
        (if const_rho then None else Some (ZeroV n_states)).

(** The block guarded by [!is_constant_all<T_Gamma>::value]. *)
Definition Gamma_partials (n_states n_transitions : nat)
    (omegas alphas : MatrixXd) (kappa : list (list R)) (grad_corr : list R)
    (unnormed_marginal : R) : MatrixXd :=
  let Gamma_jacad :=
    fold_left
      (fun Gamma_jacad n =>
         mat_add Gamma_jacad
           (transpose
              (outer (scale (coeff grad_corr n)
                        (cwiseProduct (nth n kappa []) (col omegas (n + 1))))
                     (col alphas n))))
      (List.rev (seq 0 n_transitions)) (Zero n_states n_states) in
  mat_div_scalar Gamma_jacad unnormed_marginal.

(** The block guarded by [sensitivities_for_omega_or_rho], acting on the
    edges of [log_omegas] and [rho]. *)
Definition boundary_terms (n_states n_transitions : nat)
    (const_omega const_rho : bool) (Gamma_dbl omegas alphas : MatrixXd)
    (rho : list R) (kappa : list (list R))
    (kappa_log_norms grad_corr : list R)
    (norm_norm unnormed_marginal log_marginal_density : R)
    (e : edges) : edges :=
  let log_omega_jacad := Zero n_states (n_transitions + 1) in
  let log_omega_jacad :=
    if negb const_omega then
      fold_left
        (fun jacad n =>
           set_col jacad (n + 1)
             (scale (coeff grad_corr n)
                (cwiseProduct (nth n kappa [])
                   (transpose_times Gamma_dbl (col alphas n)))))
        (List.rev (seq 0 n_transitions)) log_omega_jacad
    else log_omega_jacad in
  if (n_transitions =? 0)%nat then
    let e :=
      if negb const_omega then
        let log_omega_jacad :=
          set_col log_omega_jacad 0
            (div_scalar (cwiseProduct (col omegas 0) rho)
                        (exp log_marginal_density)) in
        Edges (Some log_omega_jacad) (edge2_partials_ e) (edge3_partials_ e)
      else e in
    if negb const_rho then
      Edges (edge1_partials_ e) (edge2_partials_ e)
            (Some (div_scalar (col omegas 0) (exp log_marginal_density)))
    else e
  else
    let grad_corr_boundary := exp (coeff kappa_log_norms 0 - norm_norm) in
    let c := times Gamma_dbl (cwiseProduct (col omegas 1) (nth 0 kappa [])) in
    let e :=
      if negb const_omega then
        let log_omega_jacad :=
          set_col log_omega_jacad 0
            (scale grad_corr_boundary (cwiseProduct c rho)) in
        Edges (Some (mat_cwiseProduct log_omega_jacad
                       (mat_div_scalar omegas unnormed_marginal)))
              (edge2_partials_ e) (edge3_partials_ e)
      else e in
    if negb const_rho then
      Edges (edge1_partials_ e) (edge2_partials_ e)
            (Some (div_scalar
                     (scale grad_corr_boundary
                        (cwiseProduct c (col omegas 0)))
                     unnormed_marginal))
    else e.

(** The adjoint method: everything between the forward pass and
    [ops_partials.build], acting on the edges [e] of [ops_partials]. *)
Definition partials (n_states n_transitions : nat)
    (const_omega const_Gamma const_rho : bool)
    (Gamma_dbl : MatrixXd) (rho : list R)
    (omegas alphas : MatrixXd) (alpha_log_norms : list R)
    (log_marginal_density : R) (e : edges) : edges :=
  let norm_norm := coeff alpha_log_norms n_transitions in
  let unnormed_marginal := sum (col alphas n_transitions) in
  let '(kappa, kappa_log_norms, grad_corr) :=
    backward_pass n_states n_transitions Gamma_dbl omegas alpha_log_norms
                  norm_norm in
  let e :=
    if negb const_Gamma then
      Edges (edge1_partials_ e)
            (Some (Gamma_partials n_states n_transitions omegas alphas kappa
                     grad_corr unnormed_marginal))
            (edge3_partials_ e)
    else e in
  let sensitivities_for_omega_or_rho := negb const_omega || negb const_rho in
  if sensitivities_for_omega_or_rho then
    boundary_terms n_states n_transitions const_omega const_rho Gamma_dbl
      omegas alphas rho kappa kappa_log_norms grad_corr norm_norm
      unnormed_marginal log_marginal_density e
  else e.

(** What the function returns: a double when every operand is constant,
    else a [var]. *)
Inductive return_type :=
| ret_double (x : R)
| ret_var (v : var).

(** The node addresses of an operand, in storage order. *)
Definition operand_varis_m (x : matrix_operand) : list nat :=
  match x with double_matrix _ => [] | var_matrix _ _ vis => concat vis end.
Definition operand_varis_v (x : vector_operand) : list nat :=
  match x with double_vector _ => [] | var_vector vis => vis end.

(** Modelled from the spec: [ops_partials.build(value)] allocates the one
    node whose propagate distributes the adjoint over the differentiable
    operands with the stored partials, and nothing when every operand is
    constant. *)
Definition build (s : list vari) (value : R)
    (log_omegas Gamma : matrix_operand) (rho : vector_operand) (e : edges)
    : list vari * return_type :=
  if is_constant_all_m log_omegas && is_constant_all_m Gamma
     && is_constant_all_v rho
  then (s, ret_double value)
  else
    let varis := operand_varis_m log_omegas ++ operand_varis_m Gamma
                 ++ operand_varis_v rho in
    let gradients :=
      match edge1_partials_ e with Some m => concat (columns m) | None => [] end
      ++ match edge2_partials_ e with Some m => concat (columns m) | None => [] end
      ++ match edge3_partials_ e with Some v => v | None => [] end in
    let '(s, vi) := push s value (precomputed_gradients_vari varis gradients) in
    (s, ret_var (Var vi)).

End hmm.

(** [hmm_marginal_lpdf]: the stack of nodes after the call, with either
    the exception thrown or the returned scalar and the partials stored in
    its node.  With no observation column the forward pass is out of
    contract ([None]). *)
Definition hmm_marginal_lpdf (CONSTRAINT_TOLERANCE : R) (s : list rev.vari)
    (log_omegas Gamma : hmm.matrix_operand) (rho : hmm.vector_operand)
    : option (list rev.vari * err.throws (hmm.return_type * hmm.edges)) :=
  let log_omegas_dbl := hmm.value_of_rec_m s log_omegas in
  let Gamma_dbl := hmm.value_of_rec_m s Gamma in
  let rho_dbl := hmm.value_of_rec_v s rho in
  let n_states := Eigen.rows log_omegas_dbl in
  match hmm.checks CONSTRAINT_TOLERANCE log_omegas_dbl Gamma_dbl rho_dbl with
  | inl e => Some (s, inl e)
  | inr _ =>
      match Eigen.cols log_omegas_dbl with
      | O => None
      | S n_transitions =>
          let ops_partials :=
            hmm.ops_partials n_states (n_transitions + 1)
              (hmm.is_constant_all_m log_omegas)
              (hmm.is_constant_all_m Gamma)
              (hmm.is_constant_all_v rho) in
          let alphas := Eigen.Zero n_states (n_transitions + 1) in
          let alpha_log_norms := Eigen.ZeroV (n_transitions + 1) in
          match internal.hmm_marginal_lpdf log_omegas_dbl Gamma_dbl rho_dbl
                  alphas alpha_log_norms with
          | None => None
          | Some (log_marginal_density, alphas, alpha_log_norms, omegas) =>
              let e :=
                hmm.partials n_states n_transitions
                  (hmm.is_constant_all_m log_omegas)
                  (hmm.is_constant_all_m Gamma)
                  (hmm.is_constant_all_v rho)
                  Gamma_dbl rho_dbl omegas alphas alpha_log_norms
                  log_marginal_density ops_partials in
              let '(s, r) :=
                hmm.build s log_marginal_density log_omegas Gamma rho e in
              Some (s, inr (r, e))
          end
      end
  end.

(** ** rev/mat/fun/ordered_constrain.hpp *)

Module ordered_constrain_op.
Import Eigen.

(** The members of the functor: the size and the cached exponentials,
    which live in the arena. *)
Record t := Op {
  N_ : nat;
  exp_x_ : list R
}.

(** One turn of [for (int n = 1; n < N_; ++n)] of [operator()]. *)
Definition call_iteration (x : list R) (st : list R * list R) (n : nat)
    : list R * list R :=
  let '(exp_x_, y) := st in
  let exp_x_ := <[(n - 1)%nat := exp (coeff x n)]> exp_x_ in
  let y := <[n := coeff y (n - 1) + coeff exp_x_ (n - 1)]> y in
  (exp_x_, y).

(** [operator()(x)]: the functor after the call and the ordered vector.
    On the empty vector it returns before touching [exp_x_]. *)
Definition call (self : t) (x : list R) : t * list R :=
  let N_ := length x in
  let y := ZeroV N_ in
  if (N_ =? 0)%nat then (Op N_ (exp_x_ self), y)
  else
    let exp_x_ := ZeroV (N_ - 1) in
    let y := <[0%nat := coeff x 0]> y in
    let '(exp_x_, y) :=
      fold_left (call_iteration x) (seq 1 (N_ - 1)) (exp_x_, y) in
    (Op N_ exp_x_, y).

(** One turn of [for (int n = N_ - 1; n > 0; --n)]. *)
Definition adjoint_iteration (self : t) (adj : list R)
    (st : R * list R) (n : nat) : R * list R :=
  let '(rolling_adjoint_sum, adj_times_jac) := st in
  let rolling_adjoint_sum := rolling_adjoint_sum + coeff adj n in
  let adj_times_jac :=
    <[n := coeff (exp_x_ self) (n - 1) * rolling_adjoint_sum]>
      adj_times_jac in
  (rolling_adjoint_sum, adj_times_jac).

(** [multiply_adjoint_jacobian(adj)]. *)
Definition multiply_adjoint_jacobian (self : t) (adj : list R) : list R :=
  let adj_times_jac := ZeroV (N_ self) in
  let rolling_adjoint_sum := 0 in
  if (0 <? N_ self)%nat then
    let '(rolling_adjoint_sum, adj_times_jac) :=
      fold_left (adjoint_iteration self adj)
                (List.rev (seq 1 (N_ self - 1)))
                (rolling_adjoint_sum, adj_times_jac) in
    <[0%nat := rolling_adjoint_sum + coeff adj 0]> adj_times_jac
  else adj_times_jac.

(** The forward map alone. *)
Definition forward (x : list R) : list R := snd (call (Op 0 []) x).

(** The recurrence of the forward map, unrolled: [y[k]] as a function
    of [x]. *)
Fixpoint unrolled (x : list R) (k : nat) : R :=
  match k with
  | O => coeff x 0
  | S k' => unrolled x k' + exp (coeff x k)
  end.

(** Entry (k, n) of the Jacobian of the forward map at [x]: the partial
    derivative of [y[k]] in [x[n]]. *)
Definition jacobian (x : list R) (k n : nat) : R :=
  if (n =? 0)%nat then 1
  else if (n <=? k)%nat then exp (coeff x n)
  else 0.

End ordered_constrain_op.

(** ** prim/mat/err/is_finite.hpp: the helper for Eigen matrices

    Finiteness is a property of binary64, so the coefficients are
    primitive floats here.  The element type is [double], for which
    [value_of] is the identity. *)

Module is_finite.

(** [y.allFinite()]. *)
Definition allFinite (y : list float) : bool := forallb PrimFloat.is_finite y.

(** A [for] loop over the indices in [l] whose body may [return]:
    [None] when the loop runs to its end. *)
Fixpoint for_loop (l : list nat) (body : nat -> option bool) : option bool :=
  match l with
  | [] => None
  | n :: l' =>
      match body n with
      | Some r => Some r
      | None => for_loop l' body
      end
  end.

(** The body of the loop of [check]: both branches return. *)
Definition check_body (y : list float) (n : nat) : option bool :=
  if negb (PrimFloat.is_finite (nth n y PrimFloat.zero)) then Some false
  else Some true.

(** [check(const Eigen::Matrix<T, R, C>& y)].  [None]: control reaches
    the end of the function, which has no [return] there. *)
Definition check (y : err.Mat float) : option bool :=
  if negb (allFinite (err.mat_data y)) then
    for_loop (seq 0 (err.mat_size y)) (check_body (err.mat_data y))
  else None.

End is_finite.

(** ** prim/err/check_finite.hpp and prim/scal/err/check_nonnegative.hpp

    The element type is [double], a binary64 float.  What a failed check
    throws is a [std::domain_error] whose message is built, outside the
    sources, from the function name, the argument name and the offending
    value or index. *)

Module checks.

(** The exception of [domain_error(function, name, y, ...)] and of
    [domain_error_vec(function, name, y, i, ...)]. *)
Inductive domain_error_thrown :=
| domain_error (function name : string) (y : float)
| domain_error_vec (function name : string) (i : nat).

(** A [for] loop over the indices in [l] whose body may throw. *)
Fixpoint for_each (l : list nat) (body : nat -> domain_error_thrown + unit)
    : domain_error_thrown + unit :=
  match l with
  | [] => inr tt
  | n :: l' =>
      match body n with
      | inl e => inl e
      | inr _ => for_each l' body
      end
  end.

(** [y >= 0] on doubles; false on NaN. *)
Definition ge_zero (y : float) : bool := PrimFloat.leb PrimFloat.zero y.

(** [internal::nonnegative<T_y, false>::check] for [T_y = double], which
    is not an unsigned type. *)
Definition nonnegative_check (function name : string) (y : float)
    : domain_error_thrown + unit :=
  if negb (ge_zero y) then inl (domain_error function name y) else inr tt.

(** [internal::nonnegative<T_y, true>::check] for a vector of doubles. *)
Definition nonnegative_vec_check (function name : string) (y : list float)
    : domain_error_thrown + unit :=
  for_each (seq 0 (length y))
    (fun n =>
       if negb (ge_zero (nth n y PrimFloat.zero))
       then inl (domain_error_vec function name n)
       else inr tt).

(** [finite<T_y, false>::check] for [T_y = double]. *)
Definition finite_check (function name : string) (y : float)
    : domain_error_thrown + unit :=
  if negb (PrimFloat.is_finite y) then inl (domain_error function name y)
  else inr tt.

(** [finite<T_y, true>::check] for a vector of doubles. *)
Definition finite_vec_check (function name : string) (y : list float)
    : domain_error_thrown + unit :=
  for_each (seq 0 (length y))
    (fun n =>
       if negb (PrimFloat.is_finite (nth n y PrimFloat.zero))
       then inl (domain_error_vec function name n)
       else inr tt).

(** [finite<Eigen::Matrix<T, R, C>, true>::check] for [T = double]. *)
Definition finite_eigen_check (function name : string) (y : err.Mat float)
    : domain_error_thrown + unit :=
  if negb (is_finite.allFinite (err.mat_data y)) then
    for_each (seq 0 (err.mat_size y))
      (fun n =>
         if negb (PrimFloat.is_finite (nth n (err.mat_data y) PrimFloat.zero))
         then inl (domain_error_vec function name n)
         else inr tt)
  else inr tt.

End checks.

(** ** prim/scal/err/is_2F1_converges.hpp

    The arguments are doubles.  [is_nonpositive_integer] is declared
    outside the sources and [std::floor] is not among the operations of
    the primitive floats: both are parameters, the second together with
    the conversion of its result to [int]. *)

Module hypergeometric.

Section Converges.
Variable is_nonpositive_integer : float -> bool.
(** [x] to the [int] that [floor(x)] is stored as. *)
Variable floor_to_int : float -> Z.

(** [is_not_nan(x)]. *)
Definition is_not_nan (x : float) : bool := negb (PrimFloat.is_nan x).

(** An [int] promoted to [double] for a comparison; the conversion is
    exact on the range of a 32-bit [int]. *)
Definition of_int (n : Z) : float :=
  if (n <? 0)%Z then PrimFloat.opp (PrimFloat.of_uint63 (Uint63.of_Z (- n)))
  else PrimFloat.of_uint63 (Uint63.of_Z n).

(** One of the two blocks that look at [a1] and at [a2]: the state is
    [(num_terms, is_polynomial)]. *)
Definition polynomial_step (a : float) (st : Z * bool) : Z * bool :=
  let '(num_terms, is_polynomial) := st in
  if is_nonpositive_integer a
     && PrimFloat.leb (of_int num_terms) (PrimFloat.abs a)
  then (floor_to_int (PrimFloat.abs a), true)
  else (num_terms, is_polynomial).

(** [is_2F1_converges(a1, a2, b1, z)]. *)
Definition is_2F1_converges (a1 a2 b1 z : float) : bool :=
  if negb (is_not_nan a1 || is_not_nan a2 || is_not_nan b1 || is_not_nan z)
  then false
  else
    let st := polynomial_step a2 (polynomial_step a1 (0%Z, false)) in
    let num_terms := fst st in
    let is_polynomial := snd st in
    let is_undefined :=
      is_nonpositive_integer b1
      && PrimFloat.leb (PrimFloat.abs b1) (of_int num_terms) in
    if is_undefined
       || negb (is_polynomial
                || PrimFloat.ltb (PrimFloat.abs z) PrimFloat.one
                || (PrimFloat.eqb (PrimFloat.abs z) PrimFloat.one
                    && PrimFloat.ltb (PrimFloat.add a1 a2) b1))
    then false
    else true.

End Converges.

End hypergeometric.

(** ** opencl/copy.hpp

    The OpenCL runtime and [matrix_cl] are outside the sources.  A command
    queue is modelled by the trace of what the host did to it: the
    commands it enqueued, each with its list of prerequisite events and
    its own completion event, and the events the host blocked on.  Device
    failures ([cl::Error]) are not modelled, and neither are the two
    [packed_copy] functions, which launch kernels declared outside the
    sources. *)

Module opencl.
Import err.

Inductive operation :=
| WriteBuffer (buffer : nat)
| ReadBuffer (buffer : nat)
| CopyBuffer (src dst : nat)
| RunKernel (name : string) (src dst : nat).

Record command := Command {
  operation_of : operation;
  wait_list : list nat;
  completion : nat
}.

Inductive action :=
| Enqueue (c : command)
| HostWait (e : nat).

(** [opencl_context.queue()]: the trace so far and the next fresh event. *)
Record queue := Queue {
  trace : list action;
  next_event : nat
}.

(** Modelled from the spec: a device matrix carries its dimensions, its
    buffer and the markers of its pending writes and pending reads. *)
Record matrix_cl := MatrixCL {
  rows : nat;
  cols : nat;
  buffer : nat;
  write_events : list nat;
  read_events : list nat
}.

Definition size (m : matrix_cl) : nat := (rows m * cols m)%nat.

(** Modelled from the spec: the event bookkeeping of [matrix_cl]. *)
Definition clear_read_events (m : matrix_cl) : matrix_cl :=
  MatrixCL (rows m) (cols m) (buffer m) (write_events m) [].
Definition clear_write_events (m : matrix_cl) : matrix_cl :=
  MatrixCL (rows m) (cols m) (buffer m) [] (read_events m).
Definition add_write_event (m : matrix_cl) (e : nat) : matrix_cl :=
  MatrixCL (rows m) (cols m) (buffer m) (write_events m ++ [e]) (read_events m).
Definition add_read_event (m : matrix_cl) (e : nat) : matrix_cl :=
  MatrixCL (rows m) (cols m) (buffer m) (write_events m) (read_events m ++ [e]).

(** The host blocks on each of the events in turn. *)
Definition wait_for (q : queue) (events : list nat) : queue :=
  Queue (trace q ++ map HostWait events) (next_event q).
Definition wait_for_read_events (q : queue) (m : matrix_cl) : queue :=
  wait_for q (read_events m).
Definition wait_for_write_events (q : queue) (m : matrix_cl) : queue :=
  wait_for q (write_events m).

(** [queue.enqueue...Buffer(..., &wait_list, &event)]: the command joins
    the queue and a fresh event is handed back. *)
Definition enqueue (q : queue) (op : operation) (waits : list nat)
    : queue * nat :=
  (Queue (trace q ++ [Enqueue (Command op waits (next_event q))])
         (S (next_event q)),
   next_event q).

(** Modelled from the spec: [check_size_match] is absent from the
    sources; the two sizes must agree, else an invalid-argument error. *)
Definition check_size_match (function name_i : string) (i : nat)
    (name_j : string) (j : nat) : throws unit :=
  if (i =? j)%nat then inr tt else inl (invalid_argument function name_i).

(** [copy(matrix_cl& dst, const Eigen::Matrix<double, R, C>& src)]; of
    the host matrix only the dimensions matter. *)
Definition copy_from_eigen (q : queue) (dst : matrix_cl)
    (src_rows src_cols : nat) : throws (queue * matrix_cl) :=
  bind (check_size_match "copy (Eigen -> (OpenCL))" "src.rows()" src_rows
          "dst.rows()" (rows dst)) (fun _ =>
  bind (check_size_match "copy (Eigen -> (OpenCL))" "src.cols()" src_cols
          "dst.cols()" (cols dst)) (fun _ =>
  if (src_rows * src_cols =? 0)%nat then inr (q, dst)
  else
    let q := wait_for_read_events q dst in
    let dst := clear_read_events dst in
    let q := wait_for_write_events q dst in
    let dst := clear_write_events dst in
    let '(q, copy_event) := enqueue q (WriteBuffer (buffer dst)) [] in
    let dst := add_write_event dst copy_event in
    inr (q, dst))).

(** [copy(Eigen::Matrix<double, R, C>& dst, const matrix_cl& src)]. *)
Definition copy_to_eigen (q : queue) (dst_rows dst_cols : nat)
    (src : matrix_cl) : throws (queue * matrix_cl) :=
  bind (check_size_match "copy ((OpenCL) -> Eigen)" "src.rows()" (rows src)
          "dst.rows()" dst_rows) (fun _ =>
  bind (check_size_match "copy ((OpenCL) -> Eigen)" "src.cols()" (cols src)
          "dst.cols()" dst_cols) (fun _ =>
  if (size src =? 0)%nat then inr (q, src)
  else
    let '(q, copy_event) :=
      enqueue q (ReadBuffer (buffer src)) (write_events src) in
    let q := wait_for q [copy_event] in
    let src := clear_write_events src in
    inr (q, src))).

(** [copy(matrix_cl& dst, const matrix_cl& src)]: the queue, then [dst]
    and [src] after the call. *)
Definition copy_device (q : queue) (dst src : matrix_cl)
    : throws (queue * matrix_cl * matrix_cl) :=
  bind (check_size_match "copy ((OpenCL) -> (OpenCL))" "src.rows()"
          (rows src) "dst.rows()" (rows dst)) (fun _ =>
  bind (check_size_match "copy ((OpenCL) -> (OpenCL))" "src.cols()"
          (cols src) "dst.cols()" (cols dst)) (fun _ =>
  if (size src =? 0)%nat then inr (q, dst, src)
  else
    let mat_events := read_events dst ++ write_events src in
    let '(q, copy_event) :=
      enqueue q (CopyBuffer (buffer src) (buffer dst)) mat_events in
    let dst := add_write_event dst copy_event in
    let src := add_read_event src copy_event in
    inr (q, dst, src))).



(** Modelled from the spec: [matrix_cl(rows, cols)] is not among the
    sources; a new device matrix has a buffer of its own and no pending
    event. *)
Definition new_matrix_cl (buffer rows cols : nat) : matrix_cl :=
  MatrixCL rows cols buffer [] [].

(** Modelled from the spec: the kernel launcher is not among the sources.
    A kernel over an output and an input matrix is enqueued and completes
    independently: it waits for the pending reads and writes of the buffer
    it writes and the pending writes of the buffer it reads, and its event
    becomes a pending write of the former and a pending read of the
    latter.  The result is the queue, the output and the input. *)
Definition run_kernel (q : queue) (name : string) (out inp : matrix_cl)
    : queue * matrix_cl * matrix_cl :=
  let waits := read_events out ++ write_events out ++ write_events inp in
  let '(q, kernel_event) :=
    enqueue q (RunKernel name (buffer inp) (buffer out)) waits in
  (q, add_write_event out kernel_event, add_read_event inp kernel_event).

(** [packed_copy<triangular_view>(const matrix_cl& src)]: the queue and
    [src] after the call; [packed_buffer] is the buffer that the local
    matrix [packed] gets.  The triangular view only selects what the
    kernel copies. *)
Definition packed_copy_to_host (q : queue) (packed_buffer : nat)
    (src : matrix_cl) : queue * matrix_cl :=
  let packed_size := (rows src * (rows src + 1) / 2)%nat in
  if (packed_size =? 0)%nat then (q, src)
  else
    let packed := new_matrix_cl packed_buffer packed_size 1 in
    let '(q, packed, src) := run_kernel q "pack" packed src in
    let mat_events := read_events packed ++ write_events src in
    let '(q, copy_event) :=
      enqueue q (ReadBuffer (buffer packed)) mat_events in
    let q := wait_for q [copy_event] in
    let src := clear_write_events src in
    let src := clear_read_events src in
    (q, src).

(** [packed_copy<triangular_view>(const std::vector<double>& src, int
    rows)]: the queue and the matrix returned; of the host vector only the
    size matters. *)
Definition packed_copy_from_host (q : queue) (dst_buffer packed_buffer : nat)
    (src_size rows : nat) : throws (queue * matrix_cl) :=
  let packed_size := (rows * (rows + 1) / 2)%nat in
  bind (check_size_match "copy (packed std::vector -> OpenCL)" "src.size()"
          src_size "rows * (rows + 1) / 2" packed_size) (fun _ =>
  let dst := new_matrix_cl dst_buffer rows rows in
  if (size dst =? 0)%nat then inr (q, dst)
  else
    let packed := new_matrix_cl packed_buffer packed_size 1 in
    let '(q, packed_event) := enqueue q (WriteBuffer (buffer packed)) [] in
    let packed := add_write_event packed packed_event in
    let '(q, dst, packed) := run_kernel q "unpack" dst packed in
    inr (q, dst)).

(** The ordering discipline in the words of the specification: when the
    command [c] is enqueued after the trace [before], every event of
    [pending] is a prerequisite of [c] or one the host already blocked
    on. *)
Definition waits_for (before : list action) (c : command)
    (pending : list nat) : Prop :=
  forall e, In e pending -> In e (wait_list c) \/ In (HostWait e) before.

End opencl.

(** ** opencl/kernels/matrix_multiply.hpp: [matrix_vector_multiply]

    The kernel text, for one work-item: [gid] is what [get_global_id(0)]
    returns.  The buffers are lists of reals, read and written within
    their bounds ([None] outside them); the [int] variables are integers
    with their 32-bit wrap-around. *)

Module opencl_kernels.

(** The triangularity arguments [lower_upper_A], [lower_upper_B]: the
    kernel compares them with [LOWER] and [UPPER] only, [ENTIRE] stands
    for every other value. *)
Inductive TriangularViewCL := LOWER | UPPER | ENTIRE.

(** An [int] result, wrapped to 32 bits. *)
Definition wrap (x : Z) : Z := ((x + 2 ^ 31) mod 2 ^ 32 - 2 ^ 31)%Z.

(** [buf[k]], read. *)
Definition load (buf : list R) (k : Z) : option R :=
  if (k <? 0)%Z then None else nth_error buf (Z.to_nat k).

(** [buf[k] = x]. *)
Definition store (buf : list R) (k : Z) (x : R) : option (list R) :=
  if (k <? 0)%Z then None
  else if (Z.to_nat k <? length buf)%nat then Some (<[Z.to_nat k := x]> buf)
  else None.

(** [for (int i = start, j = M * start; i < stop; i++, j += M)
       acc += A[j + gid] * B[i];]
    from the state [(i, j, acc)]; the result is [acc] after the loop. *)
Fixpoint for_loop (fuel : nat) (A B : list R) (M gid stop : Z)
    (i j : Z) (acc : R) : option R :=
  match fuel with
  | O => None
  | S fuel' =>
      if (i <? stop)%Z then
        match load A (wrap (j + gid)), load B i with
        | Some a, Some b =>
            for_loop fuel' A B M gid stop (wrap (i + 1)) (wrap (j + M))
                     (acc + a * b)
        | _, _ => None
        end
      else Some acc
  end.

(** The work-item [gid] of [matrix_vector_multiply(A, B, R, M, N,
    lower_upper_A, lower_upper_B)]: the buffer [R] after it.  The loop
    makes at most [stop - start] turns, which is the fuel it gets. *)
Definition matrix_vector_multiply (A B R_ : list R) (M N : Z)
    (lower_upper_A lower_upper_B : TriangularViewCL) (gid : Z)
    : option (list R) :=
  let start := match lower_upper_A with UPPER => gid | _ => 0%Z end in
  let stop :=
    match lower_upper_B with
    | UPPER => 1%Z
    | _ => match lower_upper_A with
           | LOWER => wrap (gid + 1)
           | _ => N
           end
    end in
  match for_loop (S (Z.to_nat (stop - start))) A B M gid stop
                 start (wrap (M * start)) 0 with
  | Some acc => store R_ gid acc
  | None => None
  end.

End opencl_kernels.

(** ** The specification's side: preconditions, direct summation *)

Module Spec.
Import Eigen.

(** The transition operand is square and as large as the number of
    states, each of its rows is a valid probability simplex, and the
    initial-state operand is a valid simplex of that length. *)
Definition preconditions (tolerance : R) (n_states : nat)
    (Gamma : MatrixXd) (rho : list R) : Prop :=
  rows Gamma = cols Gamma /\
  cols Gamma = n_states /\
  (forall i, (i < rows Gamma)%nat ->
     err.is_simplex tolerance (row0 Gamma i) = true) /\
  length rho = n_states /\
  err.is_simplex tolerance rho = true.

(** Entry (i, j) of the transition matrix: the probability of state [j]
    after state [i]. *)
Definition entry (Gamma : MatrixXd) (i j : nat) : R := coeff (col Gamma j) i.

(** Every path of [len] hidden states among [n_states]. *)
Fixpoint state_paths (n_states len : nat) : list (list nat) :=
  match len with
  | O => [[]]
  | S len' =>
      flat_map (fun x => map (cons x) (state_paths n_states len'))
               (seq 0 n_states)
  end.

(** The probability of continuing from state [prev] along [path] while
    making the remaining observations. *)
Fixpoint continuation (Gamma : MatrixXd) (prev : nat) (path : list nat)
    (observations : list (list R)) : R :=
  match path, observations with
  | x :: path', omega :: observations' =>
      entry Gamma prev x * coeff omega x
      * continuation Gamma x path' observations'
  | _, _ => 1
  end.

(** The joint probability of a path of hidden states and the
    observations. *)
Definition joint_density (rho : list R) (Gamma : MatrixXd)
    (observations : list (list R)) (path : list nat) : R :=
  match path, observations with
  | x0 :: path', omega0 :: observations' =>
      coeff rho x0 * coeff omega0 x0
      * continuation Gamma x0 path' observations'
  | _, _ => 0
  end.

(** The log marginal likelihood by unscaled direct summation over the
    full enumeration of the hidden-state paths. *)
Definition direct_summation (log_omegas Gamma : MatrixXd) (rho : list R)
    : R :=
  ln (sum (map (joint_density rho Gamma (columns (array_exp log_omegas)))
               (state_paths (rows log_omegas) (cols log_omegas)))).

(** The forward recursion without rescaling. *)
Fixpoint unscaled (omegas Gamma : MatrixXd) (rho : list R) (n : nat)
    : list R :=
  match n with
  | O => cwiseProduct (col omegas 0) rho
  | S n' =>
      cwiseProduct (col omegas n)
                   (transpose_times Gamma (unscaled omegas Gamma rho n'))
  end.

(** The 2-state chain of the numerical example. *)
Definition example_rho : list R := [0.5; 0.5].
Definition example_Gamma : MatrixXd := Matrix 2 2 [[0.9; 0.2]; [0.1; 0.8]].

(** The errors that name the function and one of its arguments. *)
Definition names_failing_argument (e : err.exception) : Prop :=
  In e [err.domain_error "hmm_marginal_lpdf" "Gamma";
        err.invalid_argument "hmm_marginal_lpdf" "Gamma";
        err.domain_error "hmm_marginal_lpdf" "Gamma[i, ]";
        err.invalid_argument "hmm_marginal_lpdf" "rho";
        err.domain_error "hmm_marginal_lpdf" "rho"].

End Spec.

(** * Proofs *)

(** ** Reading back what was written *)

Section ReadWrite.
Import Eigen.



Lemma coeff_insert_eq (v : list R) (i : nat) (x : R) :
  (i < length v)%nat -> coeff (<[i := x]> v) i = x.
Proof.
  intros Hi. unfold coeff. rewrite nth_lookup.
  now rewrite list_lookup_insert_eq.
Qed.

Lemma coeff_insert_ne (v : list R) (i j : nat) (x : R) :
  i <> j -> coeff (<[i := x]> v) j = coeff v j.
Proof.
  intros Hij. unfold coeff. rewrite !nth_lookup.
  now rewrite list_lookup_insert_ne.
Qed.

Lemma col_set_col_eq (m : MatrixXd) (n : nat) (v : list R) :
  (n < length (columns m))%nat -> col (set_col m n v) n = v.
Proof.
  intros Hn. unfold col, set_col. cbn. rewrite nth_lookup.
  now rewrite list_lookup_insert_eq.
Qed.

Lemma col_set_col_ne (m : MatrixXd) (n j : nat) (v : list R) :
  n <> j -> col (set_col m n v) j = col m j.
Proof.
  intros Hn. unfold col, set_col. cbn. rewrite !nth_lookup.
  now rewrite list_lookup_insert_ne.
Qed.

Lemma columns_set_col_length (m : MatrixXd) (n : nat) (v : list R) :
  length (columns (set_col m n v)) = length (columns m).
Proof. unfold set_col. cbn. apply length_insert. Qed.

End ReadWrite.

(** ** The forward pass of the hidden Markov model *)

Section ForwardPass.
Import Eigen.
Variables Gamma omegas : MatrixXd.

(** The unscaled column the code writes at step [n + 1], before it is
    divided by its largest coefficient. *)
Let next_column (alphas : MatrixXd) (n : nat) : list R :=
  cwiseProduct (col omegas (n + 1)) (transpose_times Gamma (col alphas n)).

Lemma forward_iteration_eq (A : MatrixXd) (L : list R) (n : nat) :
  (n + 1 < length (columns A))%nat ->
  internal.forward_iteration Gamma omegas (A, L) n =
    (set_col (set_col A (n + 1) (next_column A n)) (n + 1)
       (div_scalar (next_column A n) (maxCoeff (next_column A n))),
     <[(n + 1)%nat := ln (maxCoeff (next_column A n)) + coeff L n]> L).
Proof.
  intros Hn. unfold internal.forward_iteration, next_column.
  now rewrite col_set_col_eq.
Qed.

Lemma forward_loop (N m : nat) (A0 : MatrixXd) (L0 : list R) :
  (m < N)%nat -> length (columns A0) = N -> length L0 = N ->
  exists A L,
    fold_left (internal.forward_iteration Gamma omegas) (seq 0 m) (A0, L0)
      = (A, L) /\
    length (columns A) = N /\ length L = N /\
    col A 0 = col A0 0 /\ coeff L 0 = coeff L0 0 /\
    forall n, (n < m)%nat ->
      col A (n + 1)
        = div_scalar (next_column A n) (maxCoeff (next_column A n)) /\
      coeff L (n + 1) = ln (maxCoeff (next_column A n)) + coeff L n.
Proof.
  intros Hm HA HL. induction m as [|m IH].
  - exists A0, L0. cbn. repeat split; trivial; lia.
  - destruct IH as (A & L & Hfold & HAl & HLl & HA0 & HL0 & Hstep); [lia|].
    rewrite seq_S, fold_left_app, Hfold. cbn [fold_left Nat.add].
    rewrite forward_iteration_eq by lia.
    eexists _, _. split; [reflexivity|].
    rewrite !columns_set_col_length, length_insert.
    repeat split; trivial.
    + rewrite !col_set_col_ne by lia. exact HA0.
    + rewrite coeff_insert_ne by lia. exact HL0.
    + destruct (Nat.eq_dec n m) as [->|Hne].
      * rewrite col_set_col_eq by (rewrite columns_set_col_length; lia).
        unfold next_column. now rewrite !col_set_col_ne by lia.
      * unfold next_column. rewrite !col_set_col_ne by lia.
        apply Hstep. lia.
    + destruct (Nat.eq_dec n m) as [->|Hne].
      * rewrite coeff_insert_eq by lia.
        rewrite coeff_insert_ne by lia.
        unfold next_column. now rewrite !col_set_col_ne by lia.
      * rewrite !coeff_insert_ne by lia.
        unfold next_column. rewrite !col_set_col_ne by lia.
        apply Hstep. lia.
Qed.

End ForwardPass.

(** What the forward pass returns and leaves in its in/out arguments. *)
Lemma internal_hmm_marginal_lpdf_spec
    (log_omegas Gamma : Eigen.MatrixXd) (rho : list R)
    (alphas0 : Eigen.MatrixXd) (norms0 : list R) (n_transitions : nat) :
  Eigen.cols log_omegas = S n_transitions ->
  length (Eigen.columns alphas0) = S n_transitions ->
  length norms0 = S n_transitions ->
  exists (lp : R) (alphas : Eigen.MatrixXd) (alpha_log_norms : list R),
    internal.hmm_marginal_lpdf log_omegas Gamma rho alphas0 norms0
      = Some (lp, alphas, alpha_log_norms, Eigen.array_exp log_omegas) /\
    let omegas := Eigen.array_exp log_omegas in
    let first := Eigen.cwiseProduct (Eigen.col omegas 0) rho in
    Eigen.col alphas 0 = Eigen.div_scalar first (Eigen.maxCoeff first) /\
    Eigen.coeff alpha_log_norms 0 = ln (Eigen.maxCoeff first) /\
    (forall n, (n < n_transitions)%nat ->
       let unscaled :=
         Eigen.cwiseProduct (Eigen.col omegas (n + 1))
           (Eigen.transpose_times Gamma (Eigen.col alphas n)) in
       Eigen.col alphas (n + 1)
         = Eigen.div_scalar unscaled (Eigen.maxCoeff unscaled) /\
       Eigen.coeff alpha_log_norms (n + 1)
         = ln (Eigen.maxCoeff unscaled) + Eigen.coeff alpha_log_norms n) /\
    lp = ln (Eigen.sum (Eigen.col alphas n_transitions))
         + Eigen.coeff alpha_log_norms n_transitions.
Proof.
  intros Hcols HA HL. unfold internal.hmm_marginal_lpdf. rewrite Hcols.
  set (omegas := Eigen.array_exp log_omegas).
  set (first := Eigen.cwiseProduct (Eigen.col omegas 0) rho).
  rewrite col_set_col_eq by lia. fold first.
  destruct (forward_loop Gamma omegas (S n_transitions) n_transitions
              (Eigen.set_col (Eigen.set_col alphas0 0 first) 0
                 (Eigen.div_scalar first (Eigen.maxCoeff first)))
              (<[0%nat := ln (Eigen.maxCoeff first)]> norms0))
    as (A & L & Hfold & _ & _ & HA0 & HL0 & Hstep).
  - lia.
  - now rewrite !columns_set_col_length.
  - now rewrite length_insert.
  - rewrite Hfold. eexists _, A, L. split; [reflexivity|]. cbn zeta.
    repeat split.
    + rewrite HA0. apply col_set_col_eq. rewrite columns_set_col_length. lia.
    + rewrite HL0. apply coeff_insert_eq. lia.
    + apply Hstep. assumption.
    + apply Hstep. assumption.
Qed.

(** C1.  On a log-observation matrix with at least one column, and with
    [alphas] and [alpha_log_norms] sized for it, the forward pass returns;
    [omegas] is the coefficientwise exponential of the input; column 0 of
    [alphas] is [omegas.col(0)] times [rho] coefficientwise, every later
    column [n + 1] is [omegas.col(n + 1)] times [Gamma^T * alphas.col(n)];
    each column is divided by its largest coefficient, whose logarithm is
    added to the previous log-normaliser; the result is the logarithm of the
    sum of the last column plus the last log-normaliser. *)
Theorem hmm_forward_pass_recursion
    (log_omegas Gamma : Eigen.MatrixXd) (rho : list R)
    (alphas0 : Eigen.MatrixXd) (norms0 : list R) (n_transitions : nat) :
  Eigen.cols log_omegas = S n_transitions ->
  length (Eigen.columns alphas0) = S n_transitions ->
  length norms0 = S n_transitions ->
  exists (lp : R) (alphas : Eigen.MatrixXd) (alpha_log_norms : list R),
    internal.hmm_marginal_lpdf log_omegas Gamma rho alphas0 norms0
      = Some (lp, alphas, alpha_log_norms, Eigen.array_exp log_omegas) /\
    let omegas := Eigen.array_exp log_omegas in
    let first := Eigen.cwiseProduct (Eigen.col omegas 0) rho in
    Eigen.col alphas 0 = Eigen.div_scalar first (Eigen.maxCoeff first) /\
    Eigen.coeff alpha_log_norms 0 = ln (Eigen.maxCoeff first) /\
    (forall n, (n < n_transitions)%nat ->
       let unscaled :=
         Eigen.cwiseProduct (Eigen.col omegas (n + 1))
           (Eigen.transpose_times Gamma (Eigen.col alphas n)) in
       Eigen.col alphas (n + 1)
         = Eigen.div_scalar unscaled (Eigen.maxCoeff unscaled) /\
       Eigen.coeff alpha_log_norms (n + 1)
         = ln (Eigen.maxCoeff unscaled) + Eigen.coeff alpha_log_norms n) /\
    lp = ln (Eigen.sum (Eigen.col alphas n_transitions))
         + Eigen.coeff alpha_log_norms n_transitions.
Proof.
  apply internal_hmm_marginal_lpdf_spec.
Qed.

(** ** Finite sums over index ranges *)

Section Sums.
Import Eigen.

Lemma sum_app (u v : list R) : sum (u ++ v) = sum u + sum v.
Proof.
  unfold sum. induction u as [|x u IH]; cbn; [lra | rewrite IH; lra].
Qed.

Lemma big_0 (f : nat -> R) : big 0 f = 0.
Proof. reflexivity. Qed.

Lemma big_S (n : nat) (f : nat -> R) : big (S n) f = big n f + f n.
Proof. unfold big. rewrite seq_S, map_app, sum_app. cbn. lra. Qed.

Lemma big_shift (n : nat) (f : nat -> R) :
  big (S n) f = f 0%nat + big n (fun i => f (S i)).
Proof.
  unfold big. cbn [seq map sum fold_right]. f_equal.
  rewrite <- seq_shift, map_map. reflexivity.
Qed.

Lemma big_ext (n : nat) (f g : nat -> R) :
  (forall i, (i < n)%nat -> f i = g i) -> big n f = big n g.
Proof.
  induction n as [|n IH]; intros H; [reflexivity|].
  rewrite !big_S, IH, H by (intros; try apply H; lia). reflexivity.
Qed.

Lemma big_zero (n : nat) : big n (fun _ => 0) = 0.
Proof. induction n as [|n IH]; [reflexivity | rewrite big_S, IH; lra]. Qed.

Lemma big_scale (n : nat) (c : R) (f : nat -> R) :
  big n (fun i => c * f i) = c * big n f.
Proof.
  induction n as [|n IH]; [rewrite !big_0; lra | rewrite !big_S, IH; lra].
Qed.

Lemma big_scale_r (n : nat) (c : R) (f : nat -> R) :
  big n (fun i => f i * c) = big n f * c.
Proof.
  induction n as [|n IH]; [rewrite !big_0; lra | rewrite !big_S, IH; lra].
Qed.

Lemma big_plus (n : nat) (f g : nat -> R) :
  big n (fun i => f i + g i) = big n f + big n g.
Proof.
  induction n as [|n IH]; [rewrite !big_0; lra | rewrite !big_S, IH; lra].
Qed.

Lemma big_swap (n m : nat) (f : nat -> nat -> R) :
  big n (fun i => big m (fun j => f i j))
    = big m (fun j => big n (fun i => f i j)).
Proof.
  induction n as [|n IH].
  - rewrite big_0. symmetry. apply big_zero.
  - rewrite big_S, IH, <- big_plus. apply big_ext. intros j _.
    now rewrite big_S.
Qed.

Lemma big_nonneg (n : nat) (f : nat -> R) :
  (forall i, (i < n)%nat -> 0 <= f i) -> 0 <= big n f.
Proof.
  induction n as [|n IH]; intros H; [rewrite big_0; lra|].
  rewrite big_S. assert (0 <= big n f) by (apply IH; intros; apply H; lia).
  assert (0 <= f n) by (apply H; lia). lra.
Qed.

Lemma big_ge_term (n : nat) (f : nat -> R) (k : nat) :
  (forall i, (i < n)%nat -> 0 <= f i) -> (k < n)%nat -> f k <= big n f.
Proof.
  induction n as [|n IH]; intros H Hk; [lia|].
  rewrite big_S.
  assert (0 <= big n f) by (apply big_nonneg; intros; apply H; lia).
  assert (0 <= f n) by (apply H; lia).
  destruct (Nat.eq_dec k n) as [->|Hne]; [lra|].
  assert (f k <= big n f) by (apply IH; [intros; apply H|]; lia). lra.
Qed.

Lemma big_pos_term (n : nat) (f : nat -> R) :
  0 < big n f -> exists k, (k < n)%nat /\ 0 < f k.
Proof.
  induction n as [|n IH]; intros H; [rewrite big_0 in H; lra|].
  rewrite big_S in H. destruct (Rlt_dec 0 (f n)) as [Hp|Hn].
  - exists n. split; [lia | exact Hp].
  - destruct IH as (k & Hk & Hfk); [lra|]. exists k. split; [lia | exact Hfk].
Qed.

Lemma sum_big (v : list R) : sum v = big (length v) (coeff v).
Proof.
  induction v as [|x v IH]; [reflexivity|].
  cbn [length]. rewrite big_shift. cbn [sum fold_right]. fold (sum v).
  rewrite IH. reflexivity.
Qed.

Lemma sum_map_seq (n : nat) (f : nat -> R) : sum (map f (seq 0 n)) = big n f.
Proof. reflexivity. Qed.

Lemma sum_map_flat_map {A B : Type} (f : B -> R) (g : A -> list B)
    (l : list A) :
  sum (map f (flat_map g l)) = sum (map (fun a => sum (map f (g a))) l).
Proof.
  induction l as [|a l IH]; [reflexivity|].
  cbn [flat_map map]. rewrite map_app, sum_app, IH. reflexivity.
Qed.


Lemma sum_map_scale {A : Type} (c : R) (f : A -> R) (l : list A) :
  sum (map (fun a => c * f a) l) = c * sum (map f l).
Proof.
  unfold sum. induction l as [|a l IH]; cbn; [lra | rewrite IH; lra].
Qed.

End Sums.

(** ** Adjoint updates on the tape *)

Section Tape.
Import rev.

Lemma bump_eq (p : nat) (d : R) : bump p p d = d.
Proof. unfold bump. now rewrite Nat.eqb_refl. Qed.

Lemma bump_ne (p vi : nat) (d : R) : p <> vi -> bump p vi d = 0.
Proof. intros H. unfold bump. apply Nat.eqb_neq in H. now rewrite H. Qed.

Lemma val_at_add_adj (s : list vari) (vi : nat) (d : R) (p : nat) :
  val_at (add_adj s vi d) p = val_at s p.
Proof.
  unfold val_at, add_adj. rewrite list_lookup_alter.
  case_decide; subst; destruct (s !! p); reflexivity.
Qed.

Lemma val_at_sub_adj (s : list vari) (vi : nat) (d : R) (p : nat) :
  val_at (sub_adj s vi d) p = val_at s p.
Proof.
  unfold val_at, sub_adj. rewrite list_lookup_alter.
  case_decide; subst; destruct (s !! p); reflexivity.
Qed.

Lemma val_at_set_adj (s : list vari) (vi : nat) (d : R) (p : nat) :
  val_at (set_adj s vi d) p = val_at s p.
Proof.
  unfold val_at, set_adj. rewrite list_lookup_alter.
  case_decide; subst; destruct (s !! p); reflexivity.
Qed.

Lemma adj_at_add_adj (s : list vari) (vi : nat) (d : R) (p : nat) :
  (vi < length s)%nat ->
  adj_at (add_adj s vi d) p = adj_at s p + bump p vi d.
Proof.
  intros Hvi. unfold adj_at, add_adj, bump. rewrite list_lookup_alter.
  destruct (lookup_lt_is_Some_2 s vi Hvi) as [v Hv].
  case_decide as Hd.
  - subst p. rewrite Hv, Nat.eqb_refl. reflexivity.
  - apply Nat.eqb_neq in Hd. rewrite Nat.eqb_sym, Hd.
    destruct (s !! p); cbn; lra.
Qed.

Lemma adj_at_sub_adj (s : list vari) (vi : nat) (d : R) (p : nat) :
  (vi < length s)%nat ->
  adj_at (sub_adj s vi d) p = adj_at s p - bump p vi d.
Proof.
  intros Hvi. unfold adj_at, sub_adj, bump. rewrite list_lookup_alter.
  destruct (lookup_lt_is_Some_2 s vi Hvi) as [v Hv].
  case_decide as Hd.
  - subst p. rewrite Hv, Nat.eqb_refl. reflexivity.
  - apply Nat.eqb_neq in Hd. rewrite Nat.eqb_sym, Hd.
    destruct (s !! p); cbn; lra.
Qed.

Lemma adj_at_add_adj_ne (s : list vari) (vi : nat) (d : R) (p : nat) :
  p <> vi -> adj_at (add_adj s vi d) p = adj_at s p.
Proof.
  intros Hne. unfold adj_at, add_adj.
  now rewrite list_lookup_alter_ne by congruence.
Qed.

Lemma adj_at_sub_adj_ne (s : list vari) (vi : nat) (d : R) (p : nat) :
  p <> vi -> adj_at (sub_adj s vi d) p = adj_at s p.
Proof.
  intros Hne. unfold adj_at, sub_adj.
  now rewrite list_lookup_alter_ne by congruence.
Qed.

Lemma adj_at_set_adj_eq (s : list vari) (vi : nat) (d : R) :
  (vi < length s)%nat -> adj_at (set_adj s vi d) vi = d.
Proof.
  intros Hvi. unfold adj_at, set_adj. rewrite list_lookup_alter_eq.
  destruct (lookup_lt_is_Some_2 s vi Hvi) as [v ->]. reflexivity.
Qed.

Lemma adj_at_set_adj_ne (s : list vari) (vi : nat) (d : R) (p : nat) :
  p <> vi -> adj_at (set_adj s vi d) p = adj_at s p.
Proof.
  intros Hne. unfold adj_at, set_adj.
  now rewrite list_lookup_alter_ne by congruence.
Qed.

Lemma class_set_adj (s : list vari) (vi : nat) (d : R) (p : nat) :
  class_ <$> set_adj s vi d !! p = class_ <$> s !! p.
Proof.
  unfold set_adj. rewrite list_lookup_alter.
  case_decide; subst; destruct (s !! p); reflexivity.
Qed.

Lemma length_add_adj (s : list vari) (vi : nat) (d : R) :
  length (add_adj s vi d) = length s.
Proof. apply length_alter. Qed.

Lemma length_sub_adj (s : list vari) (vi : nat) (d : R) :
  length (sub_adj s vi d) = length s.
Proof. apply length_alter. Qed.

Lemma length_set_adj (s : list vari) (vi : nat) (d : R) :
  length (set_adj s vi d) = length s.
Proof. apply length_alter. Qed.

(** A freshly pushed node sits at the old length, with adjoint 0. *)
Lemma lookup_push (s : list vari) (x : R) (c : vari_class) :
  fst (push s x c) !! snd (push s x c) = Some (Vari x 0 c).
Proof. cbn. apply list_lookup_middle. reflexivity. Qed.

Lemma lookup_push_old (s : list vari) (x : R) (c : vari_class) (p : nat) :
  (p < length s)%nat -> fst (push s x c) !! p = s !! p.
Proof. intros Hp. cbn. now apply lookup_app_l. Qed.

End Tape.

(** ** Scalar squared distance *)

Section ScalarSquaredDistance.
Import rev.

Lemma val_at_push_old (s : list vari) (x : R) (c : vari_class) (p : nat) :
  (p < length s)%nat -> val_at (s ++ [Vari x 0 c]) p = val_at s p.
Proof. intros Hp. unfold val_at. now rewrite lookup_app_l. Qed.

Lemma val_at_push_new (s : list vari) (x : R) (c : vari_class) :
  val_at (s ++ [Vari x 0 c]) (length s) = x.
Proof. unfold val_at. now rewrite list_lookup_middle. Qed.

Lemma adj_at_push (s : list vari) (x : R) (c : vari_class) (p : nat) :
  adj_at (s ++ [Vari x 0 c]) p = adj_at s p.
Proof.
  unfold adj_at. destruct (Nat.lt_ge_cases p (length s)) as [Hp|Hp].
  - now rewrite lookup_app_l.
  - rewrite (lookup_ge_None_2 s p) by lia.
    destruct (Nat.eq_dec p (length s)) as [->|Hne].
    + now rewrite list_lookup_middle.
    + rewrite lookup_ge_None_2; [reflexivity|].
      rewrite length_app. cbn. lia.
Qed.

Lemma chain_scal_vv (t : list vari) (self avi bvi : nat) (x seed : R) :
  t !! self = Some (Vari x seed (scal_squared_distance_vv_vari avi bvi)) ->
  (avi < length t)%nat -> (bvi < length t)%nat ->
  avi <> self -> bvi <> self ->
  let d := seed * 2 * (val_at t avi - val_at t bvi) in
  (forall p, val_at (chain t self) p = val_at t p) /\
  (forall p, adj_at (chain t self) p = adj_at t p + bump p avi d - bump p bvi d).
Proof.
  intros Hself Ha Hb Hna Hnb d. unfold chain. rewrite Hself. cbn [class_].
  assert (Hadj : adj_at t self = seed) by (unfold adj_at; now rewrite Hself).
  split; intros p.
  - now rewrite val_at_sub_adj, val_at_add_adj.
  - rewrite adj_at_sub_adj by (now rewrite length_add_adj).
    rewrite !adj_at_add_adj by assumption.
    rewrite (bump_ne self avi) by congruence.
    rewrite Hadj, Rplus_0_r. reflexivity.
Qed.

End ScalarSquaredDistance.

(** C5.  The scalar squared distance of two differentiable operands has
    the forward value (a-b)² and a zero adjoint; its propagate step leaves
    every value alone, adds [adjoint * 2 * (a - b)] to the adjoint of [a]
    and subtracts the same from the adjoint of [b].  For a = 3 and b = 1
    the value is 4, and the reverse sweep seeded with 1 leaves 4 on [a] and
    -4 on [b]. *)
Theorem scal_squared_distance_vv_contract :
  (forall (s : list rev.vari) (a b : rev.var) (seed : R),
     (rev.vi_ a < length s)%nat -> (rev.vi_ b < length s)%nat ->
     let r := squared_distance.scal_vv s a b in
     let c := rev.vi_ (snd r) in
     let d := seed * 2 * (rev.val_at s (rev.vi_ a) - rev.val_at s (rev.vi_ b)) in
     let s2 := rev.chain (rev.set_adj (fst r) c seed) c in
     rev.val_at (fst r) c
       = (rev.val_at s (rev.vi_ a) - rev.val_at s (rev.vi_ b)) ^ 2 /\
     rev.adj_at (fst r) c = 0 /\
     (forall p, rev.val_at s2 p = rev.val_at (fst r) p) /\
     (forall p, p <> c ->
        rev.adj_at s2 p
          = rev.adj_at s p + rev.bump p (rev.vi_ a) d
                           - rev.bump p (rev.vi_ b) d)) /\
  (let r1 := rev.new_var [] 3 in
   let r2 := rev.new_var (fst r1) 1 in
   let r3 := squared_distance.scal_vv (fst r2) (snd r1) (snd r2) in
   let swept := rev.grad (fst r3) (rev.vi_ (snd r3)) in
   rev.val_at (fst r3) (rev.vi_ (snd r3)) = 4 /\
   rev.adj_at swept (rev.vi_ (snd r1)) = 4 /\
   rev.adj_at swept (rev.vi_ (snd r2)) = -4).
Proof.
  split.
  - intros s [a] [b] seed Ha Hb. cbn in Ha, Hb. cbn zeta.
    unfold squared_distance.scal_vv, rev.push. cbn [fst snd rev.vi_].
    set (node := rev.Vari _ 0 _).
    set (t := rev.set_adj (s ++ [node]) (length s) seed).
    assert (Hlen : length (s ++ [node]) = S (length s))
      by (rewrite length_app; cbn; lia).
    assert (Ht : t !! length s
                 = Some (rev.Vari (rev.val_ node) seed
                           (rev.scal_squared_distance_vv_vari a b))).
    { unfold t, rev.set_adj. rewrite list_lookup_alter_eq.
      rewrite list_lookup_middle by reflexivity. reflexivity. }
    assert (Hv : forall p, (p < length s)%nat -> rev.val_at t p = rev.val_at s p).
    { intros p Hp. unfold t. rewrite val_at_set_adj.
      now apply val_at_push_old. }
    destruct (chain_scal_vv t (length s) a b _ seed Ht) as [Hval Hadj];
      try (unfold t; rewrite length_set_adj, Hlen; lia); try lia.
    repeat split.
    + unfold node. rewrite val_at_push_new.
      unfold squared_distance.prim. ring.
    + unfold rev.adj_at. now rewrite list_lookup_middle.
    + intros p. rewrite Hval. unfold t. apply val_at_set_adj.
    + intros p Hp. rewrite Hadj, !Hv by assumption.
      unfold t. rewrite adj_at_set_adj_ne by assumption.
      unfold node. now rewrite adj_at_push.
  - cbn. unfold rev.grad. cbn.
    unfold rev.adj_at, rev.val_at, squared_distance.prim. cbn.
    repeat split; lra.
Qed.

(** ** The backward recursion of the adjoint method *)

Section BackwardPass.
Import Eigen.
Variables Gamma_dbl omegas : MatrixXd.
Variable alpha_log_norms : list R.
Variable norm_norm : R.
Variable N : nat.

Let step := hmm.backward_iteration Gamma_dbl omegas alpha_log_norms norm_norm.





End BackwardPass.



(** ** The precondition checks of [hmm_marginal_lpdf] *)

Section Preconditions.
Import Eigen err.
Variable tol : R.

Lemma nth_map_seq {A : Type} (f : nat -> A) (r i : nat) (d : A) :
  (i < r)%nat -> nth i (map f (seq 0 r)) d = f i.
Proof.
  intros Hi.
  rewrite (nth_indep _ d (f O)) by (rewrite length_map, length_seq; lia).
  rewrite map_nth, seq_nth by lia. reflexivity.
Qed.

Lemma check_consistent_size_eq (function name : string) (v : list R)
    (expected : nat) :
  check_consistent_size function name v expected
  = if (length v =? expected)%nat then inr tt
    else inl (invalid_argument function name).
Proof. reflexivity. Qed.

(** The loop over the rows stops at the first row that is no simplex. *)
Lemma row_checks_spec (function name : string) (vs : nat -> list R)
    (l : list nat) (acc : throws unit) :
  fold_left
    (fun (acc : throws unit) (i : nat) =>
       bind acc (fun _ => check_simplex tol function name (vs i))) l acc
  = match acc with
    | inl e => inl e
    | inr _ =>
        if forallb (fun i => is_simplex tol (vs i)) l then inr tt
        else inl (domain_error function name)
    end.
Proof.
  revert acc. induction l as [|i l IH]; intros acc.
  - cbn. destruct acc as [e|[]]; reflexivity.
  - cbn [fold_left forallb]. rewrite IH.
    destruct acc as [e|[]]; [reflexivity|]. cbn [bind].
    unfold check_simplex. destruct (is_simplex tol (vs i)); reflexivity.
Qed.

Lemma all_rows_simplex (Gamma : MatrixXd) :
  rows Gamma = cols Gamma ->
  forallb (fun i => is_simplex tol (hmm.col1 (transpose Gamma) (i + 1)))
          (seq 0 (cols Gamma)) = true
  <-> (forall i, (i < rows Gamma)%nat ->
         is_simplex tol (row0 Gamma i) = true).
Proof.
  intros Hsq. rewrite forallb_forall. rewrite <- Hsq.
  split; intros H i Hi.
  - specialize (H i). rewrite in_seq in H. specialize (H ltac:(lia)).
    unfold hmm.col1, col, transpose in H. cbn [columns] in H.
    replace (i + 1 - 1)%nat with i in H by lia.
    now rewrite nth_map_seq in H.
  - apply in_seq in Hi.
    unfold hmm.col1, col, transpose. cbn [columns].
    replace (i + 1 - 1)%nat with i by lia.
    rewrite nth_map_seq by lia. apply H. lia.
Qed.

(** The checks pass exactly on the inputs that meet the preconditions,
    and the first failing check decides the exception. *)
Lemma checks_spec (log_omegas Gamma : MatrixXd) (rho : list R) :
  length (columns Gamma) = cols Gamma ->
  (Spec.preconditions tol (rows log_omegas) Gamma rho /\
   hmm.checks tol log_omegas Gamma rho = inr tt) \/
  (~ Spec.preconditions tol (rows log_omegas) Gamma rho /\
   exists e, hmm.checks tol log_omegas Gamma rho = inl e /\
             Spec.names_failing_argument e).
Proof.
  intros Hwf. unfold hmm.checks, Spec.preconditions, Spec.names_failing_argument.
  unfold check_square.
  destruct (rows Gamma =? cols Gamma)%nat eqn:Hsq; cbn [bind].
  2:{ right. apply Nat.eqb_neq in Hsq. split; [tauto|].
      eexists. split; [reflexivity|]. cbn. tauto. }
  apply Nat.eqb_eq in Hsq.
  assert (Hrow : length (hmm.row Gamma 1) = cols Gamma).
  { unfold hmm.row, row0. now rewrite length_map. }
  rewrite (check_consistent_size_eq _ _ (hmm.row Gamma 1)), Hrow.
  destruct (cols Gamma =? rows log_omegas)%nat eqn:Hsz; cbn [bind].
  2:{ right. apply Nat.eqb_neq in Hsz. split; [tauto|].
      eexists. split; [reflexivity|]. cbn. tauto. }
  apply Nat.eqb_eq in Hsz.
  rewrite row_checks_spec.
  destruct (forallb _ (seq 0 (cols Gamma))) eqn:Hrows; cbn [bind].
  2:{ right. split.
      - intros (_ & _ & H & _).
        pose proof (proj2 (all_rows_simplex Gamma Hsq) H). congruence.
      - eexists. split; [reflexivity|]. cbn. tauto. }
  pose proof (proj1 (all_rows_simplex Gamma Hsq) Hrows) as Hrows'.
  rewrite check_consistent_size_eq.
  destruct (length rho =? rows log_omegas)%nat eqn:Hrho; cbn [bind].
  2:{ right. apply Nat.eqb_neq in Hrho. split; [tauto|].
      eexists. split; [reflexivity|]. cbn. tauto. }
  apply Nat.eqb_eq in Hrho.
  unfold check_simplex.
  destruct (is_simplex tol rho) eqn:Hs.
  - left. tauto.
  - right. split; [intros (_ & _ & _ & _ & H); congruence|].
    eexists. split; [reflexivity|]. cbn. tauto.
Qed.

End Preconditions.

Lemma forallb_agree {A : Type} (f g : A -> bool) (l : list A) :
  (forall x, In x l -> f x = g x) -> forallb f l = forallb g l.
Proof.
  induction l as [|a l IH]; intros H; [reflexivity|].
  cbn [forallb]. rewrite (H a) by now left.
  rewrite IH; [reflexivity|]. intros x Hx. apply H. now right.
Qed.

(** The outcome of the checks, in their order: the first one that fails
    decides the exception. *)
Lemma checks_outcome (tol : R) (log_omegas Gamma : Eigen.MatrixXd)
    (rho : list R) :
  length (Eigen.columns Gamma) = Eigen.cols Gamma ->
  hmm.checks tol log_omegas Gamma rho
  = if negb (Eigen.rows Gamma =? Eigen.cols Gamma)%nat
    then inl (err.domain_error "hmm_marginal_lpdf" "Gamma")
    else if negb (Eigen.cols Gamma =? Eigen.rows log_omegas)%nat
    then inl (err.invalid_argument "hmm_marginal_lpdf" "Gamma")
    else if negb (forallb (fun i => err.is_simplex tol (Eigen.row0 Gamma i))
                    (seq 0 (Eigen.rows Gamma)))
    then inl (err.domain_error "hmm_marginal_lpdf" "Gamma[i, ]")
    else if negb (length rho =? Eigen.rows log_omegas)%nat
    then inl (err.invalid_argument "hmm_marginal_lpdf" "rho")
    else if negb (err.is_simplex tol rho)
    then inl (err.domain_error "hmm_marginal_lpdf" "rho")
    else inr tt.
Proof.
  intros Hwf. unfold hmm.checks, err.check_square.
  destruct (Eigen.rows Gamma =? Eigen.cols Gamma)%nat eqn:Hsq;
    cbn [err.bind negb]; [|reflexivity].
  apply Nat.eqb_eq in Hsq.
  assert (Hrow : length (hmm.row Gamma 1) = Eigen.cols Gamma).
  { unfold hmm.row, Eigen.row0. now rewrite length_map. }
  rewrite (check_consistent_size_eq _ _ (hmm.row Gamma 1)), Hrow.
  destruct (Eigen.cols Gamma =? Eigen.rows log_omegas)%nat eqn:Hsz;
    cbn [err.bind negb]; [|reflexivity].
  rewrite row_checks_spec.
  assert (Hrows :
    forallb (fun i => err.is_simplex tol
                        (hmm.col1 (Eigen.transpose Gamma) (i + 1)))
            (seq 0 (Eigen.cols Gamma))
    = forallb (fun i => err.is_simplex tol (Eigen.row0 Gamma i))
              (seq 0 (Eigen.rows Gamma))).
  { rewrite <- Hsq. apply forallb_agree. intros i Hi. apply in_seq in Hi.
    unfold hmm.col1, Eigen.col, Eigen.transpose. cbn [Eigen.columns].
    replace (i + 1 - 1)%nat with i by lia.
    now rewrite nth_map_seq by lia. }
  rewrite Hrows.
  destruct (forallb _ (seq 0 (Eigen.rows Gamma))); cbn [err.bind negb];
    [|reflexivity].
  rewrite check_consistent_size_eq.
  destruct (length rho =? Eigen.rows log_omegas)%nat; cbn [err.bind negb];
    [|reflexivity].
  unfold err.check_simplex. destruct (err.is_simplex tol rho); reflexivity.
Qed.

(** C3.  [hmm_marginal_lpdf] runs its checks first, and the first
    precondition that fails decides the error: a transition operand that
    is not square is a domain error naming [Gamma]; a square one of the
    wrong size is an invalid-argument error naming [Gamma]; a row of it
    that is no simplex is a domain error naming [Gamma[i, ]]; an initial
    vector of the wrong length is an invalid-argument error naming [rho];
    one that is no simplex is a domain error naming [rho].  In each case
    the stack of nodes is the one the function was called with: no forward
    pass ran and no node was allocated.  On an input that meets the
    preconditions no exception is thrown. *)
Theorem hmm_marginal_lpdf_checks_first
    (tol : R) (s : list rev.vari)
    (log_omegas Gamma : hmm.matrix_operand) (rho : hmm.vector_operand) :
  let log_omegas_dbl := hmm.value_of_rec_m s log_omegas in
  let Gamma_dbl := hmm.value_of_rec_m s Gamma in
  let rho_dbl := hmm.value_of_rec_v s rho in
  let n_states := Eigen.rows log_omegas_dbl in
  let throws (e : err.exception) :=
    hmm_marginal_lpdf tol s log_omegas Gamma rho = Some (s, inl e) in
  let rows_are_simplexes :=
    forall i, (i < Eigen.rows Gamma_dbl)%nat ->
      err.is_simplex tol (Eigen.row0 Gamma_dbl i) = true in
  length (Eigen.columns Gamma_dbl) = Eigen.cols Gamma_dbl ->
  (Eigen.rows Gamma_dbl <> Eigen.cols Gamma_dbl ->
   throws (err.domain_error "hmm_marginal_lpdf" "Gamma")) /\
  (Eigen.rows Gamma_dbl = Eigen.cols Gamma_dbl ->
   Eigen.cols Gamma_dbl <> n_states ->
   throws (err.invalid_argument "hmm_marginal_lpdf" "Gamma")) /\
  (Eigen.rows Gamma_dbl = Eigen.cols Gamma_dbl ->
   Eigen.cols Gamma_dbl = n_states ->
   forall i, (i < Eigen.rows Gamma_dbl)%nat ->
     err.is_simplex tol (Eigen.row0 Gamma_dbl i) = false ->
     throws (err.domain_error "hmm_marginal_lpdf" "Gamma[i, ]")) /\
  (Eigen.rows Gamma_dbl = Eigen.cols Gamma_dbl ->
   Eigen.cols Gamma_dbl = n_states -> rows_are_simplexes ->
   length rho_dbl <> n_states ->
   throws (err.invalid_argument "hmm_marginal_lpdf" "rho")) /\
  (Eigen.rows Gamma_dbl = Eigen.cols Gamma_dbl ->
   Eigen.cols Gamma_dbl = n_states -> rows_are_simplexes ->
   length rho_dbl = n_states -> err.is_simplex tol rho_dbl = false ->
   throws (err.domain_error "hmm_marginal_lpdf" "rho")) /\
  (Spec.preconditions tol n_states Gamma_dbl rho_dbl ->
   forall s' e,
     hmm_marginal_lpdf tol s log_omegas Gamma rho <> Some (s', inl e)).
Proof.
  cbn zeta. intros Hwf.
  set (lo := hmm.value_of_rec_m s log_omegas).
  set (G := hmm.value_of_rec_m s Gamma) in *.
  set (r := hmm.value_of_rec_v s rho).
  pose proof (checks_outcome tol lo G r Hwf) as Hout.
  assert (Hthrow : forall e, hmm.checks tol lo G r = inl e ->
            hmm_marginal_lpdf tol s log_omegas Gamma rho = Some (s, inl e)).
  { intros e He. unfold hmm_marginal_lpdf. fold lo G r. now rewrite He. }
  assert (Hall : (forall i, (i < Eigen.rows G)%nat ->
                    err.is_simplex tol (Eigen.row0 G i) = true) ->
                 forallb (fun i => err.is_simplex tol (Eigen.row0 G i))
                   (seq 0 (Eigen.rows G)) = true).
  { intros H. apply forallb_forall. intros i Hi. apply in_seq in Hi.
    apply H. lia. }
  repeat apply conj.
  - intros Hsq. apply Hthrow. rewrite Hout.
    apply Nat.eqb_neq in Hsq. now rewrite Hsq.
  - intros Hsq Hsz. apply Hthrow. rewrite Hout.
    apply Nat.eqb_eq in Hsq. apply Nat.eqb_neq in Hsz. now rewrite Hsq, Hsz.
  - intros Hsq Hsz i Hi Hbad. apply Hthrow. rewrite Hout.
    apply Nat.eqb_eq in Hsq. apply Nat.eqb_eq in Hsz. rewrite Hsq, Hsz.
    cbn [negb].
    destruct (forallb _ (seq 0 (Eigen.rows G))) eqn:Hrows; [|reflexivity].
    rewrite forallb_forall in Hrows.
    rewrite (Hrows i) in Hbad; [discriminate|]. apply in_seq. lia.
  - intros Hsq Hsz Hrows Hlen. apply Hthrow. rewrite Hout.
    apply Nat.eqb_eq in Hsq. apply Nat.eqb_eq in Hsz.
    apply Nat.eqb_neq in Hlen. now rewrite Hsq, Hsz, (Hall Hrows), Hlen.
  - intros Hsq Hsz Hrows Hlen Hbad. apply Hthrow. rewrite Hout.
    apply Nat.eqb_eq in Hsq. apply Nat.eqb_eq in Hsz.
    apply Nat.eqb_eq in Hlen.
    now rewrite Hsq, Hsz, (Hall Hrows), Hlen, Hbad.
  - intros (Hsq & Hsz & Hrows & Hlen & Hrho) s' e.
    unfold hmm_marginal_lpdf. fold lo G r. rewrite Hout.
    apply Nat.eqb_eq in Hsq. apply Nat.eqb_eq in Hsz.
    apply Nat.eqb_eq in Hlen.
    rewrite Hsq, Hsz, (Hall Hrows), Hlen, Hrho. cbn [negb].
    destruct (Eigen.cols lo); [congruence|].
    destruct (internal.hmm_marginal_lpdf _ _ _ _ _) as [[[[lp A] L] W]|];
      [|congruence].
    destruct (hmm.build _ _ _ _ _ _). congruence.
Qed.

(** ** Constant operands *)

Section ConstantOperands.
Import rev.

Lemma vd_chain_loop_frame (self : nat) (v1_ : list nat) (v2_ : list R)
    (l : list nat) (s : list vari) (p : nat) :
  length (fold_left (vd_chain_iteration self v1_ v2_) l s) = length s /\
  val_at (fold_left (vd_chain_iteration self v1_ v2_) l s) p = val_at s p /\
  ((forall i, In i l -> nth i v1_ O <> p) ->
   adj_at (fold_left (vd_chain_iteration self v1_ v2_) l s) p = adj_at s p).
Proof.
  revert s. induction l as [|i l IH]; intros s; [now cbn|].
  cbn [fold_left]. destruct (IH (vd_chain_iteration self v1_ v2_ s i))
    as (Hlen & Hval & Hadj).
  unfold vd_chain_iteration in *.
  rewrite Hlen, Hval, length_add_adj, val_at_add_adj.
  repeat split. intros Hp. rewrite Hadj.
  - apply adj_at_add_adj_ne. intros ->.
    apply (Hp i); [now left | reflexivity].
  - intros j Hj. apply Hp. now right.
Qed.

Lemma hmm_edges_of_constants (n_states n_transitions : nat)
    (const_omega const_Gamma const_rho : bool)
    (Gamma_dbl : Eigen.MatrixXd) (rho : list R)
    (omegas alphas : Eigen.MatrixXd) (alpha_log_norms : list R)
    (log_marginal_density : R) (e0 : hmm.edges) :
  let e := hmm.partials n_states n_transitions const_omega const_Gamma
             const_rho Gamma_dbl rho omegas alphas alpha_log_norms
             log_marginal_density e0 in
  (if const_omega then hmm.edge1_partials_ e = hmm.edge1_partials_ e0
   else hmm.edge1_partials_ e <> None) /\
  (if const_Gamma then hmm.edge2_partials_ e = hmm.edge2_partials_ e0
   else hmm.edge2_partials_ e <> None) /\
  (if const_rho then hmm.edge3_partials_ e = hmm.edge3_partials_ e0
   else hmm.edge3_partials_ e <> None).
Proof.
  unfold hmm.partials, hmm.boundary_terms.
  destruct (hmm.backward_pass _ _ _ _ _ _) as [[kappa kln] gc].
  destruct const_omega, const_Gamma, const_rho,
    (n_transitions =? 0)%nat; cbn; repeat split; congruence.
Qed.

End ConstantOperands.

(** C6.  A constant operand gets no adjoint and no adjoint-carrying state.
    The scalar variable-constant and constant-variable overloads allocate
    one node that stores the constant as a double, and its propagate step
    changes no value and no adjoint but the differentiable operand's; the
    vector variable-constant node stores the constant vector as doubles and
    its propagate step changes only adjoints of the entries of the
    differentiable vector; the adjoint method of [hmm_marginal_lpdf]
    leaves the edge of a constant operand as it found it and assigns
    partials to the edge of every operand that is not constant, and no
    node is allocated when all three are constant. *)
Theorem constant_operand_skip :
  (forall (s : list rev.vari) (a : rev.var) (b : R),
     squared_distance.scal_vd s a b
       = (s ++ [rev.Vari (squared_distance.prim (rev.val_at s (rev.vi_ a)) b) 0
                  (rev.scal_squared_distance_vd_vari (rev.vi_ a) b)],
          rev.Var (length s))) /\
  (forall (s : list rev.vari) (a : R) (b : rev.var),
     squared_distance.scal_dv s a b
       = (s ++ [rev.Vari (squared_distance.prim a (rev.val_at s (rev.vi_ b))) 0
                  (rev.scal_squared_distance_dv_vari a (rev.vi_ b))],
          rev.Var (length s))) /\
  (forall (t : list rev.vari) (self avi : nat) (bd x seed : R),
     t !! self = Some (rev.Vari x seed (rev.scal_squared_distance_vd_vari avi bd)) ->
     length (rev.chain t self) = length t /\
     forall p, rev.val_at (rev.chain t self) p = rev.val_at t p /\
               (p <> avi -> rev.adj_at (rev.chain t self) p = rev.adj_at t p)) /\
  (forall (t : list rev.vari) (self bvi : nat) (ad x seed : R),
     t !! self = Some (rev.Vari x seed (rev.scal_squared_distance_dv_vari ad bvi)) ->
     length (rev.chain t self) = length t /\
     forall p, rev.val_at (rev.chain t self) p = rev.val_at t p /\
               (p <> bvi -> rev.adj_at (rev.chain t self) p = rev.adj_at t p)) /\
  (forall (s : list rev.vari) (v1 : err.Mat rev.var) (v2 : err.Mat R),
     exists (v1_ : list nat) (v2_ : list R),
       squared_distance.new_squared_distance_vd_vari s v1 v2
         = (s ++ [rev.Vari (squared_distance.var_squared_distance_vd s v1 v2) 0
                    (rev.squared_distance_vd_vari v1_ v2_ (err.mat_size v1))],
            length s)) /\
  (forall (t : list rev.vari) (self : nat) (v1_ : list nat) (v2_ : list R)
          (length_ : nat) (x seed : R),
     t !! self
       = Some (rev.Vari x seed (rev.squared_distance_vd_vari v1_ v2_ length_)) ->
     length (rev.chain t self) = length t /\
     forall p, rev.val_at (rev.chain t self) p = rev.val_at t p /\
               ((forall i, (i < length_)%nat -> nth i v1_ O <> p) ->
                rev.adj_at (rev.chain t self) p = rev.adj_at t p)) /\
  (forall (n_states n_transitions : nat)
          (const_omega const_Gamma const_rho : bool)
          (Gamma_dbl : Eigen.MatrixXd) (rho : list R)
          (omegas alphas : Eigen.MatrixXd) (alpha_log_norms : list R)
          (log_marginal_density : R) (e0 : hmm.edges),
     let e := hmm.partials n_states n_transitions const_omega const_Gamma
                const_rho Gamma_dbl rho omegas alphas alpha_log_norms
                log_marginal_density e0 in
     (if const_omega then hmm.edge1_partials_ e = hmm.edge1_partials_ e0
      else hmm.edge1_partials_ e <> None) /\
     (if const_Gamma then hmm.edge2_partials_ e = hmm.edge2_partials_ e0
      else hmm.edge2_partials_ e <> None) /\
     (if const_rho then hmm.edge3_partials_ e = hmm.edge3_partials_ e0
      else hmm.edge3_partials_ e <> None)) /\
  (forall (s : list rev.vari) (value : R) (log_omegas Gamma : Eigen.MatrixXd)
          (rho : list R) (e : hmm.edges),
     hmm.build s value (hmm.double_matrix log_omegas) (hmm.double_matrix Gamma)
       (hmm.double_vector rho) e = (s, hmm.ret_double value)).
Proof.
  repeat apply conj.
  - reflexivity.
  - reflexivity.
  - intros t self avi bd x seed Hself. unfold rev.chain. rewrite Hself.
    cbn [rev.class_]. split; [apply length_add_adj|].
    intros p. split; [apply val_at_add_adj|].
    intros Hp. now apply adj_at_add_adj_ne.
  - intros t self bvi ad x seed Hself. unfold rev.chain. rewrite Hself.
    cbn [rev.class_]. split; [apply length_sub_adj|].
    intros p. split; [apply val_at_sub_adj|].
    intros Hp. now apply adj_at_sub_adj_ne.
  - intros s v1 v2. eexists _, _. reflexivity.
  - intros t self v1_ v2_ length_ x seed Hself. unfold rev.chain.
    rewrite Hself. cbn [rev.class_].
    split; [apply vd_chain_loop_frame with (p := O)|].
    intros p.
    destruct (vd_chain_loop_frame self v1_ v2_ (seq 0 length_) t p)
      as (_ & Hval & Hadj).
    split; [exact Hval|]. intros Hp. apply Hadj.
    intros i Hi. apply Hp. apply in_seq in Hi. lia.
  - apply hmm_edges_of_constants.
  - reflexivity.
Qed.

(** ** Mixed vector overloads of the squared distance *)

Lemma check_vector_passes {T : Type} (function name : string) (m : err.Mat T) :
  err.mat_rows m = 1%nat \/ err.mat_cols m = 1%nat ->
  err.check_vector function name m = inr tt.
Proof.
  intros H. unfold err.check_vector.
  destruct H as [-> | ->]; cbn; [reflexivity|].
  now rewrite orb_true_r.
Qed.

Lemma check_matching_sizes_passes {T U : Type} (function name1 name2 : string)
    (m1 : err.Mat T) (m2 : err.Mat U) :
  err.mat_size m1 = err.mat_size m2 ->
  err.check_matching_sizes function name1 m1 name2 m2 = inr tt.
Proof.
  intros H. unfold err.check_matching_sizes. now rewrite H, Nat.eqb_refl.
Qed.

(** C10.  For a vector of doubles [d] and a vector of variables [v] of the
    same size, the constant-first overload and the variable-first overload
    return the same thing: both pass their checks and allocate the same
    variable-constant node over [v] and [d], so the forward value is the
    same sum of squared differences and the reverse sweep leaves the same
    adjoints. *)
Theorem squared_distance_mixed_overloads_agree
    (s : list rev.vari) (d : err.Mat R) (v : err.Mat rev.var) :
  err.mat_rows d = 1%nat \/ err.mat_cols d = 1%nat ->
  err.mat_rows v = 1%nat \/ err.mat_cols v = 1%nat ->
  err.mat_size d = err.mat_size v ->
  squared_distance.mat_dv s d v = squared_distance.mat_vd s v d /\
  exists (s' : list rev.vari) (c : rev.var),
    squared_distance.mat_dv s d v = inr (s', c) /\
    squared_distance.mat_vd s v d = inr (s', c) /\
    (s', rev.vi_ c) = squared_distance.new_squared_distance_vd_vari s v d /\
    rev.val_at s' (rev.vi_ c) = squared_distance.var_squared_distance_vd s v d.
Proof.
  intros Hd Hv Hsize.
  unfold squared_distance.mat_dv, squared_distance.mat_vd.
  rewrite !check_vector_passes by assumption.
  rewrite !check_matching_sizes_passes by congruence.
  cbn [err.bind]. split; [reflexivity|].
  unfold squared_distance.new_squared_distance_vd_vari, rev.push.
  eexists _, _. repeat split.
  cbn [rev.vi_]. apply val_at_push_new.
Qed.

(** ** The finiteness helper for Eigen matrices *)

(** C8.  The loop of the helper returns in its first turn: on every matrix
    whose first coefficient is finite and which holds a non-finite
    coefficient further on, it answers [true].  The 1 x 2 matrix
    (1, +infinity) is such a matrix. *)
Theorem is_finite_check_returns_on_first_element :
  (forall (r c : nat) (first : float) (others : list float),
     PrimFloat.is_finite first = true ->
     existsb (fun x => negb (PrimFloat.is_finite x)) others = true ->
     is_finite.check (err.mat r c (first :: others)) = Some true) /\
  (exists y : err.Mat float,
     PrimFloat.is_finite (nth 0 (err.mat_data y) PrimFloat.zero) = true /\
     PrimFloat.is_finite (nth 1 (err.mat_data y) PrimFloat.zero) = false /\
     is_finite.check y = Some true).
Proof.
  split.
  - intros r c first others Hfirst Hothers.
    unfold is_finite.check, is_finite.allFinite, err.mat_size.
    cbn [err.mat_data forallb length seq is_finite.for_loop].
    rewrite Hfirst. cbn [andb].
    assert (Hnot : forallb PrimFloat.is_finite others = false).
    { apply existsb_exists in Hothers. destruct Hothers as (x & Hin & Hx).
      apply not_true_is_false. intros Hall.
      rewrite forallb_forall in Hall. rewrite (Hall x Hin) in Hx.
      discriminate. }
    rewrite Hnot. cbn [negb]. unfold is_finite.check_body.
    cbn [nth]. now rewrite Hfirst.
  - exists (err.mat 1 2 [1%float; infinity]).
    repeat split; vm_compute; reflexivity.
Qed.

(** ** Event dependencies of the OpenCL copies *)

Section Copies.
Import opencl.

Lemma check_size_match_passes (function name_i name_j : string) (i : nat) :
  check_size_match function name_i i name_j i = inr tt.
Proof. unfold check_size_match. now rewrite Nat.eqb_refl. Qed.

Lemma waits_for_wait_list (before : list action) (op : operation)
    (waits pending : list nat) (ev : nat) :
  (forall e, In e pending -> In e waits) ->
  waits_for before (Command op waits ev) pending.
Proof. intros H e He. left. cbn. auto. Qed.


End Copies.


(** The packed size is not 0 when there is a row. *)
Lemma packed_size_pos (rows : nat) :
  rows <> 0%nat -> ((rows * (rows + 1) / 2 =? 0) = false)%nat.
Proof.
  intros Hrows. apply Nat.eqb_neq. intros Hdiv.
  pose proof (Nat.div_mod_eq (rows * (rows + 1)) 2) as Hmod.
  pose proof (Nat.mod_upper_bound (rows * (rows + 1)) 2 ltac:(lia)).
  rewrite Hdiv in Hmod. nia.
Qed.

(** C9.  The device-to-host packed copy does not order its read after the
    pending write of the buffer it reads.  It launches the [pack] kernel,
    which writes the local matrix [packed], and then enqueues the read of
    [packed.buffer()] with [packed.read_events()] and [src.write_events()]
    as prerequisites: the kernel's event, the pending write of [packed],
    is not among them, and the host does not block on it either.  The
    wait list is the one of the device-to-device copy, where the command
    writes the first matrix. *)
Theorem opencl_packed_copy_misses_pending_write
    (q : opencl.queue) (packed_buffer : nat) (src : opencl.matrix_cl) :
  opencl.rows src <> 0%nat ->
  (forall e, In e (opencl.write_events src) ->
     (e < opencl.next_event q)%nat) ->
  (forall e, In (opencl.HostWait e) (opencl.trace q) ->
     (e < opencl.next_event q)%nat) ->
  exists (k r : opencl.command),
    opencl.packed_copy_to_host q packed_buffer src
      = (opencl.Queue
           (opencl.trace q
            ++ [opencl.Enqueue k; opencl.Enqueue r;
                opencl.HostWait (opencl.completion r)])
           (S (S (opencl.next_event q))),
         opencl.MatrixCL (opencl.rows src) (opencl.cols src)
           (opencl.buffer src) [] []) /\
    opencl.operation_of k
      = opencl.RunKernel "pack" (opencl.buffer src) packed_buffer /\
    opencl.operation_of r = opencl.ReadBuffer packed_buffer /\
    opencl.wait_list r = opencl.write_events src /\
    ~ opencl.waits_for (opencl.trace q ++ [opencl.Enqueue k]) r
        [opencl.completion k].
Proof.
  intros Hrows Hfresh Hwaited.
  destruct src as [rs cs b w rd]. cbn [opencl.rows opencl.cols opencl.buffer
    opencl.write_events] in *.
  exists (opencl.Command (opencl.RunKernel "pack" b packed_buffer) w
            (opencl.next_event q)),
    (opencl.Command (opencl.ReadBuffer packed_buffer) w
       (S (opencl.next_event q))).
  unfold opencl.packed_copy_to_host. cbn [opencl.rows].
  rewrite (packed_size_pos rs Hrows).
  unfold opencl.run_kernel, opencl.new_matrix_cl, opencl.enqueue,
    opencl.wait_for, opencl.add_write_event, opencl.add_read_event,
    opencl.clear_write_events, opencl.clear_read_events.
  cbn [opencl.trace opencl.next_event opencl.rows opencl.cols opencl.buffer
       opencl.write_events opencl.read_events app map opencl.completion].
  split; [rewrite <- !app_assoc; reflexivity|].
  split; [reflexivity|]. split; [reflexivity|]. split; [reflexivity|].
  intros Hwaits.
  destruct (Hwaits (opencl.next_event q) ltac:(now left)) as [Hin|Hin].
  - cbn [opencl.wait_list] in Hin. specialize (Hfresh _ Hin). lia.
  - apply in_app_iff in Hin. destruct Hin as [Hin|[Hin|[]]].
    + specialize (Hwaited _ Hin). lia.
    + discriminate Hin.
Qed.

(** The host-to-device packed copy orders the [unpack] kernel after the
    write of [packed]: the write's event is among the kernel's
    prerequisites. *)
Lemma opencl_packed_copy_from_host_orders_unpack
    (q : opencl.queue) (dst_buffer packed_buffer rows : nat) :
  rows <> 0%nat ->
  exists (w k : opencl.command),
    opencl.packed_copy_from_host q dst_buffer packed_buffer
      (rows * (rows + 1) / 2) rows
      = inr (opencl.Queue
               (opencl.trace q ++ [opencl.Enqueue w; opencl.Enqueue k])
               (S (S (opencl.next_event q))),
             opencl.MatrixCL rows rows dst_buffer [opencl.completion k] []) /\
    opencl.operation_of w = opencl.WriteBuffer packed_buffer /\
    opencl.operation_of k
      = opencl.RunKernel "unpack" packed_buffer dst_buffer /\
    opencl.waits_for (opencl.trace q ++ [opencl.Enqueue w]) k
      [opencl.completion w].
Proof.
  intros Hrows.
  exists (opencl.Command (opencl.WriteBuffer packed_buffer) []
            (opencl.next_event q)),
    (opencl.Command (opencl.RunKernel "unpack" packed_buffer dst_buffer)
       [opencl.next_event q] (S (opencl.next_event q))).
  unfold opencl.packed_copy_from_host.
  rewrite check_size_match_passes. cbn [err.bind].
  unfold opencl.size, opencl.new_matrix_cl. cbn [opencl.rows opencl.cols].
  replace (rows * rows =? 0)%nat with false
    by (symmetry; apply Nat.eqb_neq; nia).
  unfold opencl.run_kernel, opencl.enqueue, opencl.add_write_event,
    opencl.add_read_event.
  cbn [opencl.trace opencl.next_event opencl.rows opencl.cols opencl.buffer
       opencl.write_events opencl.read_events app opencl.completion].
  split; [rewrite <- !app_assoc; reflexivity|].
  split; [reflexivity|]. split; [reflexivity|].
  apply waits_for_wait_list. intros e He. exact He.
Qed.

(** ** The ordered-vector constraint *)

Section OrderedConstrain.
Import Eigen ordered_constrain_op.

(** The forward loop, after the turns 1, ..., m. *)
Lemma call_loop (x : list R) (m : nat) (e0 y0 : list R) :
  (m < length x)%nat ->
  length e0 = (length x - 1)%nat -> length y0 = length x ->
  exists e y,
    fold_left (call_iteration x) (seq 1 m) (e0, y0) = (e, y) /\
    length e = (length x - 1)%nat /\ length y = length x /\
    coeff y 0 = coeff y0 0 /\
    forall n, (1 <= n)%nat -> (n <= m)%nat ->
      coeff e (n - 1) = exp (coeff x n) /\
      coeff y n = coeff y (n - 1) + exp (coeff x n).
Proof.
  intros Hm He Hy. induction m as [|m IH].
  - exists e0, y0. cbn. repeat split; trivial; lia.
  - destruct IH as (e & y & Hfold & Hel & Hyl & Hy0 & Hstep); [lia|].
    rewrite seq_S, fold_left_app, Hfold. cbn [fold_left Nat.add].
    unfold call_iteration.
    replace (S m - 1)%nat with m by lia.
    rewrite coeff_insert_eq by lia.
    eexists _, _. split; [reflexivity|].
    rewrite !length_insert. repeat split; trivial.
    + rewrite coeff_insert_ne by lia. exact Hy0.
    + destruct (Nat.eq_dec n (S m)) as [->|Hne].
      * replace (S m - 1)%nat with m by lia.
        apply coeff_insert_eq. lia.
      * rewrite coeff_insert_ne by lia. apply Hstep; lia.
    + destruct (Nat.eq_dec n (S m)) as [->|Hne].
      * replace (S m - 1)%nat with m by lia.
        rewrite coeff_insert_eq by lia.
        now rewrite coeff_insert_ne by lia.
      * rewrite !coeff_insert_ne by lia. apply Hstep; lia.
Qed.

(** What [operator()] leaves in the functor and returns. *)
Lemma call_spec (self : t) (x : list R) :
  N_ (fst (call self x)) = length x /\
  length (snd (call self x)) = length x /\
  ((0 < length x)%nat -> coeff (snd (call self x)) 0 = coeff x 0) /\
  forall n, (0 < n)%nat -> (n < length x)%nat ->
    coeff (exp_x_ (fst (call self x))) (n - 1) = exp (coeff x n) /\
    coeff (snd (call self x)) n
      = coeff (snd (call self x)) (n - 1) + exp (coeff x n).
Proof.
  unfold call. destruct (length x =? 0)%nat eqn:HN.
  - apply Nat.eqb_eq in HN. cbn [fst snd N_]. unfold ZeroV.
    rewrite repeat_length. repeat split; trivial; lia.
  - apply Nat.eqb_neq in HN.
    destruct (call_loop x (length x - 1) (ZeroV (length x - 1))
                (<[0%nat := coeff x 0]> (ZeroV (length x))))
      as (e & y & Hfold & Hel & Hyl & Hy0 & Hstep).
    + lia.
    + unfold ZeroV. now rewrite repeat_length.
    + unfold ZeroV. now rewrite length_insert, repeat_length.
    + rewrite Hfold. cbn [fst snd N_ exp_x_]. repeat split; trivial.
      * intros _. rewrite Hy0. apply coeff_insert_eq.
        unfold ZeroV. rewrite repeat_length. lia.
      * apply Hstep; lia.
      * apply Hstep; lia.
Qed.

Lemma call_result_self_free (self self' : t) (x : list R) :
  snd (call self x) = snd (call self' x).
Proof.
  unfold call. destruct (length x =? 0)%nat; [reflexivity|].
  destruct (fold_left _ _ _). reflexivity.
Qed.

(** The sum of the coefficients from position [n] on. *)
Lemma sum_skipn_step (v : list R) (n : nat) :
  (n < length v)%nat ->
  sum (skipn n v) = coeff v n + sum (skipn (S n) v).
Proof.
  revert n. induction v as [|a v IH]; intros n Hn; [cbn in Hn; lia|].
  destruct n as [|n]; [reflexivity|].
  cbn [skipn]. cbn in Hn. rewrite IH by lia. reflexivity.
Qed.

Lemma sum_skipn_big (v : list R) (n : nat) :
  sum (skipn n v)
    = big (length v) (fun k => if (n <=? k)%nat then coeff v k else 0).
Proof.
  revert n. induction v as [|a v IH]; intros n.
  - destruct n; reflexivity.
  - destruct n as [|n].
    + cbn [skipn]. rewrite sum_big. apply big_ext. reflexivity.
    + cbn [skipn length]. rewrite big_shift, IH.
      cbn [Nat.leb]. rewrite Rplus_0_l. apply big_ext. reflexivity.
Qed.

(** The adjoint loop has reached index [k]. *)
Let reached (self : t) (adj : list R) (N k : nat) (st : R * list R) : Prop :=
  fst st = sum (skipn k adj) /\ length (snd st) = N /\
  forall n, (k <= n)%nat -> (n < N)%nat ->
    coeff (snd st) n = coeff (exp_x_ self) (n - 1) * sum (skipn n adj).

Lemma adjoint_loop (self : t) (adj : list R) (d k : nat) (st : R * list R) :
  (k + d = length adj)%nat ->
  reached self adj (length adj) (k + d) st ->
  reached self adj (length adj) k
    (fold_left (adjoint_iteration self adj) (List.rev (seq k d)) st).
Proof.
  revert k. induction d as [|d IH]; intros k Hk Hst.
  - cbn. now rewrite Nat.add_0_r in Hst.
  - cbn [seq List.rev]. rewrite fold_left_app. cbn [fold_left].
    assert (Hin : reached self adj (length adj) (S k)
              (fold_left (adjoint_iteration self adj)
                 (List.rev (seq (S k) d)) st)).
    { apply IH; [lia|]. now replace (S k + d)%nat with (k + S d)%nat by lia. }
    destruct (fold_left _ (List.rev (seq (S k) d)) st) as [rolling atj].
    destruct Hin as (Hroll & Hlen & Hval). cbn [fst snd] in *.
    unfold adjoint_iteration, reached. cbn [fst snd].
    assert (Hsum : rolling + coeff adj k = sum (skipn k adj)).
    { rewrite (sum_skipn_step adj k) by lia. rewrite Hroll. lra. }
    rewrite length_insert. repeat split; trivial.
    intros n Hn HnN. destruct (Nat.eq_dec n k) as [->|Hne].
    + rewrite coeff_insert_eq by lia. now rewrite Hsum.
    + rewrite coeff_insert_ne by lia. apply Hval; lia.
Qed.

(** The components of [multiply_adjoint_jacobian(adj)]. *)
Lemma multiply_adjoint_jacobian_spec (self : t) (adj : list R) :
  length adj = N_ self ->
  length (multiply_adjoint_jacobian self adj) = N_ self /\
  ((0 < N_ self)%nat ->
   coeff (multiply_adjoint_jacobian self adj) 0 = sum adj) /\
  forall n, (0 < n)%nat -> (n < N_ self)%nat ->
    coeff (multiply_adjoint_jacobian self adj) n
      = coeff (exp_x_ self) (n - 1) * sum (skipn n adj).
Proof.
  intros Hadj. unfold multiply_adjoint_jacobian.
  destruct (0 <? N_ self)%nat eqn:HN.
  - apply Nat.ltb_lt in HN.
    pose proof (adjoint_loop self adj (N_ self - 1) 1 (0, ZeroV (N_ self)))
      as Hloop.
    destruct (fold_left _ _ (0, ZeroV (N_ self))) as [rolling atj].
    destruct Hloop as (Hroll & Hlen & Hval).
    + lia.
    + unfold reached. cbn [fst snd].
      replace (1 + (N_ self - 1))%nat with (length adj) by lia.
      rewrite skipn_all. unfold ZeroV. rewrite repeat_length.
      repeat split; [congruence|]. intros n Hn HnN. lia.
    + cbn [fst snd] in *. rewrite length_insert.
      repeat split; [congruence| |].
      * intros _. rewrite coeff_insert_eq by lia.
        pose proof (sum_skipn_step adj 0 ltac:(lia)) as H0.
        change (skipn 0 adj) with adj in H0. rewrite Hroll, H0. lra.
      * intros n Hn HnN. rewrite coeff_insert_ne by lia.
        apply Hval; lia.
  - apply Nat.ltb_ge in HN. unfold ZeroV. rewrite repeat_length.
    repeat split; trivial; lia.
Qed.

End OrderedConstrain.

Section OrderedConstrainJacobian.
Import Eigen ordered_constrain_op.

Lemma derivable_pt_lim_ext (f g : R -> R) (x l : R) :
  (forall t, f t = g t) -> derivable_pt_lim g x l -> derivable_pt_lim f x l.
Proof.
  intros Hfg Hg eps Heps. destruct (Hg eps Heps) as [delta Hdelta].
  exists delta. intros h Hh Hlt. rewrite !Hfg. now apply Hdelta.
Qed.

Lemma forward_unrolled (x : list R) (k : nat) :
  (k < length x)%nat -> coeff (forward x) k = unrolled x k.
Proof.
  unfold forward. destruct (call_spec (Op 0 []) x) as (_ & _ & H0 & Hstep).
  induction k as [|k IH]; intros Hk.
  - apply H0. lia.
  - destruct (Hstep (S k) ltac:(lia) Hk) as [_ Hy].
    rewrite Hy. replace (S k - 1)%nat with k by lia.
    rewrite IH by lia. reflexivity.
Qed.

Lemma coeff_insert (x : list R) (n j : nat) (t : R) :
  (n < length x)%nat ->
  coeff (<[n := t]> x) j = if (j =? n)%nat then t else coeff x j.
Proof.
  intros Hn. destruct (j =? n)%nat eqn:Hj.
  - apply Nat.eqb_eq in Hj. subst j. now apply coeff_insert_eq.
  - apply Nat.eqb_neq in Hj. apply coeff_insert_ne. congruence.
Qed.

(** The partial derivative of one summand [exp (x[j])] in [x[n]]. *)
Lemma exp_coeff_derivative (x : list R) (n j : nat) :
  (n < length x)%nat ->
  derivable_pt_lim (fun t => exp (coeff (<[n := t]> x) j)) (coeff x n)
    (if (j =? n)%nat then exp (coeff x n) else 0).
Proof.
  intros Hn. destruct (j =? n)%nat eqn:Hj.
  - apply derivable_pt_lim_ext with (g := exp).
    + intros t. now rewrite coeff_insert, Hj.
    + apply derivable_pt_lim_exp.
  - apply derivable_pt_lim_ext with (g := fct_cte (exp (coeff x j))).
    + intros t. now rewrite coeff_insert, Hj.
    + apply derivable_pt_lim_const.
Qed.

Lemma unrolled_derivative (x : list R) (n k : nat) :
  (n < length x)%nat ->
  derivable_pt_lim (fun t => unrolled (<[n := t]> x) k) (coeff x n)
    (jacobian x k n).
Proof.
  intros Hn. induction k as [|k IH].
  - cbn [unrolled]. unfold jacobian. destruct (n =? 0)%nat eqn:H0.
    + apply Nat.eqb_eq in H0. subst n.
      apply derivable_pt_lim_ext with (g := id).
      * intros t. now rewrite coeff_insert.
      * apply derivable_pt_lim_id.
    + replace (n <=? 0)%nat with false
        by (symmetry; apply Nat.leb_gt; apply Nat.eqb_neq in H0; lia).
      apply derivable_pt_lim_ext with (g := fct_cte (coeff x 0)).
      * intros t. rewrite coeff_insert by assumption.
        now rewrite Nat.eqb_sym, H0.
      * apply derivable_pt_lim_const.
  - cbn [unrolled].
    replace (jacobian x (S k) n)
      with (jacobian x k n
            + (if (S k =? n)%nat then exp (coeff x n) else 0)).
    + apply (derivable_pt_lim_plus
               (fun t => unrolled (<[n := t]> x) k)
               (fun t => exp (coeff (<[n := t]> x) (S k)))).
      * exact IH.
      * now apply exp_coeff_derivative.
    + unfold jacobian.
      destruct (n =? 0)%nat eqn:H0.
      * apply Nat.eqb_eq in H0. subst n. cbn. lra.
      * destruct (Nat.lt_total n (S k)) as [Hlt|[Heq|Hgt]].
        -- replace (n <=? k)%nat with true by (symmetry; apply Nat.leb_le; lia).
           replace (n <=? S k)%nat with true
             by (symmetry; apply Nat.leb_le; lia).
           replace (S k =? n)%nat with false
             by (symmetry; apply Nat.eqb_neq; lia).
           lra.
        -- subst n.
           replace (S k <=? k)%nat with false
             by (symmetry; apply Nat.leb_gt; lia).
           rewrite Nat.leb_refl, Nat.eqb_refl. lra.
        -- replace (n <=? k)%nat with false
             by (symmetry; apply Nat.leb_gt; lia).
           replace (n <=? S k)%nat with false
             by (symmetry; apply Nat.leb_gt; lia).
           replace (S k =? n)%nat with false
             by (symmetry; apply Nat.eqb_neq; lia).
           lra.
Qed.

Lemma forward_derivative (x : list R) (n k : nat) :
  (n < length x)%nat -> (k < length x)%nat ->
  derivable_pt_lim (fun t => coeff (forward (<[n := t]> x)) k) (coeff x n)
    (jacobian x k n).
Proof.
  intros Hn Hk.
  apply derivable_pt_lim_ext with (g := fun t => unrolled (<[n := t]> x) k).
  - intros t. apply forward_unrolled. now rewrite length_insert.
  - now apply unrolled_derivative.
Qed.

(** Row [n] of the transposed Jacobian against [adj]. *)
Lemma jacobian_transpose_times (x adj : list R) (n : nat) :
  length adj = length x ->
  big (length x) (fun k => jacobian x k n * coeff adj k)
    = if (n =? 0)%nat then sum adj
      else exp (coeff x n) * sum (skipn n adj).
Proof.
  intros Hadj. unfold jacobian. destruct (n =? 0)%nat.
  - rewrite sum_big, Hadj. apply big_ext. intros k _. lra.
  - rewrite sum_skipn_big, Hadj, <- big_scale. apply big_ext.
    intros k _. destruct (n <=? k)%nat; lra.
Qed.

End OrderedConstrainJacobian.

(** C7.  The forward function of [ordered_constrain_op] returns [y] with
    [y[0] = x[0]] and [y[n] = y[n-1] + exp(x[n])].  Entry (k, n) of the
    Jacobian of this map is 1 for n = 0, [exp(x[n])] for 0 < n <= k and 0
    otherwise, and these are the partial derivatives of [y[k]] in [x[n]].
    For an adjoint vector of the size of [x],
    [multiply_adjoint_jacobian] returns the transposed Jacobian times
    [adj]: component 0 is the sum of all [adj[k]], component n > 0 is
    [exp(x[n])] times the sum of [adj[k]] over k >= n. *)
Theorem ordered_constrain_adjoint_jacobian
    (self : ordered_constrain_op.t) (x adj : list R) :
  length adj = length x ->
  let op := fst (ordered_constrain_op.call self x) in
  let y := snd (ordered_constrain_op.call self x) in
  let r := ordered_constrain_op.multiply_adjoint_jacobian op adj in
  length y = length x /\
  ((0 < length x)%nat -> Eigen.coeff y 0 = Eigen.coeff x 0) /\
  (forall n, (0 < n)%nat -> (n < length x)%nat ->
     Eigen.coeff y n = Eigen.coeff y (n - 1) + exp (Eigen.coeff x n)) /\
  (forall k n, (k < length x)%nat -> (n < length x)%nat ->
     derivable_pt_lim
       (fun t => Eigen.coeff (snd (ordered_constrain_op.call self (<[n := t]> x))) k)
       (Eigen.coeff x n) (ordered_constrain_op.jacobian x k n)) /\
  length r = length x /\
  ((0 < length x)%nat -> Eigen.coeff r 0 = Eigen.sum adj) /\
  (forall n, (0 < n)%nat -> (n < length x)%nat ->
     Eigen.coeff r n = exp (Eigen.coeff x n) * Eigen.sum (skipn n adj)) /\
  (forall n, (n < length x)%nat ->
     Eigen.coeff r n
       = Eigen.big (length x)
           (fun k => ordered_constrain_op.jacobian x k n * Eigen.coeff adj k)).
Proof.
  intros Hadj. cbn zeta.
  destruct (call_spec self x) as (HN & Hlen & H0 & Hstep).
  destruct (multiply_adjoint_jacobian_spec
              (fst (ordered_constrain_op.call self x)) adj)
    as (Hrl & Hr0 & Hrn); [congruence|].
  rewrite HN in Hrl, Hr0, Hrn.
  assert (Hcomp : forall n, (0 < n)%nat -> (n < length x)%nat ->
            Eigen.coeff
              (ordered_constrain_op.multiply_adjoint_jacobian
                 (fst (ordered_constrain_op.call self x)) adj) n
            = exp (Eigen.coeff x n) * Eigen.sum (skipn n adj)).
  { intros n Hn HnN. rewrite Hrn by assumption.
    destruct (Hstep n Hn HnN) as [-> _]. reflexivity. }
  repeat split; trivial.
  - intros n Hn HnN. now apply Hstep.
  - intros k n Hk Hn.
    apply derivable_pt_lim_ext
      with (g := fun t => Eigen.coeff (ordered_constrain_op.forward (<[n := t]> x)) k).
    + intros t. unfold ordered_constrain_op.forward.
      now rewrite (call_result_self_free self (ordered_constrain_op.Op 0 [])).
    + now apply forward_derivative.
  - intros n Hn. rewrite jacobian_transpose_times by assumption.
    destruct (n =? 0)%nat eqn:Hz.
    + apply Nat.eqb_eq in Hz. subst n. now apply Hr0.
    + apply Nat.eqb_neq in Hz. apply Hcomp; lia.
Qed.

(** ** Coefficients of products *)

Section Coefficients.
Import Eigen.

Lemma length_cwiseProduct (u v : list R) :
  length (cwiseProduct u v) = Nat.min (length u) (length v).
Proof. unfold cwiseProduct. apply length_zip_with. Qed.

Lemma coeff_cwiseProduct (u v : list R) (i : nat) :
  length u = length v ->
  coeff (cwiseProduct u v) i = coeff u i * coeff v i.
Proof.
  unfold coeff, cwiseProduct. revert v i.
  induction u as [|a u IH]; intros [|b v] i Hlen; try discriminate.
  - destruct i; cbn; lra.
  - destruct i as [|i]; [reflexivity|].
    cbn. apply IH. now injection Hlen.
Qed.

Lemma length_transpose_times (m : MatrixXd) (v : list R) :
  length (transpose_times m v) = length (columns m).
Proof. unfold transpose_times. apply length_map. Qed.

Lemma coeff_transpose_times (m : MatrixXd) (v : list R) (j : nat) :
  coeff (transpose_times m v) j = dot (col m j) v.
Proof.
  unfold coeff, transpose_times, col.
  change 0 with ((fun c : list R => dot c v) []).
  apply map_nth.
Qed.

Lemma dot_big (u v : list R) (K : nat) :
  length u = K -> length v = K ->
  dot u v = big K (fun i => coeff u i * coeff v i).
Proof.
  intros Hu Hv. unfold dot. rewrite sum_big, length_cwiseProduct, Hu, Hv.
  rewrite Nat.min_id. apply big_ext. intros i _.
  apply coeff_cwiseProduct. congruence.
Qed.

Lemma sum_div_scalar (v : list R) (c : R) :
  sum (div_scalar v c) = sum v / c.
Proof.
  unfold sum, div_scalar. induction v as [|a v IH]; cbn; [lra|].
  rewrite IH. lra.
Qed.

Lemma cwiseProduct_div_scalar (u v : list R) (c : R) :
  cwiseProduct u (div_scalar v c) = div_scalar (cwiseProduct u v) c.
Proof.
  unfold cwiseProduct, div_scalar. revert v.
  induction u as [|a u IH]; intros [|b v]; cbn; try reflexivity.
  rewrite IH. f_equal. lra.
Qed.

Lemma dot_div_scalar (u v : list R) (c : R) :
  dot u (div_scalar v c) = dot u v / c.
Proof. unfold dot. now rewrite cwiseProduct_div_scalar, sum_div_scalar. Qed.

Lemma transpose_times_div_scalar (m : MatrixXd) (v : list R) (c : R) :
  transpose_times m (div_scalar v c) = div_scalar (transpose_times m v) c.
Proof.
  unfold transpose_times. unfold div_scalar at 2. rewrite map_map.
  apply map_ext. intros u. apply dot_div_scalar.
Qed.

Lemma div_scalar_div_scalar (v : list R) (c d : R) :
  div_scalar (div_scalar v c) d = div_scalar v (c * d).
Proof.
  unfold div_scalar. rewrite map_map. apply map_ext. intros x.
  unfold Rdiv. rewrite Rinv_mult. lra.
Qed.

End Coefficients.

(** ** The largest coefficient *)

Section MaxCoeff.
Import Eigen.

Lemma fold_Rmax_ge (l : list R) (a : R) :
  a <= fold_left Rmax l a /\ forall x, In x l -> x <= fold_left Rmax l a.
Proof.
  revert a. induction l as [|b l IH]; intros a.
  - cbn. split; [lra | tauto].
  - cbn [fold_left]. destruct (IH (Rmax a b)) as [Hm Hl]. split.
    + pose proof (Rmax_l a b). lra.
    + intros x [<-|Hx]; [|now apply Hl].
      pose proof (Rmax_r a b). lra.
Qed.

Lemma maxCoeff_ge (v : list R) (x : R) : In x v -> x <= maxCoeff v.
Proof.
  destruct v as [|a v]; [intros []|]. cbn [maxCoeff].
  destruct (fold_Rmax_ge v a) as [Ha Hv].
  intros [<-|Hx]; [exact Ha | now apply Hv].
Qed.

Lemma sum_le_0 (v : list R) : (forall x, In x v -> x <= 0) -> sum v <= 0.
Proof.
  unfold sum. induction v as [|a v IH]; intros H; cbn; [lra|].
  assert (a <= 0) by (apply H; now left).
  assert (fold_right Rplus 0 v <= 0) by (apply IH; intros; apply H; now right).
  lra.
Qed.

Lemma maxCoeff_pos (v : list R) : 0 < sum v -> 0 < maxCoeff v.
Proof.
  intros Hs. destruct (Rlt_dec 0 (maxCoeff v)) as [H|H]; [exact H|].
  exfalso. assert (sum v <= 0); [|lra].
  apply sum_le_0. intros x Hx. pose proof (maxCoeff_ge v x Hx). lra.
Qed.

Lemma ln_quotient (x y : R) : 0 < x -> 0 < y -> ln (x / y) = ln x - ln y.
Proof.
  intros Hx Hy. unfold Rdiv.
  rewrite ln_mult by (trivial; now apply Rinv_0_lt_compat).
  rewrite ln_Rinv by assumption. lra.
Qed.

Lemma Rmax_div (a b c : R) : 0 < c -> Rmax (a / c) (b / c) = Rmax a b / c.
Proof.
  intros Hc. assert (Hi : 0 < / c) by now apply Rinv_0_lt_compat.
  unfold Rmax, Rdiv.
  destruct (Rle_dec (a * / c) (b * / c)), (Rle_dec a b);
    try reflexivity; exfalso; nra.
Qed.

Lemma maxCoeff_div_scalar (v : list R) (c : R) :
  0 < c -> maxCoeff (div_scalar v c) = maxCoeff v / c.
Proof.
  intros Hc. destruct v as [|a v]; [cbn; lra|].
  cbn [div_scalar map maxCoeff]. revert a.
  induction v as [|b v IH]; intros a; [reflexivity|].
  cbn [map fold_left]. rewrite Rmax_div by assumption. apply IH.
Qed.

End MaxCoeff.

(** ** Direct summation over the paths of hidden states *)

Section PathSum.
Import Eigen Spec.
Variable Gamma : MatrixXd.
Variable K : nat.
Hypothesis Gamma_columns : length (columns Gamma) = K.
Hypothesis Gamma_rows : Forall (fun c : list R => length c = K) (columns Gamma).

(** One step of the unscaled forward recursion. *)
Let step (u w : list R) : list R := cwiseProduct w (transpose_times Gamma u).

(** The total probability of all continuations from state [x]. *)
Let tail_sum (x : nat) (ws : list (list R)) : R :=
  sum (map (fun p => continuation Gamma x p ws) (state_paths K (length ws))).

Lemma col_length (j : nat) : (j < K)%nat -> length (col Gamma j) = K.
Proof.
  intros Hj. unfold col.
  apply (proj1 (List.Forall_forall _ _) Gamma_rows).
  apply nth_In. lia.
Qed.

Lemma length_step (u w : list R) : length w = K -> length (step u w) = K.
Proof.
  intros Hw. unfold step.
  rewrite length_cwiseProduct, length_transpose_times, Hw, Gamma_columns.
  apply Nat.min_id.
Qed.

Lemma coeff_step (u w : list R) (j : nat) :
  length u = K -> length w = K -> (j < K)%nat ->
  coeff (step u w) j
    = coeff w j * big K (fun i => entry Gamma i j * coeff u i).
Proof.
  intros Hu Hw Hj. unfold step.
  rewrite coeff_cwiseProduct
    by (rewrite length_transpose_times; congruence).
  rewrite coeff_transpose_times, (dot_big _ _ K); trivial.
  now apply col_length.
Qed.

Lemma tail_sum_nil (x : nat) : tail_sum x [] = 1.
Proof. unfold tail_sum. cbn. lra. Qed.

Lemma tail_sum_cons (x : nat) (w : list R) (ws : list (list R)) :
  tail_sum x (w :: ws)
    = big K (fun x1 => entry Gamma x x1 * coeff w x1 * tail_sum x1 ws).
Proof.
  unfold tail_sum. cbn [length state_paths].
  rewrite sum_map_flat_map. unfold big. f_equal. apply map_ext.
  intros x1. rewrite map_map. cbn [continuation].
  now rewrite sum_map_scale.
Qed.

(** The forward recursion sums the probability over all continuations. *)
Lemma path_sum_fold (ws : list (list R)) (v : list R) :
  length v = K -> Forall (fun w : list R => length w = K) ws ->
  big K (fun x0 => coeff v x0 * tail_sum x0 ws) = sum (fold_left step ws v).
Proof.
  revert v. induction ws as [|w ws IH]; intros v Hv Hws.
  - cbn [fold_left]. rewrite sum_big, Hv. apply big_ext.
    intros x _. rewrite tail_sum_nil. lra.
  - apply List.Forall_cons_iff in Hws. destruct Hws as [Hw Hws'].
    cbn [fold_left]. rewrite <- IH; [|now apply length_step|assumption].
    transitivity
      (big K (fun x0 =>
         big K (fun x1 =>
           coeff v x0 * (entry Gamma x0 x1 * coeff w x1 * tail_sum x1 ws)))).
    { apply big_ext. intros x0 _. rewrite tail_sum_cons.
      now rewrite big_scale. }
    rewrite big_swap. apply big_ext. intros x1 Hx1.
    rewrite coeff_step by assumption.
    rewrite Rmult_assoc, (Rmult_comm (coeff w x1)), <- big_scale_r.
    rewrite <- big_scale_r. apply big_ext. intros x0 _. lra.
Qed.

Lemma direct_sum_big (rho omega0 : list R) (ws : list (list R)) :
  length omega0 = length rho ->
  sum (map (joint_density rho Gamma (omega0 :: ws))
           (state_paths K (S (length ws))))
    = big K (fun x0 => coeff (cwiseProduct omega0 rho) x0 * tail_sum x0 ws).
Proof.
  intros Hlen. cbn [state_paths]. rewrite sum_map_flat_map.
  unfold big. f_equal. apply map_ext. intros x0.
  rewrite map_map. cbn [joint_density].
  rewrite sum_map_scale, coeff_cwiseProduct by assumption.
  unfold tail_sum. lra.
Qed.

(** The unscaled recursion as a fold over the observation columns. *)
Lemma unscaled_fold (omegas : MatrixXd) (rho : list R) (n : nat) :
  (n < length (columns omegas))%nat ->
  unscaled omegas Gamma rho n
    = fold_left step (firstn n (tl (columns omegas)))
                (cwiseProduct (col omegas 0) rho).
Proof.
  induction n as [|n IH]; intros Hn; [reflexivity|].
  cbn [unscaled]. rewrite IH by lia.
  destruct (columns omegas) as [|w0 ws] eqn:Hcols; [cbn in Hn; lia|].
  cbn [tl]. cbn [length] in Hn.
  destruct (nth_lookup_or_length ws n []) as [Hl|Hl]; [|lia].
  rewrite (take_S_r _ _ _ Hl).
  rewrite fold_left_app. cbn [fold_left]. unfold step at 2.
  unfold col. rewrite Hcols. reflexivity.
Qed.

(** Direct summation gives the total of the last unscaled column. *)
Lemma direct_sum_unscaled (omegas : MatrixXd) (rho : list R) (n : nat) :
  length (columns omegas) = S n ->
  Forall (fun w : list R => length w = K) (columns omegas) ->
  length rho = K ->
  sum (map (joint_density rho Gamma (columns omegas)) (state_paths K (S n)))
    = sum (unscaled omegas Gamma rho n).
Proof.
  intros Hcols Hlen Hrho.
  rewrite unscaled_fold by lia.
  unfold col. destruct (columns omegas) as [|w0 ws]; [discriminate|].
  cbn [length] in Hcols. injection Hcols as Hws.
  apply List.Forall_cons_iff in Hlen. destruct Hlen as [Hw0 Hws'].
  cbn [tl nth]. rewrite firstn_all2 by lia.
  rewrite <- Hws, direct_sum_big by congruence.
  apply path_sum_fold; [|assumption].
  rewrite length_cwiseProduct, Hw0, Hrho. apply Nat.min_id.
Qed.

End PathSum.

(** ** Positivity of the unscaled forward columns *)

Section Positivity.
Import Eigen Spec.

Lemma Rleb_true (x y : R) : err.Rleb x y = true -> x <= y.
Proof. unfold err.Rleb. destruct (Rle_dec x y); [trivial | discriminate]. Qed.

Lemma simplex_nonneg (tol : R) (v : list R) (i : nat) :
  err.is_simplex tol v = true -> 0 <= coeff v i.
Proof.
  unfold err.is_simplex. intros H. apply andb_prop in H as [_ H].
  unfold coeff. destruct (Nat.lt_ge_cases i (length v)) as [Hi|Hi].
  - apply Rleb_true. rewrite forallb_forall in H. apply H.
    now apply nth_In.
  - rewrite nth_overflow by lia. lra.
Qed.

Lemma simplex_sum_pos (tol : R) (v : list R) :
  tol < 1 -> err.is_simplex tol v = true -> 0 < sum v.
Proof.
  unfold err.is_simplex. intros Htol H. apply andb_prop in H as [H _].
  apply Rleb_true in H. unfold Rabs in H.
  destruct (Rcase_abs (1 - sum v)); lra.
Qed.

Lemma coeff_row0 (m : MatrixXd) (i j : nat) :
  coeff (row0 m i) j = entry m i j.
Proof.
  unfold row0, entry, col. unfold coeff at 1.
  destruct (Nat.lt_ge_cases j (length (columns m))) as [Hj|Hj].
  - rewrite (nth_indep _ 0 ((fun c : list R => coeff c i) []))
      by (now rewrite length_map).
    apply (map_nth (fun c : list R => coeff c i) (columns m) [] j).
  - rewrite !nth_overflow by (try rewrite length_map; lia).
    unfold coeff. now destruct i.
Qed.

Lemma col_array_exp (m : MatrixXd) (n : nat) :
  col (array_exp m) n = map exp (col m n).
Proof.
  unfold col, array_exp. cbn [columns].
  change (@nil R) with (map exp []) at 1. apply map_nth.
Qed.

Lemma coeff_map_exp_pos (c : list R) (j : nat) :
  (j < length c)%nat -> 0 < coeff (map exp c) j.
Proof.
  intros Hj. unfold coeff.
  rewrite (nth_indep _ 0 (exp 0)) by (now rewrite length_map).
  rewrite map_nth. apply exp_pos.
Qed.

Variable Gamma : MatrixXd.
Variable K : nat.
Hypothesis Gamma_columns : length (columns Gamma) = K.
Hypothesis Gamma_rows : Forall (fun c : list R => length c = K) (columns Gamma).
Hypothesis Gamma_nonneg : forall i j, 0 <= entry Gamma i j.
Hypothesis Gamma_row_pos :
  forall i, (i < K)%nat -> 0 < big K (fun j => entry Gamma i j).

(** A column of non-negative weights with some weight in it. *)
Let weighted (u : list R) : Prop :=
  length u = K /\ (forall i, 0 <= coeff u i) /\ 0 < sum u.

Lemma weighted_first (omega0 rho : list R) :
  length omega0 = K -> (forall j, (j < K)%nat -> 0 < coeff omega0 j) ->
  weighted rho -> weighted (cwiseProduct omega0 rho).
Proof.
  intros Hw Hpos (Hlen & Hnn & Hsum). unfold weighted.
  assert (Hc : forall i, (i < K)%nat ->
            coeff (cwiseProduct omega0 rho) i = coeff omega0 i * coeff rho i)
    by (intros; apply coeff_cwiseProduct; congruence).
  assert (Hl : length (cwiseProduct omega0 rho) = K)
    by (rewrite length_cwiseProduct, Hw, Hlen; apply Nat.min_id).
  repeat split; [exact Hl | |].
  - intros i. destruct (Nat.lt_ge_cases i K) as [Hi|Hi].
    + rewrite Hc by assumption. apply Rmult_le_pos; [|apply Hnn].
      left. now apply Hpos.
    + unfold coeff. rewrite nth_overflow by lia. lra.
  - rewrite sum_big in Hsum. rewrite Hlen in Hsum.
    destruct (big_pos_term _ _ Hsum) as (i & Hi & Hri).
    rewrite sum_big, Hl.
    apply Rlt_le_trans with (coeff omega0 i * coeff rho i).
    + apply Rmult_lt_0_compat; [now apply Hpos | exact Hri].
    + rewrite <- Hc by assumption.
      apply big_ge_term with (f := coeff (cwiseProduct omega0 rho));
        [|assumption].
      intros k Hk. rewrite Hc by assumption.
      apply Rmult_le_pos; [left; now apply Hpos | apply Hnn].
Qed.

Lemma weighted_step (u w : list R) :
  length w = K -> (forall j, (j < K)%nat -> 0 < coeff w j) ->
  weighted u -> weighted (cwiseProduct w (transpose_times Gamma u)).
Proof using Gamma_columns Gamma_rows Gamma_nonneg Gamma_row_pos.
  intros Hw Hpos (Hlen & Hnn & Hsum). unfold weighted.
  set (s := cwiseProduct w (transpose_times Gamma u)).
  assert (Hl : length s = K)
    by (apply (length_step Gamma K Gamma_columns); exact Hw).
  assert (Hc : forall j, (j < K)%nat ->
            coeff s j = coeff w j * big K (fun i => entry Gamma i j * coeff u i))
    by (intros; now apply (coeff_step Gamma K Gamma_columns Gamma_rows)).
  assert (Hin : forall j, 0 <= big K (fun i => entry Gamma i j * coeff u i)).
  { intros j. apply big_nonneg. intros i _.
    apply Rmult_le_pos; [apply Gamma_nonneg | apply Hnn]. }
  assert (Hterm : forall j, (j < K)%nat -> 0 <= coeff s j).
  { intros j Hj. rewrite Hc by assumption.
    apply Rmult_le_pos; [left; now apply Hpos | apply Hin]. }
  repeat split; [exact Hl | |].
  - intros j. destruct (Nat.lt_ge_cases j K) as [Hj|Hj].
    + now apply Hterm.
    + unfold coeff. rewrite nth_overflow by lia. lra.
  - rewrite sum_big in Hsum. rewrite Hlen in Hsum.
    destruct (big_pos_term _ _ Hsum) as (i & Hi & Hui).
    destruct (big_pos_term _ _ (Gamma_row_pos i Hi)) as (j & Hj & Hgij).
    rewrite sum_big, Hl.
    apply Rlt_le_trans with (coeff s j); [|now apply big_ge_term].
    rewrite Hc by assumption.
    apply Rmult_lt_0_compat; [now apply Hpos|].
    apply Rlt_le_trans with (entry Gamma i j * coeff u i).
    + now apply Rmult_lt_0_compat.
    + apply big_ge_term with (f := fun i => entry Gamma i j * coeff u i);
        [|assumption].
      intros k _. apply Rmult_le_pos; [apply Gamma_nonneg | apply Hnn].
Qed.

Lemma weighted_unscaled (omegas : MatrixXd) (rho : list R) (n : nat) :
  (forall k, (k <= n)%nat ->
     length (col omegas k) = K /\
     forall j, (j < K)%nat -> 0 < coeff (col omegas k) j) ->
  weighted rho -> weighted (unscaled omegas Gamma rho n).
Proof using Gamma_columns Gamma_rows Gamma_nonneg Gamma_row_pos.
  intros Hom Hrho. induction n as [|n IH]; cbn [unscaled].
  - destruct (Hom O) as [Hl Hp]; [lia|]. now apply weighted_first.
  - destruct (Hom (S n)) as [Hl Hp]; [lia|].
    apply weighted_step; trivial. apply IH. intros k Hk. apply Hom. lia.
Qed.

Lemma weighted_positive (u : list R) :
  weighted u -> 0 < sum u /\ 0 < maxCoeff u.
Proof.
  intros (_ & _ & Hs). split; [exact Hs | now apply maxCoeff_pos].
Qed.

(** The scaled columns and the log-normalisers of the code in terms of
    the unscaled recursion. *)
Lemma scaled_unscaled (omegas : MatrixXd) (rho : list R)
    (A : MatrixXd) (L : list R) (N : nat) :
  (forall n, (n <= N)%nat -> 0 < maxCoeff (unscaled omegas Gamma rho n)) ->
  (let first := cwiseProduct (col omegas 0) rho in
   col A 0 = div_scalar first (maxCoeff first) /\
   coeff L 0 = ln (maxCoeff first)) ->
  (forall n, (n < N)%nat ->
     let u := cwiseProduct (col omegas (n + 1))
                (transpose_times Gamma (col A n)) in
     col A (n + 1) = div_scalar u (maxCoeff u) /\
     coeff L (n + 1) = ln (maxCoeff u) + coeff L n) ->
  forall n, (n <= N)%nat ->
    col A n = div_scalar (unscaled omegas Gamma rho n)
                         (maxCoeff (unscaled omegas Gamma rho n)) /\
    coeff L n = ln (maxCoeff (unscaled omegas Gamma rho n)).
Proof.
  intros Hpos H0 Hstep. induction n as [|n IH]; intros Hn.
  - exact H0.
  - destruct IH as [HA HL]; [lia|].
    destruct (Hstep n ltac:(lia)) as [HA' HL'].
    replace (n + 1)%nat with (S n) in HA', HL' by lia.
    cbn zeta in HA', HL'.
    rewrite HA, transpose_times_div_scalar, cwiseProduct_div_scalar
      in HA', HL'.
    change (cwiseProduct (col omegas (S n))
              (transpose_times Gamma (unscaled omegas Gamma rho n)))
      with (unscaled omegas Gamma rho (S n)) in HA', HL'.
    assert (HM : 0 < maxCoeff (unscaled omegas Gamma rho n))
      by (apply Hpos; lia).
    assert (HM' : 0 < maxCoeff (unscaled omegas Gamma rho (S n)))
      by (apply Hpos; lia).
    rewrite maxCoeff_div_scalar in HA', HL' by assumption.
    split.
    + rewrite HA', div_scalar_div_scalar. f_equal. field. lra.
    + rewrite HL', HL, ln_quotient by assumption. lra.
Qed.

End Positivity.

(** ** The rescaled forward pass against direct summation *)

Section DirectSummation.
Import Eigen Spec.

Lemma entry_outside (Gamma : MatrixXd) (K i j : nat) :
  Forall (fun c : list R => length c = K) (columns Gamma) ->
  (K <= i)%nat -> entry Gamma i j = 0.
Proof.
  intros Hrows Hi. unfold entry, col, coeff.
  destruct (Nat.lt_ge_cases j (length (columns Gamma))) as [Hj|Hj].
  - apply nth_overflow.
    rewrite (proj1 (List.Forall_forall _ _) Hrows _ (nth_In _ _ Hj)). lia.
  - rewrite (nth_overflow (columns Gamma)) by lia. now destruct i.
Qed.

Lemma forward_equals_direct_summation
    (tol : R) (log_omegas Gamma : MatrixXd) (rho : list R)
    (n_transitions : nat) :
  tol < 1 -> wf log_omegas -> wf Gamma ->
  cols log_omegas = S n_transitions ->
  preconditions tol (rows log_omegas) Gamma rho ->
  exists (lp : R) (alphas : MatrixXd) (alpha_log_norms : list R),
    internal.hmm_marginal_lpdf log_omegas Gamma rho
      (Zero (rows log_omegas) (n_transitions + 1))
      (ZeroV (n_transitions + 1))
      = Some (lp, alphas, alpha_log_norms, array_exp log_omegas) /\
    lp = direct_summation log_omegas Gamma rho.
Proof.
  intros Htol [Hlo_cols Hlo_rows] [HG_cols HG_rows] Hcols
    (Hsq & Hsize & Hsimplex & Hrho_len & Hrho).
  set (K := rows log_omegas) in *.
  set (omegas := array_exp log_omegas).
  assert (HGc : length (columns Gamma) = K) by congruence.
  assert (HGr : Forall (fun c : list R => length c = K) (columns Gamma))
    by (now rewrite <- Hsize, <- Hsq).
  assert (HGnn : forall i j, 0 <= entry Gamma i j).
  { intros i j. destruct (Nat.lt_ge_cases i K) as [Hi|Hi].
    - rewrite <- coeff_row0. apply (simplex_nonneg tol).
      apply Hsimplex. lia.
    - rewrite (entry_outside Gamma K) by assumption. lra. }
  assert (HGpos : forall i, (i < K)%nat -> 0 < big K (fun j => entry Gamma i j)).
  { intros i Hi.
    assert (Hs : 0 < sum (row0 Gamma i))
      by (apply (simplex_sum_pos tol); [exact Htol | apply Hsimplex; lia]).
    rewrite sum_big in Hs. unfold row0 in Hs at 1.
    rewrite length_map, HGc in Hs.
    erewrite big_ext; [exact Hs|]. intros j _. now rewrite coeff_row0. }
  assert (Hw_rho : length rho = K /\ (forall i, 0 <= coeff rho i) /\ 0 < sum rho).
  { repeat split; [exact Hrho_len | | now apply (simplex_sum_pos tol)].
    intros i. now apply (simplex_nonneg tol). }
  assert (Hom : forall k, (k <= n_transitions)%nat ->
            length (col omegas k) = K /\
            forall j, (j < K)%nat -> 0 < coeff (col omegas k) j).
  { intros k Hk. unfold omegas. rewrite col_array_exp.
    assert (Hl : length (col log_omegas k) = K).
    { unfold col. apply (proj1 (List.Forall_forall _ _) Hlo_rows).
      apply nth_In. lia. }
    split; [now rewrite length_map|].
    intros j Hj. apply coeff_map_exp_pos. lia. }
  assert (Hweighted : forall n, (n <= n_transitions)%nat ->
            0 < sum (unscaled omegas Gamma rho n) /\
            0 < maxCoeff (unscaled omegas Gamma rho n)).
  { intros n Hn. apply (weighted_positive K).
    apply (weighted_unscaled Gamma K HGc HGr HGnn HGpos); [|exact Hw_rho].
    intros k Hk. apply Hom. lia. }
  destruct (internal_hmm_marginal_lpdf_spec log_omegas Gamma rho
              (Zero K (n_transitions + 1)) (ZeroV (n_transitions + 1))
              n_transitions Hcols)
    as (lp & A & L & Heq & HA0 & HL0 & Hstep & Hlp).
  { unfold Zero. cbn [columns]. rewrite repeat_length. lia. }
  { unfold ZeroV. rewrite repeat_length. lia. }
  exists lp, A, L. split; [exact Heq|].
  destruct (scaled_unscaled Gamma K HGc omegas rho A L n_transitions)
    with (n := n_transitions) as [HA HL].
  { intros n Hn. now apply Hweighted. }
  { split; assumption. }
  { exact Hstep. }
  { lia. }
  destruct (Hweighted n_transitions (Nat.le_refl _)) as [Hs HM].
  rewrite Hlp, HA, HL, sum_div_scalar, ln_quotient by assumption.
  unfold direct_summation. fold omegas. fold K. rewrite Hcols.
  rewrite (direct_sum_unscaled Gamma K HGc HGr omegas rho n_transitions).
  - lra.
  - unfold omegas, array_exp. cbn [columns]. rewrite length_map. congruence.
  - unfold omegas, array_exp. cbn [columns].
    apply List.Forall_forall. intros c Hc. apply in_map_iff in Hc.
    destruct Hc as (c0 & <- & Hc0). rewrite length_map.
    now apply (proj1 (List.Forall_forall _ _) Hlo_rows).
  - exact Hrho_len.
Qed.

End DirectSummation.

Lemma is_simplex_intro (tol : R) (v : list R) :
  (forall x, In x v -> 0 <= x) -> Rabs (1 - Eigen.sum v) <= tol ->
  err.is_simplex tol v = true.
Proof.
  intros Hnn Hsum. unfold err.is_simplex. apply andb_true_intro. split.
  - unfold err.Rleb. destruct (Rle_dec _ _); [reflexivity | contradiction].
  - apply forallb_forall. intros x Hx. unfold err.Rleb.
    destruct (Rle_dec 0 x) as [|Hn]; [reflexivity|].
    exfalso. apply Hn. now apply Hnn.
Qed.

Lemma example_chain_preconditions :
  Eigen.wf Spec.example_Gamma /\
  Spec.preconditions 0 2 Spec.example_Gamma Spec.example_rho.
Proof.
  split.
  - split; [reflexivity|]. repeat constructor.
  - unfold Spec.preconditions. repeat split.
    + intros i Hi. cbn in Hi.
      assert (i = 0 \/ i = 1)%nat as [-> | ->] by lia;
        (apply is_simplex_intro;
         [ cbn; intros x Hx; repeat destruct Hx as [<-|Hx]; try lra; contradiction
         | cbn; match goal with |- Rabs ?e <= _ => replace e with 0 by lra end;
           rewrite Rabs_R0; lra ]).
    + apply is_simplex_intro.
      * cbn. intros x Hx. repeat destruct Hx as [<-|Hx]; try lra; contradiction.
      * cbn. match goal with |- Rabs ?e <= _ => replace e with 0 by lra end.
        rewrite Rabs_R0. lra.
Qed.

(** C4, as amended.  On an input that meets the preconditions (with a
    tolerance below 1 on the simplexes) and has at least one observation,
    the rescaled forward pass returns, in exact arithmetic, the logarithm
    of the sum of the joint probabilities of all paths of hidden states.
    In particular this holds for the 2-state chain with rho = (0.5, 0.5)
    and Gamma = ((0.9, 0.1), (0.2, 0.8)) and any 3 observations, where the
    enumeration has 8 paths.  No bound is stated for binary64: there the
    forward pass can return NaN on a valid input. *)
Theorem hmm_forward_pass_is_direct_summation :
  (forall (tol : R) (log_omegas Gamma : Eigen.MatrixXd) (rho : list R)
          (n_transitions : nat),
     tol < 1 -> Eigen.wf log_omegas -> Eigen.wf Gamma ->
     Eigen.cols log_omegas = S n_transitions ->
     Spec.preconditions tol (Eigen.rows log_omegas) Gamma rho ->
     exists (lp : R) (alphas : Eigen.MatrixXd) (alpha_log_norms : list R),
       internal.hmm_marginal_lpdf log_omegas Gamma rho
         (Eigen.Zero (Eigen.rows log_omegas) (n_transitions + 1))
         (Eigen.ZeroV (n_transitions + 1))
         = Some (lp, alphas, alpha_log_norms, Eigen.array_exp log_omegas) /\
       lp = Spec.direct_summation log_omegas Gamma rho) /\
  (forall a0 a1 b0 b1 c0 c1 : R,
     let log_omegas := Eigen.Matrix 2 3 [[a0; a1]; [b0; b1]; [c0; c1]] in
     length (Spec.state_paths 2 3) = 8%nat /\
     exists (lp : R) (alphas : Eigen.MatrixXd) (alpha_log_norms : list R),
       internal.hmm_marginal_lpdf log_omegas Spec.example_Gamma
         Spec.example_rho (Eigen.Zero 2 3) (Eigen.ZeroV 3)
         = Some (lp, alphas, alpha_log_norms, Eigen.array_exp log_omegas) /\
       lp = Spec.direct_summation log_omegas Spec.example_Gamma
              Spec.example_rho).
Proof.
  split.
  - intros tol log_omegas Gamma rho n_transitions.
    apply forward_equals_direct_summation.
  - intros a0 a1 b0 b1 c0 c1 log_omegas. split; [reflexivity|].
    destruct example_chain_preconditions as [Hwf Hpre].
    apply (forward_equals_direct_summation 0 log_omegas Spec.example_Gamma
             Spec.example_rho 2); trivial.
    + lra.
    + split; [reflexivity|]. repeat constructor.
Qed.

(** ** The adjoint method: the Jacobian-adjoint products *)

Section AdjointProducts.
Import Eigen.















End AdjointProducts.



(** * Instances

    Each theorem above that has hypotheses, applied to a concrete input. *)

(** C1 on the example chain with two observations of density 1. *)
Lemma hmm_forward_pass_recursion_witness :
  exists (lp : R) (alphas : Eigen.MatrixXd) (alpha_log_norms : list R),
    internal.hmm_marginal_lpdf (Eigen.Matrix 2 2 [[0; 0]; [0; 0]])
      Spec.example_Gamma Spec.example_rho (Eigen.Zero 2 2) (Eigen.ZeroV 2)
      = Some (lp, alphas, alpha_log_norms,
              Eigen.array_exp (Eigen.Matrix 2 2 [[0; 0]; [0; 0]])) /\
    lp = ln (Eigen.sum (Eigen.col alphas 1)) + Eigen.coeff alpha_log_norms 1.
Proof.
  destruct (hmm_forward_pass_recursion (Eigen.Matrix 2 2 [[0; 0]; [0; 0]])
              Spec.example_Gamma Spec.example_rho (Eigen.Zero 2 2)
              (Eigen.ZeroV 2) 1 eq_refl eq_refl eq_refl)
    as (lp & A & L & Heq & _ & _ & _ & Hlp).
  exists lp, A, L. split; [exact Heq | exact Hlp].
Defined.


(** C3 on a transition matrix whose first row sums to 1.5. *)
Lemma hmm_marginal_lpdf_checks_first_witness :
  hmm_marginal_lpdf 1e-8 []
    (hmm.double_matrix (Eigen.Matrix 2 1 [[0; 0]]))
    (hmm.double_matrix (Eigen.Matrix 2 2 [[1; 0.2]; [0.5; 0.8]]))
    (hmm.double_vector [0.5; 0.5])
  = Some ([], inl (err.domain_error "hmm_marginal_lpdf" "Gamma[i, ]")).
Proof.
  destruct (hmm_marginal_lpdf_checks_first 1e-8 []
              (hmm.double_matrix (Eigen.Matrix 2 1 [[0; 0]]))
              (hmm.double_matrix (Eigen.Matrix 2 2 [[1; 0.2]; [0.5; 0.8]]))
              (hmm.double_vector [0.5; 0.5]) eq_refl)
    as (_ & _ & Hrow & _).
  apply (Hrow eq_refl eq_refl 0%nat (Nat.lt_0_succ 1)).
  unfold err.is_simplex, err.Rleb.
  destruct (Rle_dec _ _) as [Hsum|Hsum]; [exfalso|reflexivity].
  unfold Eigen.sum, Eigen.row0, Eigen.coeff, hmm.value_of_rec_m in Hsum.
  cbn [map fold_right Eigen.columns nth] in Hsum.
  unfold Rabs in Hsum.
  destruct (Rcase_abs _) in Hsum; lra.
Defined.

(** C4 on the example chain with three observations of density 1. *)
Lemma hmm_forward_pass_is_direct_summation_witness :
  exists (lp : R) (alphas : Eigen.MatrixXd) (alpha_log_norms : list R),
    internal.hmm_marginal_lpdf (Eigen.Matrix 2 3 [[0; 0]; [0; 0]; [0; 0]])
      Spec.example_Gamma Spec.example_rho (Eigen.Zero 2 (2 + 1))
      (Eigen.ZeroV (2 + 1))
      = Some (lp, alphas, alpha_log_norms,
              Eigen.array_exp (Eigen.Matrix 2 3 [[0; 0]; [0; 0]; [0; 0]])) /\
    lp = Spec.direct_summation (Eigen.Matrix 2 3 [[0; 0]; [0; 0]; [0; 0]])
           Spec.example_Gamma Spec.example_rho.
Proof.
  apply (proj1 hmm_forward_pass_is_direct_summation 0
           (Eigen.Matrix 2 3 [[0; 0]; [0; 0]; [0; 0]])
           Spec.example_Gamma Spec.example_rho 2%nat).
  - lra.
  - split; [reflexivity|]. repeat constructor.
  - exact (proj1 example_chain_preconditions).
  - reflexivity.
  - exact (proj2 example_chain_preconditions).
Defined.

(** C5 on the stack holding a = 3 and b = 1, with seed 1. *)
Lemma scal_squared_distance_vv_contract_witness :
  let s := [rev.Vari 3 0 rev.plain_vari; rev.Vari 1 0 rev.plain_vari] in
  let r := squared_distance.scal_vv s (rev.Var 0) (rev.Var 1) in
  rev.val_at (fst r) (rev.vi_ (snd r)) = (3 - 1) ^ 2 /\
  rev.adj_at (fst r) (rev.vi_ (snd r)) = 0.
Proof.
  destruct (proj1 scal_squared_distance_vv_contract
              [rev.Vari 3 0 rev.plain_vari; rev.Vari 1 0 rev.plain_vari]
              (rev.Var 0) (rev.Var 1) 1 (Nat.lt_0_succ 1) (Nat.lt_succ_diag_r 1))
    as (Hval & Hadj & _).
  split; [exact Hval | exact Hadj].
Defined.

(** C6 on a stack with one variable and its squared distance to 1. *)
Lemma constant_operand_skip_witness :
  let t := [rev.Vari 3 0 rev.plain_vari;
            rev.Vari 4 1 (rev.scal_squared_distance_vd_vari 0 1)] in
  length (rev.chain t 1) = 2%nat.
Proof.
  destruct constant_operand_skip as (_ & _ & Hvd & _).
  exact (proj1 (Hvd [rev.Vari 3 0 rev.plain_vari;
                     rev.Vari 4 1 (rev.scal_squared_distance_vd_vari 0 1)]
                  1%nat 0%nat 1 4 1 eq_refl)).
Defined.

(** C7 on the free vector (0, 0) with output adjoint (1, 1). *)
Lemma ordered_constrain_adjoint_jacobian_witness :
  let op := fst (ordered_constrain_op.call (ordered_constrain_op.Op 0 []) [0; 0]) in
  length (ordered_constrain_op.multiply_adjoint_jacobian op [1; 1]) = 2%nat /\
  Eigen.coeff (ordered_constrain_op.multiply_adjoint_jacobian op [1; 1]) 0
    = Eigen.sum [1; 1].
Proof.
  destruct (ordered_constrain_adjoint_jacobian (ordered_constrain_op.Op 0 [])
              [0; 0] [1; 1] eq_refl)
    as (_ & _ & _ & _ & Hlen & Hzero & _).
  split; [exact Hlen | exact (Hzero (Nat.lt_0_succ 1))].
Defined.

(** C8 on the matrix (1, +infinity). *)
Lemma is_finite_check_returns_on_first_element_witness :
  is_finite.check (err.mat 1 2 [1%float; infinity]) = Some true.
Proof.
  exact (proj1 is_finite_check_returns_on_first_element 1%nat 2%nat
           1%float [infinity] eq_refl eq_refl).
Defined.


(** C9 on the packed copy of a 2 x 2 device matrix with no pending
    event. *)
Lemma opencl_packed_copy_misses_pending_write_witness :
  exists (k r : opencl.command),
    opencl.packed_copy_to_host (opencl.Queue [] 0) 9
      (opencl.MatrixCL 2 2 7 [] [])
      = (opencl.Queue
           [opencl.Enqueue k; opencl.Enqueue r;
            opencl.HostWait (opencl.completion r)] 2,
         opencl.MatrixCL 2 2 7 [] []) /\
    opencl.operation_of r = opencl.ReadBuffer 9 /\
    opencl.wait_list r = [] /\
    ~ opencl.waits_for [opencl.Enqueue k] r [opencl.completion k].
Proof.
  destruct (opencl_packed_copy_misses_pending_write (opencl.Queue [] 0) 9
              (opencl.MatrixCL 2 2 7 [] []) (Nat.neq_succ_0 1))
    as (k & r & Heq & _ & Hread & Hwait & Hmiss).
  - intros e [].
  - intros e [].
  - exists k, r. repeat split; assumption.
Defined.

(** C10 on two vectors of size 2. *)
Lemma squared_distance_mixed_overloads_agree_witness :
  let s := [rev.Vari 3 0 rev.plain_vari; rev.Vari 1 0 rev.plain_vari] in
  squared_distance.mat_dv s (err.mat 2 1 [1; 2])
    (err.mat 2 1 [rev.Var 0; rev.Var 1])
  = squared_distance.mat_vd s (err.mat 2 1 [rev.Var 0; rev.Var 1])
      (err.mat 2 1 [1; 2]).
Proof.
  exact (proj1 (squared_distance_mixed_overloads_agree
                  [rev.Vari 3 0 rev.plain_vari; rev.Vari 1 0 rev.plain_vari]
                  (err.mat 2 1 [1; 2]) (err.mat 2 1 [rev.Var 0; rev.Var 1])
                  (or_intror eq_refl) (or_intror eq_refl) eq_refl)).
Defined.

(** * Further properties of the sources *)

(** ** Checks on doubles *)

Section FloatChecks.
Import checks.

(** A checking loop stops at the first index that fails. *)
Lemma for_each_first_failure (ok : nat -> bool)
    (error : nat -> domain_error_thrown) (len start : nat) :
  match for_each (seq start len)
          (fun n => if negb (ok n) then inl (error n) else inr tt) with
  | inr _ => forall n, (start <= n)%nat -> (n < start + len)%nat -> ok n = true
  | inl e =>
      exists i, e = error i /\ (start <= i)%nat /\ (i < start + len)%nat /\
                ok i = false /\
                forall j, (start <= j)%nat -> (j < i)%nat -> ok j = true
  end.
Proof.
  revert start. induction len as [|len IH]; intros start.
  - cbn. intros n Hn Hlt. lia.
  - cbn [seq for_each]. destruct (ok start) eqn:Hstart; cbn [negb].
    + specialize (IH (S start)).
      destruct (for_each (seq (S start) len) _) as [e|[]].
      * destruct IH as (i & He & Hi & Hlt & Hfail & Hbefore).
        exists i. repeat split; trivial; try lia.
        intros j Hj Hji. destruct (Nat.eq_dec j start) as [->|Hne];
          [exact Hstart | apply Hbefore; lia].
      * intros n Hn Hlt. destruct (Nat.eq_dec n start) as [->|Hne];
          [exact Hstart | apply IH; lia].
    + exists start. repeat split; trivial; intros; lia.
Qed.

Lemma forallb_nth (ok : float -> bool) (y : list float) :
  forallb ok y = true <->
  forall n, (n < length y)%nat -> ok (nth n y PrimFloat.zero) = true.
Proof.
  rewrite forallb_forall. split.
  - intros H n Hn. apply H. now apply nth_In.
  - intros H x Hx. destruct (In_nth y x PrimFloat.zero Hx) as (n & Hn & <-).
    now apply H.
Qed.

(** The outcome of a vector check in terms of the elements. *)
Lemma vec_check_outcome (ok : float -> bool) (function name : string)
    (y : list float) :
  match for_each (seq 0 (length y))
          (fun n => if negb (ok (nth n y PrimFloat.zero))
                    then inl (domain_error_vec function name n) else inr tt) with
  | inr _ => forallb ok y = true
  | inl e =>
      exists i, e = domain_error_vec function name i /\ (i < length y)%nat /\
                ok (nth i y PrimFloat.zero) = false /\
                forall j, (j < i)%nat -> ok (nth j y PrimFloat.zero) = true
  end.
Proof.
  pose proof (for_each_first_failure (fun n => ok (nth n y PrimFloat.zero))
                (domain_error_vec function name) (length y) 0) as H.
  cbn beta in H.
  destruct (for_each _ _) as [e|[]].
  - destruct H as (i & He & _ & Hi & Hfail & Hbefore).
    exists i. repeat split; trivial. intros j Hj. apply Hbefore; lia.
  - apply forallb_nth. intros n Hn. apply H; lia.
Qed.

Lemma finite_vec_check_passes (function name : string) (y : list float) :
  is_finite.allFinite y = true -> finite_vec_check function name y = inr tt.
Proof.
  intros Hall. unfold finite_vec_check.
  pose proof (vec_check_outcome PrimFloat.is_finite function name y) as H.
  destruct (for_each _ _) as [e|[]]; [|reflexivity].
  destruct H as (i & _ & Hi & Hfail & _).
  unfold is_finite.allFinite in Hall.
  rewrite (proj1 (forallb_nth _ _) Hall i Hi) in Hfail. discriminate.
Qed.

End FloatChecks.

(** X1.  [check_finite] on a vector of doubles passes exactly when every
    element is finite; otherwise it throws the domain error for the first
    element that is infinite or NaN, with that element's index. *)
Theorem check_finite_vector_outcome (function name : string) (y : list float) :
  match checks.finite_vec_check function name y with
  | inr _ => forallb PrimFloat.is_finite y = true
  | inl e =>
      exists i, e = checks.domain_error_vec function name i /\
                (i < length y)%nat /\
                PrimFloat.is_finite (nth i y PrimFloat.zero) = false /\
                forall j, (j < i)%nat ->
                  PrimFloat.is_finite (nth j y PrimFloat.zero) = true
  end.
Proof. apply vec_check_outcome. Qed.

(** X2.  The specialisation of [check_finite] for Eigen matrices has the
    same outcome as the generic vector check on the coefficients: its
    [allFinite] test is only a shortcut. *)
Theorem check_finite_eigen_agrees (function name : string) (y : err.Mat float) :
  checks.finite_eigen_check function name y
    = checks.finite_vec_check function name (err.mat_data y).
Proof.
  unfold checks.finite_eigen_check.
  destruct (is_finite.allFinite (err.mat_data y)) eqn:Hall; cbn [negb].
  - symmetry. now apply finite_vec_check_passes.
  - reflexivity.
Qed.

(** X3.  [check_nonnegative] on a vector of doubles passes exactly when
    every element is [>= 0]; otherwise it throws for the first element
    that is negative or NaN, with that element's index. *)
Theorem check_nonnegative_vector_outcome (function name : string)
    (y : list float) :
  match checks.nonnegative_vec_check function name y with
  | inr _ => forallb checks.ge_zero y = true
  | inl e =>
      exists i, e = checks.domain_error_vec function name i /\
                (i < length y)%nat /\
                checks.ge_zero (nth i y PrimFloat.zero) = false /\
                forall j, (j < i)%nat ->
                  checks.ge_zero (nth j y PrimFloat.zero) = true
  end.
Proof. apply vec_check_outcome. Qed.

(** X4.  The boolean helper [check] of is_finite.hpp returns a value only
    on a matrix with a coefficient that is not finite, and the value then
    tells whether the first coefficient is finite; on a matrix whose
    coefficients are all finite control reaches the end of the function.
    So whenever it answers [false], [check_finite] throws at index 0. *)
Theorem is_finite_check_characterised (y : err.Mat float) :
  is_finite.check y
    = (if is_finite.allFinite (err.mat_data y) then None
       else Some (PrimFloat.is_finite (nth 0 (err.mat_data y) PrimFloat.zero)))
  /\
  (forall function name,
     is_finite.check y = Some false ->
     checks.finite_eigen_check function name y
       = inl (checks.domain_error_vec function name 0)).
Proof.
  assert (Hchar : is_finite.check y
    = (if is_finite.allFinite (err.mat_data y) then None
       else Some (PrimFloat.is_finite (nth 0 (err.mat_data y) PrimFloat.zero)))).
  { unfold is_finite.check, err.mat_size.
    destruct (err.mat_data y) as [|first others]; [reflexivity|].
    destruct (is_finite.allFinite (first :: others)); cbn [negb];
      [reflexivity|].
    cbn [length seq is_finite.for_loop]. unfold is_finite.check_body.
    cbn [nth]. now destruct (PrimFloat.is_finite first). }
  split; [exact Hchar|].
  intros function name Hfalse. rewrite Hchar in Hfalse.
  unfold checks.finite_eigen_check, err.mat_size.
  destruct (is_finite.allFinite (err.mat_data y)); [discriminate|].
  injection Hfalse as Hfirst. cbn [negb].
  destruct (err.mat_data y) as [|first others]; [discriminate Hfirst|].
  cbn [length seq checks.for_each nth] in *. now rewrite Hfirst.
Qed.

Section FloatFacts.
Import FloatAxioms SpecFloat.

Lemma SFeqb_refl_finite (s : bool) (m : positive) (e : Z) :
  SFeqb (S754_finite s m e) (S754_finite s m e) = true.
Proof.
  unfold SFeqb, SFcompare.
  destruct s; rewrite Z.compare_refl, Pos.compare_cont_refl; reflexivity.
Qed.

Lemma is_nan_Prim2SF (y : float) :
  PrimFloat.is_nan y = true <-> Prim2SF y = S754_nan.
Proof.
  unfold PrimFloat.is_nan. rewrite eqb_spec.
  destruct (Prim2SF y) as [s|s| |s m e].
  - destruct s; cbn; split; discriminate.
  - destruct s; cbn; split; discriminate.
  - cbn. split; reflexivity.
  - rewrite SFeqb_refl_finite. cbn. split; discriminate.
Qed.

Lemma Prim2SF_zero : Prim2SF PrimFloat.zero = S754_zero false.
Proof. reflexivity. Qed.

Lemma ge_zero_nan (y : float) :
  PrimFloat.is_nan y = true -> checks.ge_zero y = false.
Proof.
  intros Hnan. apply is_nan_Prim2SF in Hnan.
  unfold checks.ge_zero. rewrite leb_spec, Hnan, Prim2SF_zero. reflexivity.
Qed.

Lemma is_finite_nan (y : float) :
  PrimFloat.is_nan y = true -> PrimFloat.is_finite y = false.
Proof. intros Hnan. unfold PrimFloat.is_finite. now rewrite Hnan. Qed.

Lemma leb_zero_abs (a : float) :
  PrimFloat.is_nan a = false ->
  PrimFloat.leb PrimFloat.zero (PrimFloat.abs a) = true.
Proof.
  intros Hnum. rewrite leb_spec, abs_spec, Prim2SF_zero.
  destruct (Prim2SF a) as [s|s| |s m e] eqn:Ha; try reflexivity.
  apply is_nan_Prim2SF in Ha. congruence.
Qed.

End FloatFacts.

(** ** The forward pass on binary64 *)

Lemma is_nan_add_l (x y : float) :
  PrimFloat.is_nan x = true -> PrimFloat.is_nan (PrimFloat.add x y) = true.
Proof.
  intros Hx. apply is_nan_Prim2SF in Hx. apply is_nan_Prim2SF.
  rewrite FloatAxioms.add_spec, Hx. now destruct (Prim2SF y).
Qed.

(** C4, the floating-point clause refuted.  A 2-state chain with one
    observation whose log densities are -1000 is a valid input, and its
    log marginal likelihood by direct summation is -1000.  On binary64,
    with any [exp] that underflows to 0 at -1000 and any [log] that
    answers NaN on NaN, the first column of [alphas] is all zeros, its
    largest coefficient is 0, the rescaling divides 0 by 0, and the
    forward pass returns NaN. *)
Lemma hmm_forward_pass_binary64_counterexample :
  Eigen.wf (Eigen.Matrix 2 1 [[-1000; -1000]]) /\
  Eigen.wf (Eigen.Matrix 2 2 [[0.5; 0.5]; [0.5; 0.5]]) /\
  Spec.preconditions 0 2 (Eigen.Matrix 2 2 [[0.5; 0.5]; [0.5; 0.5]])
    [0.5; 0.5] /\
  Spec.direct_summation (Eigen.Matrix 2 1 [[-1000; -1000]])
    (Eigen.Matrix 2 2 [[0.5; 0.5]; [0.5; 0.5]]) [0.5; 0.5] = -1000 /\
  forall exp_ log_ : float -> float,
    exp_ (-1000)%float = 0%float ->
    PrimFloat.is_nan (log_ nan) = true ->
    exists (lp : float) (alphas : binary64.MatrixXd) (norms : list float)
           (omegas : binary64.MatrixXd),
      binary64.hmm_marginal_lpdf exp_ log_
        (binary64.Matrix 2 1 [[(-1000)%float; (-1000)%float]])
        (binary64.Matrix 2 2 [[0.5%float; 0.5%float]; [0.5%float; 0.5%float]])
        [0.5%float; 0.5%float]
        (binary64.Matrix 2 1 [[0%float; 0%float]]) [0%float]
      = Some (lp, alphas, norms, omegas) /\
      PrimFloat.is_nan lp = true.
Proof.
  assert (Hsimplex : err.is_simplex 0 [0.5; 0.5] = true).
  { apply is_simplex_intro.
    - cbn. intros x Hx. repeat destruct Hx as [<-|Hx]; try lra; contradiction.
    - cbn. match goal with |- Rabs ?e <= _ => replace e with 0 by lra end.
      rewrite Rabs_R0. lra. }
  split; [split; [reflexivity | repeat constructor]|].
  split; [split; [reflexivity | repeat constructor]|].
  split.
  { unfold Spec.preconditions. repeat split; trivial.
    intros i Hi. cbn in Hi.
    assert (i = 0 \/ i = 1)%nat as [-> | ->] by lia; exact Hsimplex. }
  split.
  { unfold Spec.direct_summation, Spec.joint_density, Eigen.array_exp,
      Eigen.sum, Eigen.coeff.
    cbn [Eigen.rows Eigen.cols Eigen.columns Spec.state_paths flat_map map
         seq app fold_right nth Spec.continuation].
    replace (0.5 * exp (-1000) * 1 + (0.5 * exp (-1000) * 1 + 0))
      with (exp (-1000)) by lra.
    apply ln_exp. }
  intros exp_ log_ Hexp Hlog.
  unfold binary64.hmm_marginal_lpdf, binary64.array_exp.
  cbn [binary64.cols binary64.columns binary64.rows map seq fold_left].
  rewrite !Hexp.
  eexists _, _, _, _. split; [reflexivity|].
  cbv -[PrimFloat.is_nan].
  now apply is_nan_add_l.
Qed.

Lemma vec_check_rejects (ok : float -> bool) (function name : string)
    (y : list float) (x : float) :
  In x y -> ok x = false ->
  exists i,
    checks.for_each (seq 0 (length y))
      (fun n => if negb (ok (nth n y PrimFloat.zero))
                then inl (checks.domain_error_vec function name n)
                else inr tt)
    = inl (checks.domain_error_vec function name i).
Proof.
  intros Hin Hbad.
  pose proof (vec_check_outcome ok function name y) as H.
  destruct (checks.for_each _ _) as [e|[]].
  - destruct H as (i & -> & _). now exists i.
  - rewrite forallb_forall in H. rewrite (H x Hin) in Hbad. discriminate.
Qed.

(** X5.  A NaN never passes [check_nonnegative] or [check_finite]: the
    scalar checks throw the domain error for it, and the vector checks
    throw for a vector that holds one. *)
Theorem checks_reject_nan (function name : string) (x : float)
    (y : list float) :
  PrimFloat.is_nan x = true ->
  checks.nonnegative_check function name x
    = inl (checks.domain_error function name x) /\
  checks.finite_check function name x
    = inl (checks.domain_error function name x) /\
  (In x y ->
   (exists i, checks.nonnegative_vec_check function name y
                = inl (checks.domain_error_vec function name i)) /\
   (exists i, checks.finite_vec_check function name y
                = inl (checks.domain_error_vec function name i))).
Proof.
  intros Hnan. repeat split.
  - unfold checks.nonnegative_check. now rewrite ge_zero_nan.
  - unfold checks.finite_check. now rewrite is_finite_nan.
  - apply (vec_check_rejects checks.ge_zero function name y x H).
    now apply ge_zero_nan.
  - apply (vec_check_rejects PrimFloat.is_finite function name y x H).
    now apply is_finite_nan.
Qed.

(** ** is_2F1_converges *)

(** X6.  When none of [a1], [a2], [b1] is a nonpositive integer,
    [is_2F1_converges] answers [|z| < 1 || (|z| == 1 && b1 > a1 + a2)],
    unless all four arguments are NaN: the guard against NaN rejects only
    that case.  So with [|z| < 1] a NaN in [a1], [a2] or [b1] is
    accepted. *)
Theorem is_2F1_converges_series_case
    (is_nonpositive_integer : float -> bool) (floor_to_int : float -> Z)
    (a1 a2 b1 z : float) :
  is_nonpositive_integer a1 = false ->
  is_nonpositive_integer a2 = false ->
  is_nonpositive_integer b1 = false ->
  hypergeometric.is_2F1_converges is_nonpositive_integer floor_to_int
    a1 a2 b1 z
  = negb (PrimFloat.is_nan a1 && PrimFloat.is_nan a2 && PrimFloat.is_nan b1
          && PrimFloat.is_nan z)
    && (PrimFloat.ltb (PrimFloat.abs z) PrimFloat.one
        || (PrimFloat.eqb (PrimFloat.abs z) PrimFloat.one
            && PrimFloat.ltb (PrimFloat.add a1 a2) b1)).
Proof.
  intros Ha1 Ha2 Hb1.
  unfold hypergeometric.is_2F1_converges, hypergeometric.polynomial_step,
    hypergeometric.is_not_nan.
  rewrite Ha1, Ha2, Hb1. cbn [andb fst snd orb].
  destruct (PrimFloat.is_nan a1), (PrimFloat.is_nan a2),
    (PrimFloat.is_nan b1), (PrimFloat.is_nan z); cbn [negb andb orb];
    try reflexivity;
    destruct (PrimFloat.ltb (PrimFloat.abs z) PrimFloat.one); cbn [orb negb];
    try reflexivity;
    destruct (PrimFloat.eqb (PrimFloat.abs z) PrimFloat.one
              && PrimFloat.ltb (PrimFloat.add a1 a2) b1); reflexivity.
Qed.

(** X7.  When [a1] is a nonpositive integer (so not NaN) and [b1] is not
    one, the series is a polynomial and [is_2F1_converges] answers
    [true] whatever [a2] and [z] are, a NaN included. *)
Theorem is_2F1_converges_polynomial_case
    (is_nonpositive_integer : float -> bool) (floor_to_int : float -> Z)
    (a1 a2 b1 z : float) :
  is_nonpositive_integer a1 = true ->
  PrimFloat.is_nan a1 = false ->
  is_nonpositive_integer b1 = false ->
  hypergeometric.is_2F1_converges is_nonpositive_integer floor_to_int
    a1 a2 b1 z = true.
Proof.
  intros Ha1 Hnum Hb1.
  unfold hypergeometric.is_2F1_converges, hypergeometric.is_not_nan.
  rewrite Hnum, Hb1. cbn [negb orb andb].
  assert (Hfirst : hypergeometric.polynomial_step is_nonpositive_integer
                     floor_to_int a1 (0%Z, false)
                   = (floor_to_int (PrimFloat.abs a1), true)).
  { unfold hypergeometric.polynomial_step. rewrite Ha1.
    change (hypergeometric.of_int 0) with PrimFloat.zero.
    now rewrite leb_zero_abs. }
  rewrite Hfirst. unfold hypergeometric.polynomial_step.
  destruct (is_nonpositive_integer a2 && _); reflexivity.
Qed.

(** ** Squared distance: the vector nodes and the mixed scalar nodes *)

Section VectorSquaredDistance.
Import Eigen err rev squared_distance.

Lemma fold_left_plus_big (f : nat -> R) (n : nat) :
  fold_left (fun result i => result + f i) (seq 0 n) 0 = big n f.
Proof.
  induction n as [|n IH]; [reflexivity|].
  rewrite seq_S, fold_left_app, IH, big_S. reflexivity.
Qed.

(** The loop of [squared_distance_vv_vari::chain] after [n] turns. *)
Lemma vv_chain_loop (self : nat) (v1_ v2_ : list nat) (s : list vari)
    (n : nat) :
  (forall i, (i < n)%nat ->
     (nth i v1_ O < length s)%nat /\ (nth i v2_ O < length s)%nat /\
     nth i v1_ O <> self /\ nth i v2_ O <> self) ->
  let s' := fold_left (vv_chain_iteration self v1_ v2_) (seq 0 n) s in
  length s' = length s /\
  (forall p, val_at s' p = val_at s p) /\
  adj_at s' self = adj_at s self /\
  forall p,
    adj_at s' p
      = adj_at s p
        + big n (fun i =>
                   bump p (nth i v1_ O)
                     (2 * adj_at s self
                      * (val_at s (nth i v1_ O) - val_at s (nth i v2_ O)))
                   - bump p (nth i v2_ O)
                       (2 * adj_at s self
                        * (val_at s (nth i v1_ O) - val_at s (nth i v2_ O)))).
Proof.
  induction n as [|n IH]; intros Hops.
  - cbn [seq fold_left]. repeat split; trivial. intros p. rewrite big_0. lra.
  - destruct IH as (Hlen & Hval & Hself & Hadj);
      [intros i Hi; apply Hops; lia|].
    destruct (Hops n ltac:(lia)) as (H1 & H2 & Hn1 & Hn2).
    cbn zeta. rewrite seq_S, fold_left_app. cbn [fold_left Nat.add].
    set (t := fold_left (vv_chain_iteration self v1_ v2_) (seq 0 n) s) in *.
    unfold vv_chain_iteration.
    rewrite length_sub_adj, length_add_adj.
    split; [exact Hlen|]. split.
    { intros p. now rewrite val_at_sub_adj, val_at_add_adj. }
    assert (Hstep : forall p,
      adj_at (sub_adj
                (add_adj t (nth n v1_ O)
                   (2 * adj_at t self
                    * (val_at t (nth n v1_ O) - val_at t (nth n v2_ O))))
                (nth n v2_ O)
                (2 * adj_at t self
                 * (val_at t (nth n v1_ O) - val_at t (nth n v2_ O)))) p
      = adj_at t p
        + bump p (nth n v1_ O)
            (2 * adj_at s self
             * (val_at s (nth n v1_ O) - val_at s (nth n v2_ O)))
        - bump p (nth n v2_ O)
            (2 * adj_at s self
             * (val_at s (nth n v1_ O) - val_at s (nth n v2_ O)))).
    { intros p.
      rewrite adj_at_sub_adj by (rewrite length_add_adj; lia).
      rewrite adj_at_add_adj by lia.
      now rewrite Hself, !Hval. }
    split.
    + rewrite Hstep, Hself.
      rewrite (bump_ne self (nth n v1_ O)) by congruence.
      rewrite (bump_ne self (nth n v2_ O)) by congruence. lra.
    + intros p. rewrite Hstep, Hadj, big_S. lra.
Qed.

(** The loop of [squared_distance_vd_vari::chain] after [n] turns. *)
Lemma vd_chain_loop (self : nat) (v1_ : list nat) (v2_ : list R)
    (s : list vari) (n : nat) :
  (forall i, (i < n)%nat ->
     (nth i v1_ O < length s)%nat /\ nth i v1_ O <> self) ->
  let s' := fold_left (vd_chain_iteration self v1_ v2_) (seq 0 n) s in
  length s' = length s /\
  (forall p, val_at s' p = val_at s p) /\
  adj_at s' self = adj_at s self /\
  forall p,
    adj_at s' p
      = adj_at s p
        + big n (fun i =>
                   bump p (nth i v1_ O)
                     (2 * adj_at s self
                      * (val_at s (nth i v1_ O) - nth i v2_ 0))).
Proof.
  induction n as [|n IH]; intros Hops.
  - cbn [seq fold_left]. repeat split; trivial. intros p. rewrite big_0. lra.
  - destruct IH as (Hlen & Hval & Hself & Hadj);
      [intros i Hi; apply Hops; lia|].
    destruct (Hops n ltac:(lia)) as (H1 & Hn1).
    cbn zeta. rewrite seq_S, fold_left_app. cbn [fold_left Nat.add].
    set (t := fold_left (vd_chain_iteration self v1_ v2_) (seq 0 n) s) in *.
    unfold vd_chain_iteration.
    rewrite length_add_adj.
    split; [exact Hlen|]. split.
    { intros p. now rewrite val_at_add_adj. }
    split.
    + rewrite adj_at_add_adj by lia.
      rewrite (bump_ne self (nth n v1_ O)) by congruence. lra.
    + intros p. rewrite adj_at_add_adj by lia.
      rewrite Hself, Hval, Hadj, big_S. lra.
Qed.

(** A vector node pushed on [s], seeded and propagated: the tape before
    the propagation and what the propagation reads from it. *)
Lemma seeded_node (s : list vari) (x seed : R) (c : vari_class) :
  let t := set_adj (s ++ [Vari x 0 c]) (length s) seed in
  t !! length s = Some (Vari x seed c) /\
  length t = S (length s) /\
  adj_at t (length s) = seed /\
  (forall p, (p < length s)%nat -> val_at t p = val_at s p) /\
  (forall p, p <> length s -> adj_at t p = adj_at s p).
Proof.
  cbn zeta.
  assert (Hlen : length (s ++ [Vari x 0 c]) = S (length s))
    by (rewrite length_app; cbn; lia).
  repeat split.
  - unfold set_adj. rewrite list_lookup_alter_eq.
    rewrite list_lookup_middle by reflexivity. reflexivity.
  - now rewrite length_set_adj.
  - apply adj_at_set_adj_eq. lia.
  - intros p Hp. rewrite val_at_set_adj. now apply val_at_push_old.
  - intros p Hp. rewrite adj_at_set_adj_ne by assumption. apply adj_at_push.
Qed.

Lemma vv_node_propagates (s : list vari) (v1 v2 : Mat var) (seed : R) :
  (forall i, (i < mat_size v1)%nat ->
     (vi_ (nth i (mat_data v1) (Var O)) < length s)%nat /\
     (vi_ (nth i (mat_data v2) (Var O)) < length s)%nat) ->
  let r := new_squared_distance_vv_vari s v1 v2 in
  let c := snd r in
  let s2 := chain (set_adj (fst r) c seed) c in
  val_at (fst r) c
    = big (mat_size v1)
        (fun i => (val_at s (vi_ (nth i (mat_data v1) (Var O)))
                   - val_at s (vi_ (nth i (mat_data v2) (Var O)))) ^ 2) /\
  (forall p, val_at s2 p = val_at (fst r) p) /\
  forall p, p <> c ->
    adj_at s2 p
      = adj_at s p
        + big (mat_size v1)
            (fun i =>
               let di :=
                 2 * seed
                 * (val_at s (vi_ (nth i (mat_data v1) (Var O)))
                    - val_at s (vi_ (nth i (mat_data v2) (Var O)))) in
               bump p (vi_ (nth i (mat_data v1) (Var O))) di
               - bump p (vi_ (nth i (mat_data v2) (Var O))) di).
Proof.
  intros Hops. unfold new_squared_distance_vv_vari, push.
  cbn [fst snd]. cbn zeta.
  set (v1_ := map _ (seq 0 (mat_size v1))).
  set (v2_ := map (fun i => vi_ (nth i (mat_data v2) (Var O))) _).
  set (x := var_squared_distance_vv s v1 v2).
  destruct (seeded_node s x seed
              (squared_distance_vv_vari v1_ v2_ (mat_size v1)))
    as (Hnode & Hlen & Hseed & Hval & Hadj).
  set (t := set_adj _ (length s) seed) in *.
  assert (H1 : forall i, (i < mat_size v1)%nat ->
            nth i v1_ O = vi_ (nth i (mat_data v1) (Var O)))
    by (intros i Hi; unfold v1_; now rewrite nth_map_seq).
  assert (H2 : forall i, (i < mat_size v1)%nat ->
            nth i v2_ O = vi_ (nth i (mat_data v2) (Var O)))
    by (intros i Hi; unfold v2_; now rewrite nth_map_seq).
  destruct (vv_chain_loop (length s) v1_ v2_ t (mat_size v1))
    as (_ & Hv & _ & Ha).
  { intros i Hi. rewrite (H1 i Hi), (H2 i Hi), Hlen.
    destruct (Hops i Hi). lia. }
  unfold chain. rewrite Hnode. cbn [class_].
  split; [|split].
  - rewrite val_at_push_new. unfold x, var_squared_distance_vv.
    rewrite (fold_left_plus_big
               (fun i => (val_at s (vi_ (nth i (mat_data v1) (Var O)))
                          - val_at s (vi_ (nth i (mat_data v2) (Var O))))
                         * (val_at s (vi_ (nth i (mat_data v1) (Var O)))
                            - val_at s (vi_ (nth i (mat_data v2) (Var O)))))).
    apply big_ext. intros i _. lra.
  - intros p. rewrite Hv. unfold t. apply val_at_set_adj.
  - intros p Hp. rewrite Ha, Hadj by assumption. f_equal.
    apply big_ext. intros i Hi. cbn zeta.
    rewrite (H1 i Hi), (H2 i Hi), Hseed.
    destruct (Hops i Hi) as [Hi1 Hi2]. now rewrite !Hval by assumption.
Qed.

Lemma vd_node_propagates (s : list vari) (v1 : Mat var) (v2 : Mat R)
    (seed : R) :
  (forall i, (i < mat_size v1)%nat ->
     (vi_ (nth i (mat_data v1) (Var O)) < length s)%nat) ->
  let r := new_squared_distance_vd_vari s v1 v2 in
  let c := snd r in
  let s2 := chain (set_adj (fst r) c seed) c in
  val_at (fst r) c
    = big (mat_size v1)
        (fun i => (val_at s (vi_ (nth i (mat_data v1) (Var O)))
                   - nth i (mat_data v2) 0) ^ 2) /\
  (forall p, val_at s2 p = val_at (fst r) p) /\
  forall p, p <> c ->
    adj_at s2 p
      = adj_at s p
        + big (mat_size v1)
            (fun i =>
               bump p (vi_ (nth i (mat_data v1) (Var O)))
                 (2 * seed
                  * (val_at s (vi_ (nth i (mat_data v1) (Var O)))
                     - nth i (mat_data v2) 0))).
Proof.
  intros Hops. unfold new_squared_distance_vd_vari, push.
  cbn [fst snd]. cbn zeta.
  set (v1_ := map _ (seq 0 (mat_size v1))).
  set (v2_ := map (fun i => nth i (mat_data v2) 0) _).
  set (x := var_squared_distance_vd s v1 v2).
  destruct (seeded_node s x seed
              (squared_distance_vd_vari v1_ v2_ (mat_size v1)))
    as (Hnode & Hlen & Hseed & Hval & Hadj).
  set (t := set_adj _ (length s) seed) in *.
  assert (H1 : forall i, (i < mat_size v1)%nat ->
            nth i v1_ O = vi_ (nth i (mat_data v1) (Var O)))
    by (intros i Hi; unfold v1_; now rewrite nth_map_seq).
  assert (H2 : forall i, (i < mat_size v1)%nat ->
            nth i v2_ 0 = nth i (mat_data v2) 0)
    by (intros i Hi; unfold v2_; now rewrite nth_map_seq).
  destruct (vd_chain_loop (length s) v1_ v2_ t (mat_size v1))
    as (_ & Hv & _ & Ha).
  { intros i Hi. rewrite (H1 i Hi), Hlen. specialize (Hops i Hi). lia. }
  unfold chain. rewrite Hnode. cbn [class_].
  split; [|split].
  - rewrite val_at_push_new. unfold x, var_squared_distance_vd.
    rewrite (fold_left_plus_big
               (fun i => (val_at s (vi_ (nth i (mat_data v1) (Var O)))
                          - nth i (mat_data v2) 0)
                         * (val_at s (vi_ (nth i (mat_data v1) (Var O)))
                            - nth i (mat_data v2) 0))).
    apply big_ext. intros i _. lra.
  - intros p. rewrite Hv. unfold t. apply val_at_set_adj.
  - intros p Hp. rewrite Ha, Hadj by assumption. f_equal.
    apply big_ext. intros i Hi.
    rewrite (H1 i Hi), (H2 i Hi), Hseed.
    now rewrite Hval by (now apply Hops).
Qed.

End VectorSquaredDistance.

Section MixedScalarSquaredDistance.
Import rev squared_distance.

Lemma chain_scal_vd (t : list vari) (self avi : nat) (bd x seed : R) :
  t !! self = Some (Vari x seed (scal_squared_distance_vd_vari avi bd)) ->
  (avi < length t)%nat -> avi <> self ->
  (forall p, val_at (chain t self) p = val_at t p) /\
  (forall p, adj_at (chain t self) p
             = adj_at t p + bump p avi (seed * 2 * (val_at t avi - bd))).
Proof.
  intros Hself Ha Hna. unfold chain. rewrite Hself. cbn [class_].
  assert (Hadj : adj_at t self = seed) by (unfold adj_at; now rewrite Hself).
  split; intros p.
  - apply val_at_add_adj.
  - rewrite adj_at_add_adj by assumption. now rewrite Hadj.
Qed.

Lemma chain_scal_dv (t : list vari) (self bvi : nat) (ad x seed : R) :
  t !! self = Some (Vari x seed (scal_squared_distance_dv_vari ad bvi)) ->
  (bvi < length t)%nat -> bvi <> self ->
  (forall p, val_at (chain t self) p = val_at t p) /\
  (forall p, adj_at (chain t self) p
             = adj_at t p - bump p bvi (seed * 2 * (ad - val_at t bvi))).
Proof.
  intros Hself Hb Hnb. unfold chain. rewrite Hself. cbn [class_].
  assert (Hadj : adj_at t self = seed) by (unfold adj_at; now rewrite Hself).
  split; intros p.
  - apply val_at_sub_adj.
  - rewrite adj_at_sub_adj by assumption. now rewrite Hadj.
Qed.

End MixedScalarSquaredDistance.

(** X10.  The node of the squared distance of two vectors of variables has
    the sum of the squared differences as its value; its propagate step
    changes no value and, for every entry [i], adds
    [2 * adjoint * (v1[i] - v2[i])] to the adjoint of [v1[i]] and subtracts
    it from the adjoint of [v2[i]], a node that occurs several times
    receiving every one of its contributions. *)
Theorem squared_distance_vv_vari_propagates
    (s : list rev.vari) (v1 v2 : err.Mat rev.var) (seed : R) :
  (forall i, (i < err.mat_size v1)%nat ->
     (rev.vi_ (nth i (err.mat_data v1) (rev.Var O)) < length s)%nat /\
     (rev.vi_ (nth i (err.mat_data v2) (rev.Var O)) < length s)%nat) ->
  let r := squared_distance.new_squared_distance_vv_vari s v1 v2 in
  let c := snd r in
  let s2 := rev.chain (rev.set_adj (fst r) c seed) c in
  rev.val_at (fst r) c
    = Eigen.big (err.mat_size v1)
        (fun i => (rev.val_at s (rev.vi_ (nth i (err.mat_data v1) (rev.Var O)))
                   - rev.val_at s
                       (rev.vi_ (nth i (err.mat_data v2) (rev.Var O)))) ^ 2) /\
  (forall p, rev.val_at s2 p = rev.val_at (fst r) p) /\
  forall p, p <> c ->
    rev.adj_at s2 p
      = rev.adj_at s p
        + Eigen.big (err.mat_size v1)
            (fun i =>
               let di :=
                 2 * seed
                 * (rev.val_at s (rev.vi_ (nth i (err.mat_data v1) (rev.Var O)))
                    - rev.val_at s
                        (rev.vi_ (nth i (err.mat_data v2) (rev.Var O)))) in
               rev.bump p (rev.vi_ (nth i (err.mat_data v1) (rev.Var O))) di
               - rev.bump p (rev.vi_ (nth i (err.mat_data v2) (rev.Var O))) di).
Proof. apply vv_node_propagates. Qed.

(** X11.  The node of the squared distance of a vector of variables and a
    vector of doubles has the sum of the squared differences as its
    value; its propagate step changes no value and adds
    [2 * adjoint * (v1[i] - v2[i])] to the adjoint of [v1[i]] for every
    entry [i]. *)
Theorem squared_distance_vd_vari_propagates
    (s : list rev.vari) (v1 : err.Mat rev.var) (v2 : err.Mat R) (seed : R) :
  (forall i, (i < err.mat_size v1)%nat ->
     (rev.vi_ (nth i (err.mat_data v1) (rev.Var O)) < length s)%nat) ->
  let r := squared_distance.new_squared_distance_vd_vari s v1 v2 in
  let c := snd r in
  let s2 := rev.chain (rev.set_adj (fst r) c seed) c in
  rev.val_at (fst r) c
    = Eigen.big (err.mat_size v1)
        (fun i => (rev.val_at s (rev.vi_ (nth i (err.mat_data v1) (rev.Var O)))
                   - nth i (err.mat_data v2) 0) ^ 2) /\
  (forall p, rev.val_at s2 p = rev.val_at (fst r) p) /\
  forall p, p <> c ->
    rev.adj_at s2 p
      = rev.adj_at s p
        + Eigen.big (err.mat_size v1)
            (fun i =>
               rev.bump p (rev.vi_ (nth i (err.mat_data v1) (rev.Var O)))
                 (2 * seed
                  * (rev.val_at s
                       (rev.vi_ (nth i (err.mat_data v1) (rev.Var O)))
                     - nth i (err.mat_data v2) 0))).
Proof. apply vd_node_propagates. Qed.

(** X12.  The squared distance of two vectors of variables is symmetric:
    with the arguments swapped the node has the same value and its
    propagate step leaves the same adjoints. *)
Theorem squared_distance_vv_symmetric
    (s : list rev.vari) (v1 v2 : err.Mat rev.var) (seed : R) :
  err.mat_size v1 = err.mat_size v2 ->
  (forall i, (i < err.mat_size v1)%nat ->
     (rev.vi_ (nth i (err.mat_data v1) (rev.Var O)) < length s)%nat /\
     (rev.vi_ (nth i (err.mat_data v2) (rev.Var O)) < length s)%nat) ->
  let r12 := squared_distance.new_squared_distance_vv_vari s v1 v2 in
  let r21 := squared_distance.new_squared_distance_vv_vari s v2 v1 in
  snd r12 = snd r21 /\
  rev.val_at (fst r12) (snd r12) = rev.val_at (fst r21) (snd r21) /\
  forall p, p <> snd r12 ->
    rev.adj_at (rev.chain (rev.set_adj (fst r12) (snd r12) seed) (snd r12)) p
      = rev.adj_at
          (rev.chain (rev.set_adj (fst r21) (snd r21) seed) (snd r21)) p.
Proof.
  intros Hsize Hops. cbn zeta.
  destruct (vv_node_propagates s v1 v2 seed Hops) as (Hval & _ & Hadj).
  destruct (vv_node_propagates s v2 v1 seed) as (Hval' & _ & Hadj').
  { intros i Hi. rewrite <- Hsize in Hi. destruct (Hops i Hi). now split. }
  split; [reflexivity|]. split.
  - rewrite Hval, Hval', <- Hsize. apply big_ext. intros i _. lra.
  - intros p Hp. rewrite Hadj by exact Hp. rewrite Hadj' by exact Hp.
    rewrite <- Hsize. f_equal. apply big_ext. intros i _. cbn zeta.
    unfold rev.bump.
    destruct (p =? rev.vi_ (nth i (err.mat_data v1) (rev.Var O)))%nat,
             (p =? rev.vi_ (nth i (err.mat_data v2) (rev.Var O)))%nat; lra.
Qed.

(** X14.  The mixed scalar overloads agree: [squared_distance(a, b)] for a
    variable [a] and a double [b], and [squared_distance(b, a)], allocate
    a node at the same place with the value (a-b)², and the propagate
    step of either adds [adjoint * 2 * (a - b)] to the adjoint of [a] and
    changes nothing else. *)
Theorem scal_squared_distance_mixed_agree
    (s : list rev.vari) (a : rev.var) (b seed : R) :
  (rev.vi_ a < length s)%nat ->
  let vd := squared_distance.scal_vd s a b in
  let dv := squared_distance.scal_dv s b a in
  let c := rev.vi_ (snd vd) in
  let d := seed * 2 * (rev.val_at s (rev.vi_ a) - b) in
  rev.vi_ (snd dv) = c /\
  rev.val_at (fst vd) c = (rev.val_at s (rev.vi_ a) - b) ^ 2 /\
  rev.val_at (fst dv) c = (rev.val_at s (rev.vi_ a) - b) ^ 2 /\
  forall p, p <> c ->
    rev.adj_at (rev.chain (rev.set_adj (fst vd) c seed) c) p
      = rev.adj_at s p + rev.bump p (rev.vi_ a) d /\
    rev.adj_at (rev.chain (rev.set_adj (fst dv) c seed) c) p
      = rev.adj_at s p + rev.bump p (rev.vi_ a) d.
Proof.
  destruct a as [a]. cbn [rev.vi_]. intros Ha. cbn zeta.
  unfold squared_distance.scal_vd, squared_distance.scal_dv, rev.push.
  cbn [fst snd rev.vi_].
  split; [reflexivity|].
  rewrite !val_at_push_new. unfold squared_distance.prim.
  split; [lra|]. split; [lra|].
  intros p Hp.
  destruct (seeded_node s ((rev.val_at s a - b) * (rev.val_at s a - b)) seed
              (rev.scal_squared_distance_vd_vari a b))
    as (Hnode & Hlen & _ & Hval & Hadj).
  destruct (seeded_node s ((b - rev.val_at s a) * (b - rev.val_at s a)) seed
              (rev.scal_squared_distance_dv_vari b a))
    as (Hnode' & Hlen' & _ & Hval' & Hadj').
  destruct (chain_scal_vd _ _ _ _ _ _ Hnode) as [_ Hc]; [lia | lia |].
  destruct (chain_scal_dv _ _ _ _ _ _ Hnode') as [_ Hc']; [lia | lia |].
  rewrite Hc, Hc', Hadj, Hadj', Hval, Hval' by assumption.
  split; [reflexivity|].
  unfold rev.bump. destruct (p =? a)%nat; lra.
Qed.

(** ** The forward pass: the buffers *)

Section ForwardPassInvariants.
Import Eigen Spec.

Lemma forward_pass_buffers (log_omegas Gamma : MatrixXd) (rho : list R)
    (alphas0 alphas0' : MatrixXd) (norms0 norms0' : list R)
    (n_transitions : nat) :
  cols log_omegas = S n_transitions ->
  length (columns alphas0) = S n_transitions ->
  length norms0 = S n_transitions ->
  length (columns alphas0') = S n_transitions ->
  length norms0' = S n_transitions ->
  exists (lp : R) (alphas alphas' : MatrixXd) (L L' : list R),
    internal.hmm_marginal_lpdf log_omegas Gamma rho alphas0 norms0
      = Some (lp, alphas, L, array_exp log_omegas) /\
    internal.hmm_marginal_lpdf log_omegas Gamma rho alphas0' norms0'
      = Some (lp, alphas', L', array_exp log_omegas) /\
    forall n, (n <= n_transitions)%nat ->
      col alphas n = col alphas' n /\ coeff L n = coeff L' n.
Proof.
  intros Hcols HA HL HA' HL'.
  destruct (internal_hmm_marginal_lpdf_spec log_omegas Gamma rho alphas0
              norms0 n_transitions Hcols HA HL)
    as (lp & A & L & Heq & H0 & HL0 & Hstep & Hlp).
  destruct (internal_hmm_marginal_lpdf_spec log_omegas Gamma rho alphas0'
              norms0' n_transitions Hcols HA' HL')
    as (lp' & A' & L' & Heq' & H0' & HL0' & Hstep' & Hlp').
  cbn zeta in *.
  assert (Hsame : forall n, (n <= n_transitions)%nat ->
            col A n = col A' n /\ coeff L n = coeff L' n).
  { induction n as [|n IH]; intros Hn.
    - split; congruence.
    - destruct IH as [IHA IHL]; [lia|].
      destruct (Hstep n ltac:(lia)) as [Hc Hl].
      destruct (Hstep' n ltac:(lia)) as [Hc' Hl'].
      replace (n + 1)%nat with (S n) in * by lia.
      rewrite Hc, Hc', Hl, Hl', IHA, IHL. split; reflexivity. }
  exists lp, A, A', L, L'. split; [exact Heq|]. split; [|exact Hsame].
  rewrite Heq'. destruct (Hsame n_transitions (Nat.le_refl _)) as [Hc Hl].
  rewrite Hlp', <- Hc, <- Hl, <- Hlp. reflexivity.
Qed.

End ForwardPassInvariants.

(** X15.  The forward pass overwrites its in/out arguments: whatever
    [alphas] and [alpha_log_norms] hold on entry (if sized for the
    observations), it returns the same log density, the same columns of
    [alphas] and the same log-normalisers. *)
Theorem hmm_forward_pass_ignores_buffer_contents
    (log_omegas Gamma : Eigen.MatrixXd) (rho : list R)
    (alphas0 alphas0' : Eigen.MatrixXd) (norms0 norms0' : list R)
    (n_transitions : nat) :
  Eigen.cols log_omegas = S n_transitions ->
  length (Eigen.columns alphas0) = S n_transitions ->
  length norms0 = S n_transitions ->
  length (Eigen.columns alphas0') = S n_transitions ->
  length norms0' = S n_transitions ->
  exists (lp : R) (alphas alphas' : Eigen.MatrixXd) (L L' : list R),
    internal.hmm_marginal_lpdf log_omegas Gamma rho alphas0 norms0
      = Some (lp, alphas, L, Eigen.array_exp log_omegas) /\
    internal.hmm_marginal_lpdf log_omegas Gamma rho alphas0' norms0'
      = Some (lp, alphas', L', Eigen.array_exp log_omegas) /\
    forall n, (n <= n_transitions)%nat ->
      Eigen.col alphas n = Eigen.col alphas' n /\
      Eigen.coeff L n = Eigen.coeff L' n.
Proof. apply forward_pass_buffers. Qed.

(** X17.  On a valid input with at least one observation
    [hmm_marginal_lpdf] throws nothing and returns what the forward pass
    [internal::hmm_marginal_lpdf] computes from the values of the
    operands: as a double, with the stack of nodes untouched, when the
    three operands are doubles, and otherwise as one new node with that
    value and a zero adjoint, appended to the stack. *)
Theorem hmm_marginal_lpdf_returns_forward_value
    (tol : R) (s : list rev.vari)
    (log_omegas Gamma : hmm.matrix_operand) (rho : hmm.vector_operand)
    (n_transitions : nat) :
  let log_omegas_dbl := hmm.value_of_rec_m s log_omegas in
  let Gamma_dbl := hmm.value_of_rec_m s Gamma in
  let rho_dbl := hmm.value_of_rec_v s rho in
  length (Eigen.columns Gamma_dbl) = Eigen.cols Gamma_dbl ->
  Eigen.cols log_omegas_dbl = S n_transitions ->
  Spec.preconditions tol (Eigen.rows log_omegas_dbl) Gamma_dbl rho_dbl ->
  exists (lp : R) (alphas : Eigen.MatrixXd) (alpha_log_norms : list R)
         (s' : list rev.vari) (r : hmm.return_type) (e : hmm.edges),
    internal.hmm_marginal_lpdf log_omegas_dbl Gamma_dbl rho_dbl
      (Eigen.Zero (Eigen.rows log_omegas_dbl) (n_transitions + 1))
      (Eigen.ZeroV (n_transitions + 1))
      = Some (lp, alphas, alpha_log_norms, Eigen.array_exp log_omegas_dbl) /\
    hmm_marginal_lpdf tol s log_omegas Gamma rho = Some (s', inr (r, e)) /\
    if hmm.is_constant_all_m log_omegas && hmm.is_constant_all_m Gamma
       && hmm.is_constant_all_v rho
    then s' = s /\ r = hmm.ret_double lp
    else exists (varis : list nat) (gradients : list R),
           s' = s ++ [rev.Vari lp 0
                        (rev.precomputed_gradients_vari varis gradients)] /\
           r = hmm.ret_var (rev.Var (length s)).
Proof.
  intros lo G rho_dbl Hwf Hcols Hpre.
  destruct (internal_hmm_marginal_lpdf_spec lo G rho_dbl
              (Eigen.Zero (Eigen.rows lo) (n_transitions + 1))
              (Eigen.ZeroV (n_transitions + 1)) n_transitions Hcols)
    as (lp & A & L & Heq & _).
  { unfold Eigen.Zero. cbn [Eigen.columns]. rewrite repeat_length. lia. }
  { unfold Eigen.ZeroV. rewrite repeat_length. lia. }
  exists lp, A, L.
  unfold hmm_marginal_lpdf. fold lo G rho_dbl.
  destruct (checks_spec tol lo G rho_dbl Hwf)
    as [[_ Hpass] | [Hfail _]]; [|contradiction].
  rewrite Hpass, Hcols, Heq.
  unfold hmm.build.
  destruct (hmm.is_constant_all_m log_omegas && hmm.is_constant_all_m Gamma
            && hmm.is_constant_all_v rho).
  - eexists _, _, _. split; [reflexivity|]. split; [reflexivity|].
    split; reflexivity.
  - unfold rev.push. eexists _, _, _. split; [reflexivity|].
    split; [reflexivity|]. eexists _, _. split; reflexivity.
Qed.

(** ** Copies: sequences of copies and the freshness of events *)

Section CopySequences.
Import err opencl.

Lemma bind_inr {A B : Type} (x : throws A) (f : A -> throws B) (b : B) :
  bind x f = inr b -> exists a, x = inr a /\ f a = inr b.
Proof. destruct x as [e|a]; cbn; [discriminate | eauto]. Qed.

(** The pending events of [m] were all handed out by [q]. *)
Let fresh (q : queue) (m : matrix_cl) : Prop :=
  forall e, In e (write_events m) \/ In e (read_events m) ->
    (e < next_event q)%nat.

(** What a copy added to the trace: only commands that complete with the
    event the queue handed out next and wait on earlier events. *)
Let orderly (q : queue) (suffix : list action) : Prop :=
  forall c, In (Enqueue c) suffix ->
    completion c = next_event q /\
    forall e, In e (wait_list c) -> (e < completion c)%nat.

Lemma copy_device_fresh (q q' : queue) (dst src dst' src' : matrix_cl) :
  fresh q dst -> fresh q src ->
  copy_device q dst src = inr (q', dst', src') ->
  fresh q' dst' /\ fresh q' src' /\
  exists suffix, trace q' = trace q ++ suffix /\ orderly q suffix.
Proof.
  intros Hdst Hsrc Hcopy. unfold copy_device in Hcopy.
  apply bind_inr in Hcopy. destruct Hcopy as ([] & _ & Hcopy).
  apply bind_inr in Hcopy. destruct Hcopy as ([] & _ & Hcopy).
  destruct (size src =? 0)%nat.
  - injection Hcopy as <- <- <-. repeat split; trivial.
    exists []. split; [now rewrite app_nil_r|]. intros c [].
  - cbn in Hcopy. injection Hcopy as <- <- <-. split; [|split].
    + intros e. cbn. rewrite in_app_iff. cbn.
      intros [[H| [<-|[]]]|H]; [|lia|];
        (assert (e < next_event q)%nat by (apply Hdst; tauto); lia).
    + intros e. cbn. rewrite in_app_iff. cbn.
      intros [H|[H| [<-|[]]]]; [| |lia];
        (assert (e < next_event q)%nat by (apply Hsrc; tauto); lia).
    + eexists. split; [reflexivity|].
      intros c [Hc|[]]. injection Hc as <-. cbn. split; [reflexivity|].
      intros e He. apply in_app_iff in He.
      destruct He as [He|He];
        [apply Hdst; tauto | apply Hsrc; tauto].
Qed.

Lemma copy_to_eigen_fresh (q q' : queue) (r c : nat) (src src' : matrix_cl) :
  fresh q src ->
  copy_to_eigen q r c src = inr (q', src') ->
  fresh q' src' /\
  exists suffix, trace q' = trace q ++ suffix /\ orderly q suffix.
Proof.
  intros Hsrc Hcopy. unfold copy_to_eigen in Hcopy.
  apply bind_inr in Hcopy. destruct Hcopy as ([] & _ & Hcopy).
  apply bind_inr in Hcopy. destruct Hcopy as ([] & _ & Hcopy).
  destruct (size src =? 0)%nat.
  - injection Hcopy as <- <-. split; trivial.
    exists []. split; [now rewrite app_nil_r|]. intros c0 [].
  - cbn in Hcopy. injection Hcopy as <- <-. split.
    + intros e. cbn. intros [[]|H].
      assert (e < next_event q)%nat by (apply Hsrc; tauto). lia.
    + eexists. split;
        [unfold wait_for; cbn [trace map]; rewrite <- app_assoc; reflexivity|].
      intros c0 [Hc|[Hc|[]]]; [|discriminate]. injection Hc as <-. cbn.
      split; [reflexivity|]. intros e He. apply Hsrc. tauto.
Qed.

Lemma copy_from_eigen_fresh (q q' : queue) (r c : nat)
    (dst dst' : matrix_cl) :
  fresh q dst ->
  copy_from_eigen q dst r c = inr (q', dst') ->
  fresh q' dst' /\
  exists suffix, trace q' = trace q ++ suffix /\ orderly q suffix.
Proof.
  intros Hdst Hcopy. unfold copy_from_eigen in Hcopy.
  apply bind_inr in Hcopy. destruct Hcopy as ([] & _ & Hcopy).
  apply bind_inr in Hcopy. destruct Hcopy as ([] & _ & Hcopy).
  destruct (r * c =? 0)%nat.
  - injection Hcopy as <- <-. split; trivial.
    exists []. split; [now rewrite app_nil_r|]. intros c0 [].
  - cbn in Hcopy. injection Hcopy as <- <-. split.
    + intros e. cbn. intros [[<-|[]]|[]]. lia.
    + eexists. split;
        [unfold wait_for_write_events, wait_for_read_events, wait_for;
         cbn [trace write_events read_events clear_read_events];
         rewrite <- !app_assoc; reflexivity|].
      intros c0 Hc. rewrite !in_app_iff in Hc.
      destruct Hc as [Hc|[Hc|[Hc|[]]]].
      * apply in_map_iff in Hc. destruct Hc as (e & He & _). discriminate.
      * apply in_map_iff in Hc. destruct Hc as (e & He & _). discriminate.
      * injection Hc as <-. cbn. split; [reflexivity|]. intros e [].
Qed.

End CopySequences.

(** X19.  The matrix copies keep the events fresh.  If every pending event
    of the matrices involved was handed out by the queue, then after a
    copy that returns this is still so, the trace has only grown, and
    every command the copy enqueued completes with the event the queue
    handed out next and waits only on earlier events: no command waits
    on itself or on an event that does not exist yet. *)
Theorem opencl_copies_keep_events_fresh :
  (forall (q q' : opencl.queue) (dst src dst' src' : opencl.matrix_cl),
     (forall e, In e (opencl.write_events dst) \/ In e (opencl.read_events dst) ->
        (e < opencl.next_event q)%nat) ->
     (forall e, In e (opencl.write_events src) \/ In e (opencl.read_events src) ->
        (e < opencl.next_event q)%nat) ->
     opencl.copy_device q dst src = inr (q', dst', src') ->
     (forall e, In e (opencl.write_events dst') \/ In e (opencl.read_events dst') ->
        (e < opencl.next_event q')%nat) /\
     (forall e, In e (opencl.write_events src') \/ In e (opencl.read_events src') ->
        (e < opencl.next_event q')%nat) /\
     exists suffix,
       opencl.trace q' = opencl.trace q ++ suffix /\
       forall c, In (opencl.Enqueue c) suffix ->
         opencl.completion c = opencl.next_event q /\
         forall e, In e (opencl.wait_list c) ->
           (e < opencl.completion c)%nat) /\
  (forall (q q' : opencl.queue) (r c : nat) (src src' : opencl.matrix_cl),
     (forall e, In e (opencl.write_events src) \/ In e (opencl.read_events src) ->
        (e < opencl.next_event q)%nat) ->
     opencl.copy_to_eigen q r c src = inr (q', src') ->
     (forall e, In e (opencl.write_events src') \/ In e (opencl.read_events src') ->
        (e < opencl.next_event q')%nat) /\
     exists suffix,
       opencl.trace q' = opencl.trace q ++ suffix /\
       forall c, In (opencl.Enqueue c) suffix ->
         opencl.completion c = opencl.next_event q /\
         forall e, In e (opencl.wait_list c) ->
           (e < opencl.completion c)%nat) /\
  (forall (q q' : opencl.queue) (r c : nat) (dst dst' : opencl.matrix_cl),
     (forall e, In e (opencl.write_events dst) \/ In e (opencl.read_events dst) ->
        (e < opencl.next_event q)%nat) ->
     opencl.copy_from_eigen q dst r c = inr (q', dst') ->
     (forall e, In e (opencl.write_events dst') \/ In e (opencl.read_events dst') ->
        (e < opencl.next_event q')%nat) /\
     exists suffix,
       opencl.trace q' = opencl.trace q ++ suffix /\
       forall c, In (opencl.Enqueue c) suffix ->
         opencl.completion c = opencl.next_event q /\
         forall e, In e (opencl.wait_list c) ->
           (e < opencl.completion c)%nat).
Proof.
  repeat apply conj.
  - intros q q' dst src dst' src' Hdst Hsrc Hcopy.
    exact (copy_device_fresh q q' dst src dst' src' Hdst Hsrc Hcopy).
  - intros q q' r c src src' Hsrc Hcopy.
    exact (copy_to_eigen_fresh q q' r c src src' Hsrc Hcopy).
  - intros q q' r c dst dst' Hdst Hcopy.
    exact (copy_from_eigen_fresh q q' r c dst dst' Hdst Hcopy).
Qed.

(** X20.  A matrix uploaded and then downloaded: the download reads the
    buffer the upload wrote and has the upload's event as its only
    prerequisite, the host blocks on it, and afterwards the device matrix
    has no pending event left.  Two events were handed out. *)
Theorem opencl_upload_then_download
    (q : opencl.queue) (dst : opencl.matrix_cl) :
  opencl.size dst <> 0%nat ->
  exists (q1 q2 : opencl.queue) (dst1 dst2 : opencl.matrix_cl)
         (before : list opencl.action) (w r : opencl.command),
    opencl.copy_from_eigen q dst (opencl.rows dst) (opencl.cols dst)
      = inr (q1, dst1) /\
    opencl.copy_to_eigen q1 (opencl.rows dst) (opencl.cols dst) dst1
      = inr (q2, dst2) /\
    opencl.trace q1 = before ++ [opencl.Enqueue w] /\
    opencl.trace q2
      = before ++ [opencl.Enqueue w; opencl.Enqueue r;
                   opencl.HostWait (opencl.completion r)] /\
    opencl.operation_of w = opencl.WriteBuffer (opencl.buffer dst) /\
    opencl.operation_of r = opencl.ReadBuffer (opencl.buffer dst) /\
    opencl.wait_list r = [opencl.completion w] /\
    opencl.write_events dst2 = [] /\ opencl.read_events dst2 = [] /\
    opencl.next_event q2 = S (S (opencl.next_event q)).
Proof.
  intros Hsize. destruct dst as [rs cs b w rd].
  unfold opencl.size in Hsize. cbn [opencl.rows opencl.cols] in *.
  apply Nat.eqb_neq in Hsize.
  unfold opencl.copy_from_eigen. cbn [opencl.rows opencl.cols].
  rewrite !check_size_match_passes. cbn [err.bind]. rewrite Hsize.
  unfold opencl.wait_for_read_events, opencl.wait_for_write_events,
    opencl.wait_for, opencl.clear_read_events, opencl.clear_write_events,
    opencl.enqueue, opencl.add_write_event.
  cbn [opencl.trace opencl.next_event opencl.rows opencl.cols opencl.buffer
       opencl.write_events opencl.read_events app].
  eexists _, _, _, _,
    ((opencl.trace q ++ map opencl.HostWait rd) ++ map opencl.HostWait w),
    (opencl.Command (opencl.WriteBuffer b) [] (opencl.next_event q)),
    (opencl.Command (opencl.ReadBuffer b) [opencl.next_event q]
       (S (opencl.next_event q))).
  split; [reflexivity|].
  unfold opencl.copy_to_eigen, opencl.size.
  cbn [opencl.rows opencl.cols].
  rewrite !check_size_match_passes. cbn [err.bind]. rewrite Hsize.
  unfold opencl.wait_for, opencl.clear_write_events, opencl.enqueue.
  cbn [opencl.trace opencl.next_event opencl.rows opencl.cols opencl.buffer
       opencl.write_events opencl.read_events app map].
  split; [reflexivity|]. split; [reflexivity|].
  split; [cbn [opencl.completion]; rewrite <- !app_assoc; reflexivity|].
  repeat split.
Qed.

(** X21.  After a device-to-device copy the two matrices carry the copy's
    event: a download of the destination has it among its prerequisites,
    and an upload into the source makes the host block on it before the
    write is enqueued. *)
Theorem opencl_device_copy_then_host_copies
    (q : opencl.queue) (dst src : opencl.matrix_cl) :
  opencl.rows src = opencl.rows dst -> opencl.cols src = opencl.cols dst ->
  opencl.size src <> 0%nat ->
  exists (q1 : opencl.queue) (dst1 src1 : opencl.matrix_cl)
         (c : opencl.command),
    opencl.copy_device q dst src = inr (q1, dst1, src1) /\
    opencl.trace q1 = opencl.trace q ++ [opencl.Enqueue c] /\
    (exists (q2 : opencl.queue) (dst2 : opencl.matrix_cl)
            (r : opencl.command),
       opencl.copy_to_eigen q1 (opencl.rows dst) (opencl.cols dst) dst1
         = inr (q2, dst2) /\
       opencl.trace q2
         = opencl.trace q1
           ++ [opencl.Enqueue r; opencl.HostWait (opencl.completion r)] /\
       opencl.operation_of r = opencl.ReadBuffer (opencl.buffer dst) /\
       In (opencl.completion c) (opencl.wait_list r)) /\
    (exists (q2 : opencl.queue) (src2 : opencl.matrix_cl)
            (before : list opencl.action) (w : opencl.command),
       opencl.copy_from_eigen q1 src1 (opencl.rows src) (opencl.cols src)
         = inr (q2, src2) /\
       opencl.trace q2 = before ++ [opencl.Enqueue w] /\
       opencl.operation_of w = opencl.WriteBuffer (opencl.buffer src) /\
       In (opencl.HostWait (opencl.completion c)) before).
Proof.
  destruct dst as [rs cs b w rd], src as [rs' cs' b' w' rd'].
  cbn [opencl.rows opencl.cols opencl.buffer]. intros -> -> Hsize.
  unfold opencl.size in Hsize. cbn [opencl.rows opencl.cols] in Hsize.
  apply Nat.eqb_neq in Hsize.
  unfold opencl.copy_device, opencl.size. cbn [opencl.rows opencl.cols].
  rewrite !check_size_match_passes. cbn [err.bind]. rewrite Hsize.
  unfold opencl.enqueue, opencl.add_write_event, opencl.add_read_event.
  cbn [opencl.trace opencl.next_event opencl.rows opencl.cols opencl.buffer
       opencl.write_events opencl.read_events].
  eexists _, _, _,
    (opencl.Command (opencl.CopyBuffer b' b) (rd ++ w') (opencl.next_event q)).
  split; [reflexivity|]. split; [reflexivity|]. split.
  - unfold opencl.copy_to_eigen, opencl.size. cbn [opencl.rows opencl.cols].
    rewrite !check_size_match_passes. cbn [err.bind]. rewrite Hsize.
    unfold opencl.wait_for, opencl.clear_write_events, opencl.enqueue.
    cbn [opencl.trace opencl.next_event opencl.rows opencl.cols opencl.buffer
         opencl.write_events opencl.read_events map].
    eexists _, _,
      (opencl.Command (opencl.ReadBuffer b) (w ++ [opencl.next_event q])
         (S (opencl.next_event q))).
    split; [reflexivity|]. split.
    + cbn [opencl.completion]. rewrite <- !app_assoc. reflexivity.
    + split; [reflexivity|]. cbn. apply in_or_app. right. now left.
  - unfold opencl.copy_from_eigen. cbn [opencl.rows opencl.cols].
    rewrite !check_size_match_passes. cbn [err.bind]. rewrite Hsize.
    unfold opencl.wait_for_write_events, opencl.wait_for_read_events,
      opencl.wait_for, opencl.clear_read_events, opencl.clear_write_events,
      opencl.enqueue, opencl.add_write_event.
    cbn [opencl.trace opencl.next_event opencl.rows opencl.cols opencl.buffer
         opencl.write_events opencl.read_events].
    eexists _, _, _,
      (opencl.Command (opencl.WriteBuffer b') [] (S (opencl.next_event q))).
    split; [reflexivity|]. split; [reflexivity|].
    split; [reflexivity|].
    cbn [opencl.completion].
    rewrite !in_app_iff. left. right. rewrite map_app, in_app_iff.
    right. now left.
Qed.

(** ** The matrix-vector kernel *)

Section MatrixVectorKernel.
Import Eigen opencl_kernels.

Lemma wrap_small (x : Z) : (0 <= x < 2 ^ 31)%Z -> wrap x = x.
Proof.
  intros Hx. unfold wrap.
  change (2 ^ 31)%Z with 2147483648%Z in *.
  change (2 ^ 32)%Z with 4294967296%Z.
  rewrite Z.mod_small; lia.
Qed.

Lemma load_coeff (buf : list R) (k : nat) :
  (k < length buf)%nat -> load buf (Z.of_nat k) = Some (coeff buf k).
Proof.
  intros Hk. unfold load.
  destruct (Z.ltb_spec (Z.of_nat k) 0); [lia|].
  rewrite Nat2Z.id. unfold coeff. now apply nth_error_nth'.
Qed.

Lemma big_split (a b : nat) (f : nat -> R) :
  big (a + b) f = big a f + big b (fun k => f (a + k)%nat).
Proof.
  induction b as [|b IH].
  - rewrite Nat.add_0_r, big_0. lra.
  - replace (a + S b)%nat with (S (a + b)) by lia.
    rewrite !big_S, IH. lra.
Qed.

Lemma big_all_zero (n : nat) (f : nat -> R) :
  (forall k, (k < n)%nat -> f k = 0) -> big n f = 0.
Proof.
  intros H. rewrite <- (big_zero n). now apply big_ext.
Qed.

Lemma for_loop_exit (A B : list R) (M gid : Z) (fuel : nat)
    (stop i j : Z) (acc : R) :
  (stop <= i)%Z -> for_loop (S fuel) A B M gid stop i j acc = Some acc.
Proof.
  intros Hi. cbn [for_loop]. destruct (Z.ltb_spec i stop); [lia|reflexivity].
Qed.

Variables A B : list R.
Variables m n g : nat.
Hypothesis Hg : (g < m)%nat.
Hypothesis Hint : (Z.of_nat (m * n) < 2 ^ 31)%Z.
Hypothesis HA : length A = (m * n)%nat.
Hypothesis HB : length B = n.

(** The product of entry [(g, k)] of [A] with entry [k] of [B]. *)
Let term (k : nat) : R := coeff A (k * m + g) * coeff B k.

Lemma for_loop_sum (d : nat) :
  forall (fuel i : nat) (acc : R),
    (i + d <= n)%nat -> (d < fuel)%nat ->
    for_loop fuel A B (Z.of_nat m) (Z.of_nat g) (Z.of_nat (i + d))
             (Z.of_nat i) (Z.of_nat (m * i)) acc
    = Some (acc + big d (fun k => term (i + k))).
Proof using Hg Hint HA HB.
  assert (Hint' : (Z.of_nat (m * n) < 2147483648)%Z) by exact Hint.
  assert (Hwrap : forall k : nat, (k <= m * n)%nat ->
            wrap (Z.of_nat k) = Z.of_nat k).
  { intros k Hk. apply wrap_small.
    change (2 ^ 31)%Z with 2147483648%Z. lia. }
  induction d as [|d IH]; intros fuel i acc Hi Hfuel.
  - destruct fuel as [|fuel]; [lia|].
    rewrite for_loop_exit by lia. rewrite big_0. f_equal. lra.
  - destruct fuel as [|fuel]; [lia|]. cbn [for_loop].
    destruct (Z.ltb_spec (Z.of_nat i) (Z.of_nat (i + S d))); [|lia].
    assert (Hin : (m * i + g < m * n)%nat) by nia.
    assert (Hnext : (m * S i <= m * n)%nat) by nia.
    rewrite <- Nat2Z.inj_add, Hwrap by lia.
    rewrite load_coeff by lia. rewrite load_coeff by lia.
    replace (Z.of_nat i + 1)%Z with (Z.of_nat (S i)) by lia.
    rewrite <- Nat2Z.inj_add.
    replace (m * i + m)%nat with (m * S i)%nat by lia.
    rewrite !Hwrap by nia.
    replace (i + S d)%nat with (S i + d)%nat by lia.
    rewrite IH by lia. f_equal. rewrite big_shift.
    unfold term at 2. rewrite Nat.add_0_r.
    replace (m * i + g)%nat with (i * m + g)%nat by lia.
    rewrite Rplus_assoc. f_equal. f_equal. apply big_ext. intros k _.
    f_equal. lia.
Qed.

Lemma for_loop_range (start stop : nat) :
  (stop <= n)%nat ->
  for_loop (S (Z.to_nat (Z.of_nat stop - Z.of_nat start))) A B
           (Z.of_nat m) (Z.of_nat g) (Z.of_nat stop) (Z.of_nat start)
           (wrap (Z.of_nat m * Z.of_nat start)) 0
  = Some (big (stop - start) (fun k => term (start + k))).
Proof using Hg Hint HA HB.
  intros Hstop. destruct (le_lt_dec start stop) as [Hle|Hlt].
  - rewrite <- Nat2Z.inj_mul, wrap_small.
    2:{ change (2 ^ 31)%Z with 2147483648%Z in *. nia. }
    replace (Z.to_nat (Z.of_nat stop - Z.of_nat start)) with (stop - start)%nat
      by lia.
    replace (Z.of_nat stop) with (Z.of_nat (start + (stop - start))) by lia.
    rewrite for_loop_sum by lia. f_equal. lra.
  - rewrite for_loop_exit by lia.
    replace (stop - start)%nat with 0%nat by lia. now rewrite big_0.
Qed.

Lemma big_range (start stop : nat) :
  (stop <= n)%nat ->
  (forall k, (k < n)%nat -> (k < start)%nat \/ (stop <= k)%nat ->
     term k = 0) ->
  big (stop - start) (fun k => term (start + k)) = big n term.
Proof using Hg Hint HA HB.
  intros Hstop Hzero. destruct (le_lt_dec start stop) as [Hle|Hlt].
  - transitivity (big (start + ((stop - start) + (n - stop))) term);
      [|f_equal; lia].
    rewrite !big_split.
    rewrite (big_all_zero start) by (intros k Hk; apply Hzero; lia).
    rewrite (big_all_zero (n - stop)) by (intros k Hk; apply Hzero; lia).
    lra.
  - replace (stop - start)%nat with 0%nat by lia. rewrite big_0.
    symmetry. apply big_all_zero. intros k Hk. apply Hzero; lia.
Qed.

End MatrixVectorKernel.

(** X22.  Work-item [gid] of the kernel [matrix_vector_multiply] stores
    row [gid] of [A] times [B] in [R[gid]]: the triangularity arguments
    only shorten the loop to the entries that can be non-zero.  For the
    lower triangle the row must lie within the columns, since the loop
    then runs to column [gid]. *)
Theorem matrix_vector_multiply_work_item
    (A B R_ : list R) (m n g : nat)
    (lower_upper_A lower_upper_B : opencl_kernels.TriangularViewCL) :
  (g < m)%nat -> (Z.of_nat (m * n) < 2 ^ 31)%Z ->
  length A = (m * n)%nat -> length B = n -> length R_ = m ->
  (lower_upper_A = opencl_kernels.LOWER ->
   (g < n)%nat /\
   forall k, (g < k)%nat -> (k < n)%nat -> Eigen.coeff A (k * m + g) = 0) ->
  (lower_upper_A = opencl_kernels.UPPER ->
   forall k, (k < g)%nat -> (k < n)%nat -> Eigen.coeff A (k * m + g) = 0) ->
  (lower_upper_B = opencl_kernels.UPPER ->
   (0 < n)%nat /\
   forall k, (0 < k)%nat -> (k < n)%nat -> Eigen.coeff B k = 0) ->
  opencl_kernels.matrix_vector_multiply A B R_ (Z.of_nat m) (Z.of_nat n)
    lower_upper_A lower_upper_B (Z.of_nat g)
  = Some (<[g := Eigen.big n (fun k => Eigen.coeff A (k * m + g)
                                       * Eigen.coeff B k)]> R_).
Proof.
  intros Hg Hint HA HB HR HlowA HupA HupB.
  set (start := match lower_upper_A with opencl_kernels.UPPER => g | _ => O end).
  set (stop := match lower_upper_B with
               | opencl_kernels.UPPER => 1%nat
               | _ => match lower_upper_A with
                      | opencl_kernels.LOWER => S g
                      | _ => n
                      end
               end).
  assert (Hstop : (stop <= n)%nat).
  { unfold stop. destruct lower_upper_B; try (destruct (HupB eq_refl); lia);
      destruct lower_upper_A; try lia; destruct (HlowA eq_refl); lia. }
  assert (Hzero : forall k, (k < n)%nat -> (k < start)%nat \/ (stop <= k)%nat ->
            Eigen.coeff A (k * m + g) * Eigen.coeff B k = 0).
  { intros k Hk [Hlt|Hge].
    - unfold start in Hlt. destruct lower_upper_A; try lia.
      rewrite (HupA eq_refl k) by lia. lra.
    - unfold stop in Hge. destruct lower_upper_B.
      + destruct lower_upper_A; try lia.
        destruct (HlowA eq_refl) as [_ H]. rewrite H by lia. lra.
      + destruct (HupB eq_refl) as [_ H]. rewrite H by lia. lra.
      + destruct lower_upper_A; try lia.
        destruct (HlowA eq_refl) as [_ H]. rewrite H by lia. lra. }
  unfold opencl_kernels.matrix_vector_multiply.
  assert (Hs : match lower_upper_A with
               | opencl_kernels.UPPER => Z.of_nat g
               | _ => 0%Z
               end = Z.of_nat start)
    by (unfold start; now destruct lower_upper_A).
  assert (Ht : match lower_upper_B with
               | opencl_kernels.UPPER => 1%Z
               | _ => match lower_upper_A with
                      | opencl_kernels.LOWER =>
                          opencl_kernels.wrap (Z.of_nat g + 1)
                      | _ => Z.of_nat n
                      end
               end = Z.of_nat stop).
  { unfold stop. destruct lower_upper_B; try reflexivity;
      destruct lower_upper_A; try reflexivity;
      (rewrite wrap_small;
       [lia | destruct (HlowA eq_refl);
              change (2 ^ 31)%Z with 2147483648%Z in *; nia]). }
  cbv zeta. rewrite Hs, Ht.
  rewrite (for_loop_range A B m n g Hg Hint HA HB start stop Hstop).
  rewrite (big_range A B m n g Hg Hint HA HB start stop Hstop Hzero).
  unfold opencl_kernels.store.
  destruct (Z.ltb_spec (Z.of_nat g) 0); [lia|].
  rewrite Nat2Z.id.
  destruct (Nat.ltb_spec g (length R_)); [reflexivity | lia].
Qed.

(** * Instances of the further properties *)

(** X4 on the matrix (+infinity, 1). *)
Lemma is_finite_check_characterised_witness :
  checks.finite_eigen_check "check_finite"%string "y"%string
    (err.mat 1 2 [infinity; 1%float])
  = inl (checks.domain_error_vec "check_finite"%string "y"%string 0).
Proof.
  exact (proj2 (is_finite_check_characterised
                  (err.mat 1 2 [infinity; 1%float]))
           "check_finite"%string "y"%string eq_refl).
Defined.

(** X5 on NaN. *)
Lemma checks_reject_nan_witness :
  checks.nonnegative_check "check_nonnegative"%string "y"%string nan
    = inl (checks.domain_error "check_nonnegative"%string "y"%string nan) /\
  checks.finite_check "check_finite"%string "y"%string nan
    = inl (checks.domain_error "check_finite"%string "y"%string nan).
Proof.
  split.
  - exact (proj1 (checks_reject_nan "check_nonnegative"%string "y"%string nan [] eq_refl)).
  - exact (proj1 (proj2 (checks_reject_nan "check_finite"%string "y"%string nan []
                           eq_refl))).
Defined.

(** X6 on 2F1(1, 2; 3; 0.5), with -2 and 0 as the nonpositive integers. *)
Lemma is_2F1_converges_series_case_witness :
  hypergeometric.is_2F1_converges
    (fun x => PrimFloat.eqb x (-2)%float || PrimFloat.eqb x 0%float)
    (fun x => if PrimFloat.eqb x 2%float then 2%Z else 0%Z)
    1%float 2%float 3%float 0.5%float
  = true.
Proof.
  rewrite (is_2F1_converges_series_case
             (fun x => PrimFloat.eqb x (-2)%float || PrimFloat.eqb x 0%float)
             (fun x => if PrimFloat.eqb x 2%float then 2%Z else 0%Z)
             1%float 2%float 3%float 0.5%float eq_refl eq_refl eq_refl).
  reflexivity.
Defined.

(** X7 on 2F1(-2, 1; 3; NaN). *)
Lemma is_2F1_converges_polynomial_case_witness :
  hypergeometric.is_2F1_converges
    (fun x => PrimFloat.eqb x (-2)%float || PrimFloat.eqb x 0%float)
    (fun x => if PrimFloat.eqb x 2%float then 2%Z else 0%Z)
    (-2)%float 1%float 3%float nan
  = true.
Proof.
  exact (is_2F1_converges_polynomial_case
           (fun x => PrimFloat.eqb x (-2)%float || PrimFloat.eqb x 0%float)
           (fun x => if PrimFloat.eqb x 2%float then 2%Z else 0%Z)
           (-2)%float 1%float 3%float nan eq_refl eq_refl eq_refl).
Defined.

(** X10 on the vectors (a, b) and (b, b) over a = 3 and b = 1. *)
Lemma squared_distance_vv_vari_propagates_witness :
  let s := [rev.Vari 3 0 rev.plain_vari; rev.Vari 1 0 rev.plain_vari] in
  let v1 := err.mat 2 1 [rev.Var 0; rev.Var 1] in
  let v2 := err.mat 2 1 [rev.Var 1; rev.Var 1] in
  let r := squared_distance.new_squared_distance_vv_vari s v1 v2 in
  rev.val_at (fst r) (snd r)
    = Eigen.big 2
        (fun i => (rev.val_at s (rev.vi_ (nth i (err.mat_data v1) (rev.Var O)))
                   - rev.val_at s
                       (rev.vi_ (nth i (err.mat_data v2) (rev.Var O)))) ^ 2).
Proof.
  destruct (squared_distance_vv_vari_propagates
              [rev.Vari 3 0 rev.plain_vari; rev.Vari 1 0 rev.plain_vari]
              (err.mat 2 1 [rev.Var 0; rev.Var 1])
              (err.mat 2 1 [rev.Var 1; rev.Var 1]) 1) as (Hval & _).
  - intros i Hi. destruct i as [|[|i]]; cbn in *; lia.
  - exact Hval.
Defined.

(** X11 on the vector (a, b) over a = 3 and b = 1, and the doubles
    (1, 2). *)
Lemma squared_distance_vd_vari_propagates_witness :
  let s := [rev.Vari 3 0 rev.plain_vari; rev.Vari 1 0 rev.plain_vari] in
  let v1 := err.mat 2 1 [rev.Var 0; rev.Var 1] in
  let v2 := err.mat 2 1 [1; 2] in
  let r := squared_distance.new_squared_distance_vd_vari s v1 v2 in
  rev.val_at (fst r) (snd r)
    = Eigen.big 2
        (fun i => (rev.val_at s (rev.vi_ (nth i (err.mat_data v1) (rev.Var O)))
                   - nth i (err.mat_data v2) 0) ^ 2).
Proof.
  destruct (squared_distance_vd_vari_propagates
              [rev.Vari 3 0 rev.plain_vari; rev.Vari 1 0 rev.plain_vari]
              (err.mat 2 1 [rev.Var 0; rev.Var 1])
              (err.mat 2 1 [1; 2]) 1) as (Hval & _).
  - intros i Hi. destruct i as [|[|i]]; cbn in *; lia.
  - exact Hval.
Defined.

(** X12 on the vectors (a, b) and (b, b). *)
Lemma squared_distance_vv_symmetric_witness :
  let s := [rev.Vari 3 0 rev.plain_vari; rev.Vari 1 0 rev.plain_vari] in
  let v1 := err.mat 2 1 [rev.Var 0; rev.Var 1] in
  let v2 := err.mat 2 1 [rev.Var 1; rev.Var 1] in
  let r12 := squared_distance.new_squared_distance_vv_vari s v1 v2 in
  let r21 := squared_distance.new_squared_distance_vv_vari s v2 v1 in
  rev.val_at (fst r12) (snd r12) = rev.val_at (fst r21) (snd r21).
Proof.
  destruct (squared_distance_vv_symmetric
              [rev.Vari 3 0 rev.plain_vari; rev.Vari 1 0 rev.plain_vari]
              (err.mat 2 1 [rev.Var 0; rev.Var 1])
              (err.mat 2 1 [rev.Var 1; rev.Var 1]) 1 eq_refl)
    as (_ & Hval & _).
  - intros i Hi. destruct i as [|[|i]]; cbn in *; lia.
  - exact Hval.
Defined.

(** X14 on a = 3 and the double 1. *)
Lemma scal_squared_distance_mixed_agree_witness :
  let s := [rev.Vari 3 0 rev.plain_vari] in
  let vd := squared_distance.scal_vd s (rev.Var 0) 1 in
  let dv := squared_distance.scal_dv s 1 (rev.Var 0) in
  rev.val_at (fst vd) (rev.vi_ (snd vd)) = (3 - 1) ^ 2 /\
  rev.val_at (fst dv) (rev.vi_ (snd vd)) = (3 - 1) ^ 2.
Proof.
  destruct (scal_squared_distance_mixed_agree [rev.Vari 3 0 rev.plain_vari]
              (rev.Var 0) 1 1 (Nat.lt_0_succ 0))
    as (_ & Hvd & Hdv & _).
  split; [exact Hvd | exact Hdv].
Defined.

(** X15 on the example chain with two observations of density 1, from
    zeroed and from filled buffers. *)
Lemma hmm_forward_pass_ignores_buffer_contents_witness :
  exists (lp : R) (alphas alphas' : Eigen.MatrixXd) (L L' : list R),
    internal.hmm_marginal_lpdf (Eigen.Matrix 2 2 [[0; 0]; [0; 0]])
      Spec.example_Gamma Spec.example_rho (Eigen.Zero 2 2) (Eigen.ZeroV 2)
      = Some (lp, alphas, L,
              Eigen.array_exp (Eigen.Matrix 2 2 [[0; 0]; [0; 0]])) /\
    internal.hmm_marginal_lpdf (Eigen.Matrix 2 2 [[0; 0]; [0; 0]])
      Spec.example_Gamma Spec.example_rho
      (Eigen.Matrix 2 2 [[5; 5]; [7; 7]]) [3; 4]
      = Some (lp, alphas', L',
              Eigen.array_exp (Eigen.Matrix 2 2 [[0; 0]; [0; 0]])).
Proof.
  destruct (hmm_forward_pass_ignores_buffer_contents
              (Eigen.Matrix 2 2 [[0; 0]; [0; 0]])
              Spec.example_Gamma Spec.example_rho (Eigen.Zero 2 2)
              (Eigen.Matrix 2 2 [[5; 5]; [7; 7]]) (Eigen.ZeroV 2) [3; 4] 1
              eq_refl eq_refl eq_refl eq_refl eq_refl)
    as (lp & A & A' & L & L' & Heq & Heq' & _).
  exists lp, A, A', L, L'. split; [exact Heq | exact Heq'].
Defined.

(** X17 on the example chain with three observations of density 1, all
    operands doubles. *)
Lemma hmm_marginal_lpdf_returns_forward_value_witness :
  exists (lp : R) (alphas : Eigen.MatrixXd) (alpha_log_norms : list R)
         (e : hmm.edges),
    internal.hmm_marginal_lpdf
      (Eigen.Matrix 2 3 [[0; 0]; [0; 0]; [0; 0]])
      Spec.example_Gamma Spec.example_rho (Eigen.Zero 2 (2 + 1))
      (Eigen.ZeroV (2 + 1))
    = Some (lp, alphas, alpha_log_norms,
            Eigen.array_exp (Eigen.Matrix 2 3 [[0; 0]; [0; 0]; [0; 0]])) /\
    hmm_marginal_lpdf 0 []
      (hmm.double_matrix (Eigen.Matrix 2 3 [[0; 0]; [0; 0]; [0; 0]]))
      (hmm.double_matrix Spec.example_Gamma)
      (hmm.double_vector Spec.example_rho)
    = Some ([], inr (hmm.ret_double lp, e)).
Proof.
  destruct (hmm_marginal_lpdf_returns_forward_value 0 []
              (hmm.double_matrix (Eigen.Matrix 2 3 [[0; 0]; [0; 0]; [0; 0]]))
              (hmm.double_matrix Spec.example_Gamma)
              (hmm.double_vector Spec.example_rho) 2%nat
              eq_refl eq_refl (proj2 example_chain_preconditions))
    as (lp & A & L & s' & r & e & Hfwd & Heq & Hs & Hr).
  exists lp, A, L, e. split; [exact Hfwd|].
  rewrite Heq, Hs, Hr. reflexivity.
Defined.

(** X19 on the download of a 2 x 2 device matrix with one pending write. *)
Lemma opencl_copies_keep_events_fresh_witness :
  exists suffix : list opencl.action,
    [opencl.Enqueue (opencl.Command (opencl.ReadBuffer 7) [0%nat] 1);
     opencl.HostWait 1]
    = [] ++ suffix.
Proof.
  destruct (proj1 (proj2 opencl_copies_keep_events_fresh)
              (opencl.Queue [] 1)
              (opencl.Queue
                 [opencl.Enqueue (opencl.Command (opencl.ReadBuffer 7)
                                    [0%nat] 1);
                  opencl.HostWait 1] 2)
              2%nat 2%nat
              (opencl.MatrixCL 2 2 7 [0%nat] [])
              (opencl.MatrixCL 2 2 7 [] []))
    as (_ & suffix & Htrace & _).
  - cbn. intros e [[<-|[]]|[]]. lia.
  - reflexivity.
  - exists suffix. exact Htrace.
Defined.

(** X20 on a 2 x 2 device matrix with no pending event. *)
Lemma opencl_upload_then_download_witness :
  exists (q1 q2 : opencl.queue) (dst1 dst2 : opencl.matrix_cl),
    opencl.copy_from_eigen (opencl.Queue [] 0) (opencl.MatrixCL 2 2 7 [] [])
      2 2 = inr (q1, dst1) /\
    opencl.copy_to_eigen q1 2 2 dst1 = inr (q2, dst2) /\
    opencl.next_event q2 = 2%nat.
Proof.
  destruct (opencl_upload_then_download (opencl.Queue [] 0)
              (opencl.MatrixCL 2 2 7 [] []) (Nat.neq_succ_0 3))
    as (q1 & q2 & dst1 & dst2 & _ & _ & _ & H1 & H2 & _ & _ & _ & _ & _ & _
        & _ & Hnext).
  exists q1, q2, dst1, dst2. split; [exact H1|]. split; [exact H2 | exact Hnext].
Defined.

(** X21 on two 2 x 2 device matrices, the source with one pending write. *)
Lemma opencl_device_copy_then_host_copies_witness :
  exists (q1 : opencl.queue) (dst1 src1 : opencl.matrix_cl)
         (c : opencl.command),
    opencl.copy_device (opencl.Queue [] 1) (opencl.MatrixCL 2 2 8 [] [])
      (opencl.MatrixCL 2 2 7 [0%nat] [])
    = inr (q1, dst1, src1) /\
    opencl.trace q1 = [] ++ [opencl.Enqueue c].
Proof.
  destruct (opencl_device_copy_then_host_copies (opencl.Queue [] 1)
              (opencl.MatrixCL 2 2 8 [] [])
              (opencl.MatrixCL 2 2 7 [0%nat] [])
              eq_refl eq_refl (Nat.neq_succ_0 3))
    as (q1 & dst1 & src1 & c & Hcopy & Htrace & _).
  exists q1, dst1, src1, c. split; [exact Hcopy | exact Htrace].
Defined.

(** X22 on the upper triangular matrix ((1, 2), (0, 3)) and the vector
    (1, 1), for the second row. *)
Lemma matrix_vector_multiply_work_item_witness :
  opencl_kernels.matrix_vector_multiply [1; 0; 2; 3] [1; 1] [0; 0] 2 2
    opencl_kernels.UPPER opencl_kernels.ENTIRE 1
  = Some (<[1%nat := Eigen.big 2
                       (fun k => Eigen.coeff [1; 0; 2; 3] (k * 2 + 1)
                                 * Eigen.coeff [1; 1] k)]> [0; 0]).
Proof.
  apply (matrix_vector_multiply_work_item [1; 0; 2; 3] [1; 1] [0; 0]
           2 2 1 opencl_kernels.UPPER opencl_kernels.ENTIRE).
  - lia.
  - reflexivity.
  - reflexivity.
  - reflexivity.
  - reflexivity.
  - discriminate.
  - intros _ k Hk _. assert (k = 0%nat) as -> by lia. reflexivity.
  - discriminate.
Defined.
